(** * EasySplit: the settlement computation of [EasySplit.py]

    A shallow embedding of [compute_result] (aggregation of the expense
    entries per currency, conversion to pounds, pairwise netting, report)
    and of the row loop of [on_submit], with the properties of the
    settlement engine proved about them.

    Conventions.
    - A Python [dict] (and [defaultdict]) is an insertion-ordered association
      list with unique keys: iteration order decides the order in which
      floating-point amounts are added up, so it is kept.
    - A Python [str] is a [string] of its UTF-8 bytes.  Byte-wise
      lexicographic order on UTF-8 agrees with Python's code-point order.
    - A Python [float] is a binary64 primitive float.  The arithmetic the
      code uses is collected in the class [Arith]; its instance is the
      arithmetic of binary64.  Real numbers only measure how far a float
      the program computes is from an exact quantity. *)

From Stdlib Require Import String Ascii List Bool Arith Lia ZArith.
From Stdlib Require Import Permutation Sorted ListSet.
From Stdlib Require Import Reals Lra.
From Stdlib Require Import PrimFloat Uint63 SpecFloat FloatOps FloatAxioms.
From Stdlib Require OrderedTypeEx DecimalString.
Import ListNotations.

Local Open Scope string_scope.
Local Open Scope list_scope.

(** ** Insertion-ordered dictionaries *)

Module Dict.

Definition dict (V : Type) : Type := list (string * V).

(** [{}]. *)
Definition empty {V : Type} : dict V := [].

(** [d.get(k)]: the value stored under [k], if any. *)
Fixpoint lookup {V : Type} (d : dict V) (k : string) : option V :=
  match d with
  | [] => None
  | (k', v) :: d' => if String.eqb k' k then Some v else lookup d' k
  end.

(** [d.get(k, default)]. *)
Definition get_or {V : Type} (default : V) (d : dict V) (k : string) : V :=
  match lookup d k with
  | Some v => v
  | None => default
  end.

(** [d[k] = v]: an existing key keeps its position, a new key goes last. *)
Fixpoint setitem {V : Type} (k : string) (v : V) (d : dict V) : dict V :=
  match d with
  | [] => [(k, v)]
  | (k', v') :: d' =>
      if String.eqb k' k then (k', v) :: d' else (k', v') :: setitem k v d'
  end.

(** Reading [d[k]] on a [defaultdict]: a missing key is inserted with the
    factory's value. *)
Definition touch {V : Type} (default : V) (k : string) (d : dict V) : dict V :=
  match lookup d k with
  | Some _ => d
  | None => d ++ [(k, default)]
  end.

Definition keys {V : Type} (d : dict V) : list string := map fst d.
Definition values {V : Type} (d : dict V) : list V := map snd d.

End Dict.

Import Dict.

(** ** The arithmetic of amounts *)

(** The operations [compute_result] performs on amounts. *)
Class Arith (num : Type) : Type := {
  zero : num;                      (* the literal 0.0 *)
  one : num;                       (* the literal 1.0 *)
  add : num -> num -> num;
  sub : num -> num -> num;
  mul : num -> num -> num;
  div : num -> num -> num;
  of_len : nat -> num;             (* the int [len(share_list)] as an amount *)
  gt_eps : num -> bool             (* [x > 1e-9] *)
}.

(** [f"{amt:.2f}"]. *)
Class Format (num : Type) : Type := {
  format_2f : num -> string
}.

(** ** Data model *)

(** One element of the global [entries]: the dictionary built by
    [on_submit]. *)
Record entry (num : Type) : Type := mkEntry {
  bill_date : string;
  reference : string;
  payer : string;
  currency : string;
  amount : num;
  share : list string
}.

Arguments mkEntry {num}.
Arguments bill_date {num}.
Arguments reference {num}.
Arguments payer {num}.
Arguments currency {num}.
Arguments amount {num}.
Arguments share {num}.

(** debtor -> creditor -> amount *)
Definition matrix (num : Type) : Type := dict (dict num).

(** One element of [transactions]: (debtor, creditor, amount). *)
Definition transaction (num : Type) : Type := (string * string * num)%type.

(** ** Sorting names: [sorted(all_people)] *)

Fixpoint insert_sorted (x : string) (l : list string) : list string :=
  match l with
  | [] => [x]
  | y :: l' => if String.leb x y then x :: l else y :: insert_sorted x l'
  end.

Fixpoint sorted (l : list string) : list string :=
  match l with
  | [] => []
  | x :: l' => insert_sorted x (sorted l')
  end.

(** ** [compute_result] *)

Section ComputeResult.

Context {num : Type} {A : Arith num}.

(** *** Aggregation (the loop over [entries]) *)

(** [m[debtor][creditor] += x] on a [defaultdict] of [defaultdict(float)]. *)
Definition add_to (m : matrix num) (debtor creditor : string) (x : num)
  : matrix num :=
  let row := get_or empty m debtor in
  setitem debtor (setitem creditor (add (get_or zero row creditor) x) row) m.

(** [transfer[currency][person][payer] += share_amt]. *)
Definition add_transfer (transfer : dict (matrix num))
  (curr person payee : string) (x : num) : dict (matrix num) :=
  setitem curr (add_to (get_or (empty : matrix num) transfer curr) person payee x) transfer.

(** The state of the first loop: [transfer] and the set [all_people]
    (kept as a duplicate-free list; only [sorted] ever reads it). *)
Record agg_state : Type := mkAgg {
  transfer : dict (matrix num);
  all_people : list string
}.

(** [share_amt = amount / n]. *)
Definition share_amt (e : entry num) : num :=
  div (amount e) (of_len (length (share e))).

(** The body of [for person in share_list]. *)
Definition share_step (e : entry num) (st : agg_state) (person : string)
  : agg_state :=
  let people := set_add string_dec person (all_people st) in
  if String.eqb person (payer e)
  then mkAgg (transfer st) people
  else mkAgg (add_transfer (transfer st) (currency e) person (payer e)
                (share_amt e))
             people.

(** The body of [for entry in entries]. *)
Definition entry_step (st : agg_state) (e : entry num) : agg_state :=
  if Nat.eqb (length (share e)) 0
  then st
  else fold_left (share_step e) (share e) st.

(** [set(participants)]. *)
Definition set_of (l : list string) : list string :=
  fold_left (fun s x => set_add string_dec x s) l [].

Definition aggregate (participants : list string) (entries : list (entry num))
  : agg_state :=
  fold_left entry_step entries (mkAgg [] (set_of participants)).

(** *** Conversion to pounds (the loop over [transfer.items()]) *)

(** [conversion_rates.get(curr, 1.0)]. *)
Definition rate_of (conversion_rates : dict num) (curr : string) : num :=
  get_or one conversion_rates curr.

Definition convert_row (rate : num) (debtor : string)
  (net_transfer : matrix num) (subdict : dict num) : matrix num :=
  fold_left
    (fun nt (ca : string * num) =>
       add_to nt debtor (fst ca) (mul (snd ca) rate))
    subdict net_transfer.

Definition convert_matrix (rate : num) (net_transfer : matrix num)
  (m : matrix num) : matrix num :=
  fold_left
    (fun nt (ds : string * dict num) => convert_row rate (fst ds) nt (snd ds))
    m net_transfer.

Definition normalize (conversion_rates : dict num)
  (transfer : dict (matrix num)) : matrix num :=
  fold_left
    (fun nt (cm : string * matrix num) =>
       convert_matrix (rate_of conversion_rates (fst cm)) nt (snd cm))
    transfer [].

(** *** Netting (the double loop over [people_list]) *)

(** The state of the double loop.  [net_transfer] is part of it: reading
    [net_transfer[debtor]] on the [defaultdict] inserts an empty row for a
    name that has none. *)
Record net_state : Type := mkNet {
  net_transfer : matrix num;
  reduced_matrix : matrix num;
  transactions : list (transaction num)
}.

(** [reduced_matrix[debtor][creditor] = v]. *)
Definition set_cell (m : matrix num) (debtor creditor : string) (v : num)
  : matrix num :=
  setitem debtor (setitem creditor v (get_or empty m debtor)) m.

(** The body of [for creditor in people_list]. *)
Definition net_step (debtor : string) (st : net_state) (creditor : string)
  : net_state :=
  if String.eqb debtor creditor
  then st
  else
    let nt1 := touch empty debtor (net_transfer st) in
    let owed := get_or zero (get_or empty nt1 debtor) creditor in
    let nt2 := touch empty creditor nt1 in
    let back := get_or zero (get_or empty nt2 creditor) debtor in
    let net_amt := sub owed back in
    if gt_eps net_amt
    then mkNet nt2
           (set_cell (reduced_matrix st) debtor creditor net_amt)
           (transactions st ++ [(debtor, creditor, net_amt)])
    else mkNet nt2
           (set_cell (reduced_matrix st) debtor creditor zero)
           (transactions st).

Definition net_row (people_list : list string) (st : net_state)
  (debtor : string) : net_state :=
  fold_left (net_step debtor) people_list st.

Definition net (unified : matrix num) (people_list : list string)
  : net_state :=
  fold_left (net_row people_list) people_list (mkNet unified [] []).

End ComputeResult.

Arguments agg_state num : clear implicits.
Arguments net_state num : clear implicits.

(** *** The report *)

Section Report.

Context {num : Type} {A : Arith num} {F : Format num}.

Local Open Scope string_scope.

(** [reduced_matrix[debtor][creditor]], read for display. *)
Definition cell (m : matrix num) (debtor creditor : string) : num :=
  get_or zero (get_or empty m debtor) creditor.

Definition html_header (people_list : list string) : string :=
  "<h2>整合后的英镑平账矩阵（已抵消互相转账）</h2>"
  ++ "<table border='1' style='border-collapse: collapse;'>"
  ++ "<tr><th>转账人 \ 收款人</th>"
  ++ String.concat "" (map (fun person => "<th>" ++ person ++ "</th>") people_list)
  ++ "</tr>".

Definition html_row (reduced : matrix num) (people_list : list string)
  (debtor : string) : string :=
  "<tr><td>" ++ debtor ++ "</td>"
  ++ String.concat ""
       (map (fun creditor =>
               if String.eqb debtor creditor
               then "<td>-</td>"
               else "<td>" ++ format_2f (cell reduced debtor creditor)
                    ++ "</td>")
            people_list)
  ++ "</tr>".

Definition html_transaction (t : transaction num) : string :=
  "<li>" ++ fst (fst t) ++ " -> " ++ snd (fst t) ++ ": "
  ++ format_2f (snd t) ++ " 英镑</li>".

Definition html_plan (txs : list (transaction num)) : string :=
  "<h2>转账方案</h2>"
  ++ match txs with
     | [] => "<p>无需转账，大家已经平账！</p>"
     | _ :: _ => "<ul>" ++ String.concat "" (map html_transaction txs) ++ "</ul>"
     end.

Definition no_data_message : string :=
  "<p>没有有效数据，请检查输入的支出条目。</p>".

(** [sum(v.values())]. *)
Definition sum_values (row : dict num) : num :=
  fold_left add (values row) zero.

(** [any(sum(v.values()) > 1e-9 for v in reduced_matrix.values())]. *)
Definition any_positive_row (reduced : matrix num) : bool :=
  existsb (fun row => gt_eps (sum_values row)) (values reduced).

Definition is_nil {X : Type} (l : list X) : bool :=
  match l with [] => true | _ :: _ => false end.

Definition render (people_list : list string) (reduced : matrix num)
  (txs : list (transaction num)) : string :=
  let html_result :=
    html_header people_list
    ++ String.concat "" (map (html_row reduced people_list) people_list)
    ++ "</table>"
    ++ html_plan txs in
  if is_nil txs && negb (any_positive_row reduced)
  then no_data_message
  else html_result.

(** *** The whole function *)

(** The local variables of [compute_result] at its [return]. *)
Record settlement : Type := mkSettlement {
  per_currency : dict (matrix num);       (* [transfer] *)
  people_list : list string;
  unified : matrix num;                   (* [net_transfer] before netting *)
  netted : net_state num;
  html_result : string
}.

(** [enumerate] is the order in which the set [all_people] happens to be
    iterated by [sorted]; it depends on string hashing, not on the program. *)
Definition settle_with (enumerate : list string -> list string)
  (conversion_rates : dict num) (participants : list string)
  (entries : list (entry num)) : settlement :=
  let agg := aggregate participants entries in
  let people := sorted (enumerate (all_people agg)) in
  let nt := normalize conversion_rates (transfer agg) in
  let st := net nt people in
  mkSettlement (transfer agg) people nt st
    (render people (reduced_matrix st) (transactions st)).

Definition settle := settle_with (fun s => s).

(** [compute_result()], with the globals and the rate table it reads as
    arguments. *)
Definition compute_result (conversion_rates : dict num)
  (participants : list string) (entries : list (entry num)) : string :=
  html_result (settle conversion_rates participants entries).

End Report.

(** ** Amounts as Python has them: binary64 floats *)

Module FloatAmount.

(** The literal [1e-9] (the binary64 value closest to it). *)
Definition epsilon : float := 0x1.12e0be826d695p-30%float.

#[export] Instance float_arith : Arith float := {|
  zero := 0%float;
  one := 1%float;
  add := PrimFloat.add;
  sub := PrimFloat.sub;
  mul := PrimFloat.mul;
  div := PrimFloat.div;
  of_len := fun n => PrimFloat.of_uint63 (Uint63.of_Z (Z.of_nat n));
  gt_eps := fun x => PrimFloat.ltb epsilon x
|}.

(** The value [m * 2^e] in hundredths, rounded to the nearest integer,
    ties to even. *)
Definition hundredths (m : positive) (e : Z) : Z :=
  let scaled := (Z.pos m * 100)%Z in
  if (0 <=? e)%Z
  then (scaled * 2 ^ e)%Z
  else
    let den := (2 ^ (- e))%Z in
    let q := (scaled / den)%Z in
    let r := (scaled mod den)%Z in
    match (2 * r ?= den)%Z with
    | Lt => q
    | Gt => (q + 1)%Z
    | Eq => if Z.even q then q else (q + 1)%Z
    end.

Definition decimal (z : Z) : string :=
  DecimalString.NilZero.string_of_uint (N.to_uint (Z.to_N z)).

Definition two_digits (z : Z) : string :=
  ((if (z <? 10)%Z then "0" else "") ++ decimal z)%string.

(** [f"{x:.2f}"] on a float. *)
Definition format_2f_float (x : float) : string :=
  match Prim2SF x with
  | S754_nan => "nan"
  | S754_infinity s => if s then "-inf" else "inf"
  | S754_zero s => if s then "-0.00" else "0.00"
  | S754_finite s m e =>
      let h := hundredths m e in
      ((if s then "-" else "")
       ++ decimal (h / 100) ++ "." ++ two_digits (h mod 100))%string
  end.

#[export] Instance float_format : Format float := {|
  format_2f := format_2f_float
|}.

#[local] Set Warnings "-inexact-float".

(** [default_rates] of [get_exchange_rates]: pounds per unit. *)
Definition default_rates : dict float :=
  [("英镑", 1.0%float); ("欧元", 0.86%float); ("人民币", 0.11%float)].

End FloatAmount.

(** ** Text helpers of [on_submit] *)

Local Open Scope nat_scope.

(** [s.split(",")]. *)
Fixpoint split_comma (s : string) : list string :=
  match s with
  | EmptyString => [EmptyString]
  | String c s' =>
      match split_comma s' with
      | piece :: pieces =>
          if Ascii.eqb c ","%char
          then EmptyString :: piece :: pieces
          else String c piece :: pieces
      | [] => [String c EmptyString]
      end
  end.

(** The characters [str.strip()] removes, by their UTF-8 bytes:
    U+0009..U+000D, U+001C..U+0020; U+0085, U+00A0; U+1680, U+2000..U+200A,
    U+2028, U+2029, U+202F, U+205F, U+3000. *)
Definition is_space1 (c : nat) : bool :=
  ((9 <=? c) && (c <=? 13)) || ((28 <=? c) && (c <=? 32)).

Definition is_space2 (c d : nat) : bool :=
  (c =? 194) && ((d =? 133) || (d =? 160)).

Definition is_space3 (c d f : nat) : bool :=
  ((c =? 225) && (d =? 154) && (f =? 128))
  || ((c =? 226) && (d =? 128)
      && (((128 <=? f) && (f <=? 138)) || (f =? 168) || (f =? 169)
          || (f =? 175)))
  || ((c =? 226) && (d =? 129) && (f =? 159))
  || ((c =? 227) && (d =? 128) && (f =? 128)).

(** The bytes left after one leading white-space character, if there is one. *)
Definition drop_space (l : list nat) : option (list nat) :=
  match l with
  | c :: l1 =>
      if is_space1 c then Some l1
      else
        match l1 with
        | d :: l2 =>
            if is_space2 c d then Some l2
            else
              match l2 with
              | f :: l3 => if is_space3 c d f then Some l3 else None
              | [] => None
              end
        | [] => None
        end
  | [] => None
  end.

(** The same at the end of the text, on the reversed bytes. *)
Definition drop_space_rev (l : list nat) : option (list nat) :=
  match l with
  | f :: l1 =>
      if is_space1 f then Some l1
      else
        match l1 with
        | d :: l2 =>
            if is_space2 d f then Some l2
            else
              match l2 with
              | c :: l3 => if is_space3 c d f then Some l3 else None
              | [] => None
              end
        | [] => None
        end
  | [] => None
  end.

Fixpoint drop_while (drop : list nat -> option (list nat)) (fuel : nat)
  (l : list nat) : list nat :=
  match fuel with
  | O => l
  | S fuel' =>
      match drop l with
      | Some l' => drop_while drop fuel' l'
      | None => l
      end
  end.

Definition bytes_of (s : string) : list nat :=
  map nat_of_ascii (list_ascii_of_string s).

Definition text_of (l : list nat) : string :=
  string_of_list_ascii (map ascii_of_nat l).

(** [s.strip()]. *)
Definition strip (s : string) : string :=
  let l := bytes_of s in
  let l1 := drop_while drop_space (length l) l in
  text_of (rev (drop_while drop_space_rev (length l1) (rev l1))).

(** [[p.strip() for p in cells if p.strip()]]. *)
Definition share_names (cells : list string) : list string :=
  filter (fun p => negb (String.eqb p "")) (map strip cells).

(** ** [on_submit] *)

Section OnSubmit.

Context {num : Type} {A : Arith num} {F : Format num}.

(** [float(s)] on the text of a cell: [None] when it raises. *)
Variable parse_float : string -> option num.

(** What the body of [for row in current_entries] does with one row. *)
Inductive row_result : Type :=
| Skipped                      (* [continue] *)
| Accepted (e : entry num)     (* [entries.append(...)] *)
| Raised.                      (* [row[5]] on a row of five cells *)

(** A row is the list of its cells, each a text, as the CSV reader and the
    table deliver them. *)
Definition read_row (row : list string) : row_result :=
  if length row <? 5 then Skipped
  else
    match parse_float (nth 4 row "") with
    | None => Skipped
    | Some amount =>
        let make := mkEntry (nth 0 row "") (nth 1 row "") (nth 2 row "")
                      (nth 3 row "") amount in
        if 6 <? length row
        then Accepted (make (share_names (skipn 5 row)))
        else
          match nth_error row 5 with
          | Some cell => Accepted (make (share_names (split_comma cell)))
          | None => Raised
          end
    end.

(** The loop: the entries appended so far, and whether it ran to its end. *)
Fixpoint read_rows (rows : list (list string)) (entries : list (entry num))
  : list (entry num) * bool :=
  match rows with
  | [] => (entries, true)
  | row :: rows' =>
      match read_row row with
      | Skipped => read_rows rows' entries
      | Accepted e => read_rows rows' (entries ++ [e])
      | Raised => (entries, false)
      end
  end.

(** The module-level variables. *)
Record globals : Type := mkGlobals {
  participants : list string;
  entries : list (entry num)
}.

(** [on_submit(current_participants, current_entries)] from the globals
    [g]: the globals it leaves, and the report it returns ([None] when a
    row raised).  [current_participants] is the column of names,
    [conversion_rates] what [get_exchange_rates()] answers during the
    call.  Writing the CSV file is left out. *)
Definition on_submit (conversion_rates : dict num) (g : globals)
  (current_participants : list string)
  (current_entries : list (list string)) : globals * option string :=
  let '(es, finished) := read_rows current_entries [] in
  let g' := mkGlobals current_participants es in
  (g',
   if finished
   then Some (compute_result conversion_rates (participants g') (entries g'))
   else None).

End OnSubmit.

Arguments row_result num : clear implicits.
Arguments globals num : clear implicits.

(** ** Vocabulary of the statements *)

Section Vocabulary.

Context {num : Type} {A : Arith num}.

(** The cell [m[debtor][creditor]] if it exists. *)
Definition cell_opt (m : matrix num) (debtor creditor : string)
  : option num :=
  match lookup m debtor with
  | Some row => lookup row creditor
  | None => None
  end.

(** [net = matrix[i][j] - matrix[j][i]]. *)
Definition net_amount (m : matrix num) (i j : string) : num :=
  sub (cell m i j) (cell m j i).

(** The value of the dense cell [(i, j)]. *)
Definition dense_value (m : matrix num) (i j : string) : num :=
  if gt_eps (net_amount m i j) then net_amount m i j else zero.

(** The transfers of the ordered pair [(i, j)]: one when [i <> j] and the
    net amount exceeds the threshold, none otherwise. *)
Definition pair_transfers (m : matrix num) (i j : string)
  : list (transaction num) :=
  if String.eqb i j then []
  else if gt_eps (net_amount m i j) then [(i, j, net_amount m i j)]
  else [].

(** The transfer list in the words of the specification: every ordered
    pair of the participant order, row by row. *)
Definition net_transfers (m : matrix num) (people : list string)
  : list (transaction num) :=
  flat_map (fun i => flat_map (pair_transfers m i) people) people.

Definition mem (x : string) (l : list string) : bool :=
  existsb (String.eqb x) l.

(** No key [(debtor, creditor)] with [debtor = creditor]. *)
Definition self_edge_free (m : matrix num) : bool :=
  forallb
    (fun row : string * dict num =>
       forallb (fun c : string * num => negb (String.eqb (fst row) (fst c)))
               (snd row))
    m.

(** The sum, over the sharers of an entry, of what each owes. *)
Definition owed_total (e : entry num) : num :=
  fold_left add (map (fun _ : string => share_amt e) (share e)) zero.

(** [x] with [s] added [k] times. *)
Fixpoint add_times (k : nat) (s x : num) : num :=
  match k with
  | O => x
  | S k' => add_times k' s (add x s)
  end.

(** What the matrices [transfer] contribute to the cell
    [(debtor, creditor)] of the unified matrix, currency after currency,
    starting from [acc]. *)
Definition converted (conversion_rates : dict num)
  (transfer : dict (matrix num)) (debtor creditor : string) (acc : num)
  : num :=
  fold_left
    (fun x (cm : string * matrix num) =>
       match cell_opt (snd cm) debtor creditor with
       | Some amt => add x (mul amt (rate_of conversion_rates (fst cm)))
       | None => x
       end)
    transfer acc.

(** The cell [transfer[curr][debtor][creditor]] if it exists, and its
    amount ([0.0] when it does not). *)
Definition cell3_opt (transfer : dict (matrix num))
  (curr debtor creditor : string) : option num :=
  match lookup transfer curr with
  | Some m => cell_opt m debtor creditor
  | None => None
  end.

Definition cell3 (transfer : dict (matrix num))
  (curr debtor creditor : string) : num :=
  cell (get_or (empty : matrix num) transfer curr) debtor creditor.

Definition is_some {X : Type} (o : option X) : bool :=
  match o with Some _ => true | None => false end.

(** Some currency matrix of [transfer] has the key (debtor, creditor). *)
Definition owed_somewhere (transfer : dict (matrix num))
  (debtor creditor : string) : bool :=
  existsb (fun cm : string * matrix num =>
             is_some (cell_opt (snd cm) debtor creditor))
          transfer.

(** A Python dictionary holds a key once. *)
Fixpoint unique_keys {V : Type} (d : dict V) : bool :=
  match d with
  | [] => true
  | (k, _) :: d' => negb (mem k (keys d')) && unique_keys d'
  end.

Definition well_formed (m : matrix num) : bool :=
  unique_keys m && forallb (fun row => unique_keys (snd row)) m.

Definition all_well_formed (transfer : dict (matrix num)) : bool :=
  forallb (fun cm => well_formed (snd cm)) transfer.

Definition all_self_edge_free (transfer : dict (matrix num)) : bool :=
  forallb (fun cm => self_edge_free (snd cm)) transfer.

(** [s] with the names [l] added, as [set.add] does one by one. *)
Definition add_all (l s : list string) : list string :=
  fold_left (fun s x => set_add string_dec x s) l s.

(** Every stored amount is the literal 0.0. *)
Definition all_zero (m : matrix num) : Prop :=
  Forall (fun row : string * dict num =>
            Forall (fun c : string * num => snd c = zero) (snd row)) m.

(** [m] holds the same amounts as [nt] (it may hold more empty rows). *)
Definition same_cells (m nt : matrix num) : Prop :=
  forall d c, cell_opt m d c = cell_opt nt d c.

End Vocabulary.

(** The order of [sorted] on names, strict and large. *)
Definition str_lt (a b : string) : Prop := String.ltb a b = true.
Definition str_le (a b : string) : Prop := String.leb a b = true.

(** ** Sample inputs

    From here on the statements that name numbers are about the floats of
    the program. *)

Import FloatAmount.

Definition alice_pays_100 : entry float :=
  mkEntry "2025-01-01" "dinner" "Alice" "英镑" 100%float ["Alice"; "Bob"].

Definition alice_pays_120 : entry float :=
  mkEntry "2025-01-01" "hotel" "Alice" "英镑" 120%float ["Alice"; "Bob"].

Definition bob_pays_100 : entry float :=
  mkEntry "2025-01-02" "train" "Bob" "英镑" 100%float ["Alice"; "Bob"].

(** An entry in a currency the rate table does not list. *)
Definition lunch_in_dollars : entry float :=
  mkEntry "2025-01-03" "lunch" "Alice" "USD" 100%float ["Bob"].

(** An entry with a negative amount, as the form lets one be entered. *)
Definition refund : entry float :=
  mkEntry "2025-01-04" "refund" "Alice" "英镑" (-100)%float ["Alice"; "Bob"].

(** One pound shared by ten. *)
Definition ten_way_split : entry float :=
  mkEntry "2025-01-05" "taxi" "P0" "英镑" 1%float
    ["P0"; "P1"; "P2"; "P3"; "P4"; "P5"; "P6"; "P7"; "P8"; "P9"].

(** A stand-in for [float] on the sample rows below: "abc" does not parse,
    any other text reads as 3.0. *)
Definition parse_sample (s : string) : option float :=
  if String.eqb s "abc" then None else Some 3%float.

(** A table of three rows; the amount of the first does not parse. *)
Definition sample_rows : list (list string) :=
  [["d"; "r"; "Alice"; "英镑"; "abc"; "Alice,Bob"];
   ["d"; "r"; "Alice"; "英镑"; "3"; " Alice , Bob,"];
   ["d"; "r"; "Bob"; "英镑"; "3"; "Alice"; "Bob"; ""]].

(** An expense paid by an outsider. *)
Definition carol_pays_90 : entry float :=
  mkEntry "2025-01-06" "museum" "Carol" "英镑" 90%float ["Alice"; "Bob"].

(** ** [get_exchange_rates] *)

(** [symbol_map]: the name of each currency in the form, and its code. *)
Definition symbol_map : list (string * string) :=
  [("英镑", "GBP"); ("欧元", "EUR"); ("人民币", "CNY")].

(** [1 / x] on a rate of the answer: dividing by a zero raises. *)
Definition reciprocal (x : float) : option float :=
  if PrimFloat.eqb x 0%float then None else Some (PrimFloat.div 1%float x).

(** The loop [for cn, symbol in symbol_map.items()] over the rates [listed]
    in the answer ([data.get("rates", {})]); [None] when it raises. *)
Fixpoint fill_rates (listed : dict float) (symbols : list (string * string))
  (rates : dict float) : option (dict float) :=
  match symbols with
  | [] => Some rates
  | (cn, symbol) :: symbols' =>
      if String.eqb cn "英镑" then fill_rates listed symbols' rates
      else
        match lookup listed symbol with
        | Some x =>
            match reciprocal x with
            | Some r => fill_rates listed symbols' (setitem cn r rates)
            | None => None
            end
        | None =>
            match lookup default_rates cn with
            | Some r => fill_rates listed symbols' (setitem cn r rates)
            | None => None
            end
        end
  end.

(** [get_exchange_rates()].  [response] is what the request brought back:
    [None] when the request or the decoding of its answer raised, otherwise
    the rates the answer lists, each of them a number. *)
Definition get_exchange_rates (response : option (dict float)) : dict float :=
  match response with
  | None => default_rates
  | Some listed =>
      match fill_rates listed symbol_map [("英镑", 1%float)] with
      | Some rates => rates
      | None => default_rates
      end
  end.

(** ** The handlers of the form *)

(** [[row[0] for row in current_df]]; [None] when a row has no cell. *)
Fixpoint first_column {X : Type} (table : list (list X)) : option (list X) :=
  match table with
  | [] => Some []
  | row :: table' =>
      match row, first_column table' with
      | x :: _, Some col => Some (x :: col)
      | _, _ => None
      end
  end.

(** [update_participants(name, current_df)]: the new table of names. *)
Definition update_participants (name : string)
  (current_df : list (list string)) : option (list (list string)) :=
  match first_column current_df with
  | None => None
  | Some current_list =>
      let current_list' :=
        if negb (String.eqb name "") && negb (mem name current_list)
        then current_list ++ [name]
        else current_list in
      Some (map (fun p => [p]) current_list')
  end.

(** A cell of the table of entries as the form fills it: a text, or the
    number of the amount field. *)
Inductive table_cell : Type :=
| Text (s : string)
| Number (x : float).

(** [",".join(names)]. *)
Definition join_comma (names : list string) : string :=
  String.concat "," names.

(** [update_entries(bill_date, reference, currency, amount, payer, share,
    current_df)]: the new table.  [amount] is the value of the number
    field, [None] when the field is empty ([float(None)] raises). *)
Definition update_entries (bill_date reference currency : string)
  (amount : option float) (payer : string) (share : list string)
  (current_df : list (list table_cell)) : list (list table_cell) :=
  match amount with
  | None => current_df
  | Some a =>
      current_df
      ++ [[Text bill_date; Text reference; Text payer; Text currency;
           Number a; Text (join_comma share)]]
  end.

(** A row of the table as [on_submit] reads it, cell by cell: a text as it
    is, the number of the amount field as the text [show] gives it
    ([float] of a cell that holds a number is that number, so [show] is
    any text that [float] reads back as the number). *)
Definition cell_text (show : float -> string) (c : table_cell) : string :=
  match c with
  | Text s => s
  | Number x => show x
  end.

Definition row_texts (show : float -> string) (row : list table_cell)
  : list string :=
  map (cell_text show) row.

(** [delete_entry(delete_index, current_df)]: the new table.  [parse_int]
    is [int] on the text of the index field, [None] when it raises. *)
Definition delete_entry {X : Type} (parse_int : string -> option Z)
  (delete_index : string) (rows : list (list X)) : list (list X) :=
  match parse_int delete_index with
  | None => rows
  | Some n =>
      let idx := (n - 1)%Z in
      if (idx <? 0)%Z || (Z.of_nat (length rows) <=? idx)%Z
      then rows
      else firstn (Z.to_nat idx) rows ++ skipn (S (Z.to_nat idx)) rows
  end.

(** ** The CSV file

    The file is taken as the list of the rows written to it, the header
    first: [csv.writer] and [csv.reader] carry a list of texts unchanged. *)

Definition csv_header : list string :=
  ["账单日期"; "Reference"; "支出者"; "货币种类"; "金额"; "承担者们"].

(** [consumers] in [save_to_csv]. *)
Definition consumers (row : list string) : list string :=
  if Nat.eqb (length row) 6
  then share_names (split_comma (nth 5 row ""))
  else share_names (skipn 5 row).

(** [out_row]; [None] when the row has fewer than five cells. *)
Definition out_row (row : list string) : option (list string) :=
  if length row <? 5 then None else Some (firstn 5 row ++ consumers row).

(** The loop of [save_to_csv]: the rows written so far, and whether it ran
    to its end. *)
Fixpoint write_rows (rows written : list (list string))
  : list (list string) * bool :=
  match rows with
  | [] => (written, true)
  | row :: rows' =>
      match out_row row with
      | Some o => write_rows rows' (written ++ [o])
      | None => (written, false)
      end
  end.

(** [save_to_csv(rows)]: the content of the file afterwards. *)
Definition save_to_csv (rows : list (list string))
  : list (list string) * bool :=
  write_rows rows [csv_header].

(** What [load_csv_to_entries] makes of one row of the file. *)
Definition load_row (row : list string) : list string :=
  if 6 <? length row
  then firstn 5 row ++ [join_comma (skipn 5 row)]
  else row.

(** [load_csv_to_entries(current_entries)]; [csv_file] is the content of
    the file, [None] when there is no file. *)
Definition load_csv_to_entries (csv_file : option (list (list string)))
  (current_entries : list (list string)) : list (list string) :=
  current_entries
  ++ match csv_file with
     | None => []
     | Some rows => map load_row (tl rows)
     end.

(** [rows_to_save] in [on_submit], and whether the loop ran to its end. *)
Fixpoint kept_rows {num : Type} (parse_float : string -> option num)
  (rows kept : list (list string)) : list (list string) * bool :=
  match rows with
  | [] => (kept, true)
  | row :: rows' =>
      match read_row parse_float row with
      | Skipped => kept_rows parse_float rows' kept
      | Accepted _ => kept_rows parse_float rows' (kept ++ [row])
      | Raised => (kept, false)
      end
  end.

(** The file after [on_submit]: written only when the loop ran to its end
    and kept a row. *)
Definition on_submit_file {num : Type} (parse_float : string -> option num)
  (csv_file : option (list (list string)))
  (current_entries : list (list string)) : option (list (list string)) :=
  match kept_rows parse_float current_entries [] with
  | ((_ :: _) as kept, true) => Some (fst (save_to_csv kept))
  | _ => csv_file
  end.

(** ** More vocabulary *)

(** No comma in the text. *)
Fixpoint comma_free (s : string) : bool :=
  match s with
  | EmptyString => true
  | String c s' => negb (Ascii.eqb c ","%char) && comma_free s'
  end.

(** A name as [on_submit] keeps it: not empty, nothing for [strip] to
    remove. *)
Definition clean (p : string) : Prop := p <> "" /\ strip p = p.

(** A row that [on_submit] accepts with at least one sharer, the names free
    of commas when they stand in cells of their own. *)
Definition reloadable {num : Type} (parse_float : string -> option num)
  (row : list string) : Prop :=
  exists e,
    read_row parse_float row = Accepted e
    /\ share e <> []
    /\ (length row = 6 \/ Forall (fun p => comma_free p = true) (share e)).

(** The row [save_to_csv] writes for a row of five cells or more. *)
Definition written (row : list string) : list string :=
  firstn 5 row ++ consumers row.

(** [drop] removes a non-empty prefix, or nothing. *)
Definition shortens (drop : list nat -> option (list nat)) : Prop :=
  drop [] = None
  /\ forall l l', drop l = Some l' ->
       exists p, l = p ++ l' /\ p <> [].

(** The float is above zero: a positive number or plus infinity. *)
Definition positive (r : spec_float) : bool :=
  match r with
  | S754_infinity false | S754_finite false _ _ => true
  | _ => false
  end.

(** The report when the transfer list is not empty. *)
Definition report_with_transfers {num : Type} {A : Arith num}
  {F : Format num} (people : list string) (reduced : matrix num)
  (txs : list (transaction num)) : string :=
  (html_header people
   ++ String.concat "" (map (html_row reduced people) people)
   ++ "</table>"
   ++ "<h2>转账方案</h2>" ++ "<ul>"
   ++ String.concat "" (map html_transaction txs) ++ "</ul>")%string.

(** ** More sample inputs *)

(** An answer that lists a zero for the yuan. *)
Definition answer_with_zero : dict float :=
  [("EUR", 1.25%float); ("CNY", 0%float)].

(** An answer that lists the yuan and the dollar, not the euro. *)
Definition answer_without_euro : dict float :=
  [("CNY", 8%float); ("USD", 2%float)].


(** ** The real number a float stands for *)

(** [2^e]. *)
Definition pow2 (e : Z) : R := powerRZ 2 e.

(** The mantissa [m] at the exponent [e]: [m * 2^e]. *)
Definition value (m : BinNums.positive) (e : Z) : R :=
  (IZR (Zpos m) * pow2 e)%R.

(** The real number of a finite float (0 for an infinity and for NaN). *)
Definition SF2R (x : spec_float) : R :=
  match x with
  | S754_finite s m e => ((if s then -1 else 1) * (IZR (Zpos m) * pow2 e))%R
  | _ => 0%R
  end.

(** The real number the float [x] stands for. *)
Definition exact (x : float) : R := SF2R (Prim2SF x).

(** Where the real [x] lies with respect to a mantissa that was shifted to
    the exponent [e]: on it, below its half-way point, on the half-way
    point, or above it (the round and sticky bits of the record). *)
Definition located (rs : shr_record) (e : Z) (x : R) : Prop :=
  let m := IZR (shr_m rs) in
  match shr_r rs, shr_s rs with
  | false, false => (x = m * pow2 e)%R
  | false, true => (m * pow2 e < x < (m + / 2) * pow2 e)%R
  | true, false => (x = (m + / 2) * pow2 e)%R
  | true, true => ((m + / 2) * pow2 e < x < (m + 1) * pow2 e)%R
  end.

(** * Proofs *)

(** ** Facts about dictionaries *)

Section DictFacts.

Context {V : Type}.
Implicit Types (d : dict V) (k : string) (v : V).

Lemma lookup_setitem_same d k v : lookup (setitem k v d) k = Some v.
Proof.
  induction d as [|[k' v'] d IH]; simpl.
  - now rewrite String.eqb_refl.
  - destruct (String.eqb_spec k' k) as [->|Hne]; simpl.
    + now rewrite String.eqb_refl.
    + apply String.eqb_neq in Hne. now rewrite Hne.
Qed.

Lemma lookup_setitem_other d k k' v :
  k <> k' -> lookup (setitem k v d) k' = lookup d k'.
Proof.
  intros Hne. induction d as [|[k0 v0] d IH]; simpl.
  - apply String.eqb_neq in Hne. now rewrite Hne.
  - destruct (String.eqb_spec k0 k) as [->|Hne0]; simpl.
    + apply String.eqb_neq in Hne. now rewrite Hne.
    + now rewrite IH.
Qed.

Lemma lookup_setitem d k k' v :
  lookup (setitem k v d) k' = if String.eqb k k' then Some v else lookup d k'.
Proof.
  destruct (String.eqb_spec k k') as [<-|Hne].
  - apply lookup_setitem_same.
  - now apply lookup_setitem_other.
Qed.

Lemma lookup_app d1 d2 k :
  lookup (d1 ++ d2) k =
  match lookup d1 k with Some v => Some v | None => lookup d2 k end.
Proof.
  induction d1 as [|[k' v'] d1 IH]; simpl; [reflexivity|].
  now destruct (String.eqb k' k).
Qed.

Lemma lookup_touch default d k k' :
  lookup (touch default k d) k' =
  match lookup d k' with
  | Some v => Some v
  | None =>
      if String.eqb k k'
      then Some default
      else None
  end.
Proof.
  unfold touch. destruct (lookup d k) eqn:Hk.
  - destruct (lookup d k') eqn:Hk'; [reflexivity|].
    destruct (String.eqb_spec k k') as [->|_]; [congruence|reflexivity].
  - rewrite lookup_app. simpl. now destruct (lookup d k').
Qed.

Lemma get_or_touch default d k k' :
  get_or default (touch default k d) k' = get_or default d k'.
Proof.
  unfold get_or. rewrite lookup_touch.
  destruct (lookup d k'); [reflexivity|].
  now destruct (String.eqb k k').
Qed.

Lemma keys_setitem d k v :
  keys (setitem k v d) = if mem k (keys d) then keys d else keys d ++ [k].
Proof.
  induction d as [|[k' v'] d IH]; simpl; [reflexivity|].
  rewrite (String.eqb_sym k k').
  destruct (String.eqb k' k); simpl; [reflexivity|].
  unfold keys in *. rewrite IH.
  now destruct (mem k (map fst d)).
Qed.

Lemma lookup_none_keys d k : lookup d k = None <-> ~ In k (keys d).
Proof.
  induction d as [|[k' v'] d IH]; simpl.
  - tauto.
  - destruct (String.eqb_spec k' k) as [->|Hne].
    + split; [discriminate|]. intros H. exfalso. apply H. now left.
    + rewrite IH. split.
      * intros H [Heq|Hin]; [now apply Hne|now apply H].
      * intros H Hin. apply H. now right.
Qed.

Lemma lookup_in d k v : lookup d k = Some v -> In (k, v) d.
Proof.
  induction d as [|[k' v'] d IH]; simpl; [discriminate|].
  destruct (String.eqb_spec k' k) as [->|Hne].
  - intros [= ->]. now left.
  - intros H. right. now apply IH.
Qed.

End DictFacts.

Lemma mem_In x l : mem x l = true <-> In x l.
Proof.
  unfold mem. rewrite existsb_exists. split.
  - intros [y [Hy Heq]]. apply String.eqb_eq in Heq. now subst.
  - intros H. exists x. split; [assumption|apply String.eqb_refl].
Qed.

Lemma mem_false x l : mem x l = false <-> ~ In x l.
Proof.
  rewrite <- mem_In. destruct (mem x l); split; congruence.
Qed.

(** ** Facts about matrices *)

Section MatrixFacts.

Context {num : Type} {A : Arith num}.
Implicit Types (m : matrix num) (x v : num).

Lemma cell_of_opt m d c :
  cell m d c = match cell_opt m d c with Some v => v | None => zero end.
Proof.
  unfold cell, cell_opt, get_or. destruct (lookup m d); reflexivity.
Qed.

Lemma lookup_get_or_empty m d c :
  lookup (get_or empty m d) c = cell_opt m d c.
Proof.
  unfold cell_opt, get_or. destruct (lookup m d); reflexivity.
Qed.

Lemma cell_opt_set_cell m d c v d' c' :
  cell_opt (set_cell m d c v) d' c' =
  if String.eqb d d' && String.eqb c c' then Some v else cell_opt m d' c'.
Proof.
  unfold set_cell. unfold cell_opt at 1. rewrite lookup_setitem.
  destruct (String.eqb_spec d d') as [<-|Hne]; simpl; [|reflexivity].
  rewrite lookup_setitem, lookup_get_or_empty. reflexivity.
Qed.

Lemma cell_opt_add_to m d c x d' c' :
  cell_opt (add_to m d c x) d' c' =
  if String.eqb d d' && String.eqb c c'
  then Some (add (cell m d c) x)
  else cell_opt m d' c'.
Proof.
  unfold add_to. fold (cell m d c).
  apply (cell_opt_set_cell m d c (add (cell m d c) x) d' c').
Qed.

Lemma cell_opt_touch m k d c :
  cell_opt (touch empty k m) d c = cell_opt m d c.
Proof.
  unfold cell_opt. rewrite lookup_touch.
  destruct (lookup m d); [reflexivity|].
  now destruct (String.eqb k d).
Qed.

Lemma cell_touch m k d c : cell (touch empty k m) d c = cell m d c.
Proof. now rewrite !cell_of_opt, cell_opt_touch. Qed.

(** A property of all stored (key, value) pairs survives [setitem]. *)
Lemma forallb_setitem {V : Type} (P : string * V -> bool) (d : dict V) k
  (w : V) :
  forallb P d = true -> P (k, w) = true -> forallb P (setitem k w d) = true.
Proof.
  intros Hd Hk. induction d as [|[k' w'] d IH]; simpl in *.
  - now rewrite Hk.
  - apply andb_true_iff in Hd as [H1 H2].
    destruct (String.eqb_spec k' k) as [->|Hne]; simpl.
    + now rewrite Hk, H2.
    + now rewrite H1, IH.
Qed.

Lemma forallb_get_or_empty {W : Type} (P : string -> string * W -> bool)
  (d : dict (dict W)) k :
  forallb (fun row => forallb (P (fst row)) (snd row)) d = true ->
  forallb (P k) (get_or empty d k) = true.
Proof.
  intros H. unfold get_or. destruct (lookup d k) as [row|] eqn:Hrow.
  - apply lookup_in in Hrow. rewrite forallb_forall in H.
    apply (H _ Hrow).
  - reflexivity.
Qed.

Lemma self_edge_free_set_cell m d c v :
  self_edge_free m = true -> d <> c ->
  self_edge_free (set_cell m d c v) = true.
Proof.
  intros Hm Hne. unfold self_edge_free, set_cell.
  apply forallb_setitem; [exact Hm|]. simpl.
  apply forallb_setitem.
  - apply (forallb_get_or_empty
             (fun k (c : string * num) => negb (String.eqb k (fst c)))).
    exact Hm.
  - simpl. apply String.eqb_neq in Hne. now rewrite Hne.
Qed.

Lemma self_edge_free_add_to m d c x :
  self_edge_free m = true -> d <> c ->
  self_edge_free (add_to m d c x) = true.
Proof. apply self_edge_free_set_cell. Qed.

Lemma self_edge_free_touch m k :
  self_edge_free m = true -> self_edge_free (touch empty k m) = true.
Proof.
  intros Hm. unfold touch. destruct (lookup m k); [exact Hm|].
  unfold self_edge_free. rewrite forallb_app. unfold self_edge_free in Hm.
  now rewrite Hm.
Qed.

Lemma self_edge_free_cell m d c :
  self_edge_free m = true -> cell_opt m d c <> None -> d <> c.
Proof.
  unfold self_edge_free. rewrite forallb_forall.
  intros H Hc ->. unfold cell_opt in Hc.
  destruct (lookup m c) as [row|] eqn:Hrow; [|congruence].
  apply lookup_in in Hrow. specialize (H _ Hrow). simpl in H.
  rewrite forallb_forall in H.
  destruct (lookup row c) as [v|] eqn:Hv; [|congruence].
  apply lookup_in in Hv. specialize (H _ Hv). simpl in H.
  now rewrite String.eqb_refl in H.
Qed.

End MatrixFacts.

(** ** The netting loop *)

Section NettingFacts.

Context {num : Type} {A : Arith num}.
Implicit Types (st : net_state num) (nt : matrix num).

Lemma same_cells_cell m nt d c : same_cells m nt -> cell m d c = cell nt d c.
Proof. intros H. now rewrite !cell_of_opt, H. Qed.

Lemma same_cells_touch m nt k :
  same_cells m nt -> same_cells (touch empty k m) nt.
Proof. intros H d c. now rewrite cell_opt_touch. Qed.

(** The amount [net_amt] computed by one step is the net amount of the
    unified matrix. *)
Lemma net_step_amount st nt d c :
  same_cells (net_transfer st) nt ->
  sub (get_or zero (get_or empty (touch empty d (net_transfer st)) d) c)
      (get_or zero
         (get_or empty
            (touch empty c (touch empty d (net_transfer st))) c) d)
  = net_amount nt d c.
Proof.
  intros H. unfold net_amount.
  change (sub (cell (touch empty d (net_transfer st)) d c)
              (cell (touch empty c (touch empty d (net_transfer st))) c d)
          = sub (cell nt d c) (cell nt c d)).
  now rewrite !cell_touch, !(same_cells_cell _ _ _ _ H).
Qed.

Lemma net_step_same_cells st nt d c :
  same_cells (net_transfer st) nt ->
  same_cells (net_transfer (net_step d st c)) nt.
Proof.
  intros H. unfold net_step. destruct (String.eqb d c); [exact H|].
  destruct (gt_eps _); simpl; now do 2 apply same_cells_touch.
Qed.

Lemma net_step_transactions st nt d c :
  same_cells (net_transfer st) nt ->
  transactions (net_step d st c) = transactions st ++ pair_transfers nt d c.
Proof.
  intros H. unfold net_step, pair_transfers.
  destruct (String.eqb d c); [now rewrite app_nil_r|].
  rewrite (net_step_amount st nt d c H).
  destruct (gt_eps (net_amount nt d c)); simpl;
    [reflexivity|now rewrite app_nil_r].
Qed.

Lemma net_step_reduced st nt d c i j :
  same_cells (net_transfer st) nt ->
  cell_opt (reduced_matrix (net_step d st c)) i j =
  if String.eqb d i && String.eqb c j && negb (String.eqb d c)
  then Some (dense_value nt d c)
  else cell_opt (reduced_matrix st) i j.
Proof.
  intros H. unfold net_step, dense_value.
  destruct (String.eqb d c) eqn:Hdc.
  - now rewrite andb_false_r.
  - rewrite (net_step_amount st nt d c H), andb_true_r.
    destruct (gt_eps (net_amount nt d c)); simpl;
      apply cell_opt_set_cell.
Qed.

(** One row of the double loop. *)
Lemma net_row_spec nt d l : forall st,
  same_cells (net_transfer st) nt ->
  same_cells (net_transfer (net_row l st d)) nt
  /\ transactions (net_row l st d)
     = transactions st ++ flat_map (pair_transfers nt d) l
  /\ forall i j,
       cell_opt (reduced_matrix (net_row l st d)) i j =
       if String.eqb d i && mem j l && negb (String.eqb i j)
       then Some (dense_value nt i j)
       else cell_opt (reduced_matrix st) i j.
Proof.
  unfold net_row.
  induction l as [|c l IH]; intros st H; simpl.
  - split; [exact H|]. split; [now rewrite app_nil_r|].
    intros i j. now rewrite andb_false_r.
  - destruct (IH (net_step d st c) (net_step_same_cells st nt d c H))
      as (H1 & H2 & H3).
    split; [exact H1|]. split.
    + rewrite H2, (net_step_transactions st nt d c H). now rewrite app_assoc.
    + intros i j. rewrite H3, (net_step_reduced st nt d c i j H).
      destruct (String.eqb_spec d i) as [<-|Hdi]; simpl; [|reflexivity].
      destruct (String.eqb_spec j c) as [->|Hjc]; simpl.
      * rewrite String.eqb_refl. simpl.
        destruct (mem c l); simpl; destruct (String.eqb d c); reflexivity.
      * destruct (String.eqb_spec c j) as [->|_]; [congruence|].
        reflexivity.
Qed.

(** The rows for the debtors [l], over the columns [people]. *)
Lemma net_rows_spec nt people l : forall st,
  same_cells (net_transfer st) nt ->
  let st' := fold_left (net_row people) l st in
  same_cells (net_transfer st') nt
  /\ transactions st'
     = transactions st
       ++ flat_map (fun i => flat_map (pair_transfers nt i) people) l
  /\ forall i j,
       cell_opt (reduced_matrix st') i j =
       if mem i l && mem j people && negb (String.eqb i j)
       then Some (dense_value nt i j)
       else cell_opt (reduced_matrix st) i j.
Proof.
  induction l as [|d l IH]; intros st H; cbn [fold_left flat_map].
  - split; [exact H|]. split; [now rewrite app_nil_r|]. reflexivity.
  - destruct (net_row_spec nt d people st H) as (R1 & R2 & R3).
    destruct (IH (net_row people st d) R1) as (H1 & H2 & H3).
    split; [exact H1|]. split.
    + rewrite H2, R2. now rewrite app_assoc.
    + intros i j. rewrite H3, R3.
      change (mem i (d :: l)) with (String.eqb i d || mem i l).
      rewrite (String.eqb_sym i d).
      destruct (String.eqb d i); simpl; [|reflexivity].
      destruct (mem i l); simpl; [|reflexivity].
      destruct (mem j people && negb (String.eqb i j)); reflexivity.
Qed.

Lemma net_spec nt people :
  same_cells (net_transfer (net nt people)) nt
  /\ transactions (net nt people) = net_transfers nt people
  /\ forall i j,
       cell_opt (reduced_matrix (net nt people)) i j =
       if mem i people && mem j people && negb (String.eqb i j)
       then Some (dense_value nt i j)
       else None.
Proof.
  unfold net.
  destruct (net_rows_spec nt people people (mkNet nt [] []))
    as (H1 & H2 & H3).
  - intros d c. reflexivity.
  - split; [exact H1|]. split; [exact H2|]. exact H3.
Qed.

End NettingFacts.

(** ** The order of names *)

Section SortFacts.

Lemma compare_lt_trans a b c :
  String.compare a b = Lt -> String.compare b c = Lt ->
  String.compare a c = Lt.
Proof.
  intros H1 H2.
  apply OrderedTypeEx.String_as_OT.cmp_lt in H1, H2.
  apply OrderedTypeEx.String_as_OT.cmp_lt.
  exact (OrderedTypeEx.String_as_OT.lt_trans _ _ _ H1 H2).
Qed.

Lemma leb_trans a b c : str_le a b -> str_le b c -> str_le a c.
Proof.
  unfold str_le, String.leb. intros H1 H2.
  destruct (String.compare a b) eqn:Eab; try discriminate;
    destruct (String.compare b c) eqn:Ebc; try discriminate.
  - apply String.compare_eq_iff in Eab. subst. now rewrite Ebc.
  - apply String.compare_eq_iff in Eab. subst. now rewrite Ebc.
  - apply String.compare_eq_iff in Ebc. subst. now rewrite Eab.
  - now rewrite (compare_lt_trans a b c Eab Ebc).
Qed.

Lemma leb_false_le a b : String.leb a b = false -> str_le b a.
Proof.
  intros H. destruct (String.leb_total a b) as [H'|H']; [congruence|exact H'].
Qed.

Lemma le_neq_lt a b : str_le a b -> a <> b -> str_lt a b.
Proof.
  unfold str_le, str_lt, String.leb, String.ltb. intros H Hne.
  destruct (String.compare a b) eqn:E; try discriminate; [|reflexivity].
  apply String.compare_eq_iff in E. contradiction.
Qed.

Lemma insert_sorted_perm x l : Permutation (insert_sorted x l) (x :: l).
Proof.
  induction l as [|y l IH]; simpl; [reflexivity|].
  destruct (String.leb x y); [reflexivity|].
  rewrite IH. apply perm_swap.
Qed.

Lemma sorted_perm l : Permutation (sorted l) l.
Proof.
  induction l as [|x l IH]; simpl; [reflexivity|].
  rewrite insert_sorted_perm. now rewrite IH.
Qed.

Lemma insert_sorted_swap x y l :
  insert_sorted x (insert_sorted y l) = insert_sorted y (insert_sorted x l).
Proof.
  induction l as [|z l IH]; simpl.
  - destruct (String.leb x y) eqn:Exy, (String.leb y x) eqn:Eyx;
      try reflexivity.
    + now rewrite (String.leb_antisym _ _ Exy Eyx).
    + apply leb_false_le in Exy. unfold str_le in Exy. congruence.
  - destruct (String.leb y z) eqn:Eyz, (String.leb x z) eqn:Exz; simpl.
    + destruct (String.leb x y) eqn:Exy, (String.leb y x) eqn:Eyx;
        rewrite ?Eyz, ?Exz; try reflexivity.
      * now rewrite (String.leb_antisym _ _ Exy Eyx).
      * apply leb_false_le in Exy. unfold str_le in Exy. congruence.
    + rewrite Eyz.
      assert (Hxy : String.leb x y = false).
      { destruct (String.leb x y) eqn:Exy; [|reflexivity].
        pose proof (leb_trans x y z Exy Eyz) as Hxz.
        unfold str_le in Hxz. congruence. }
      now rewrite Hxy, Exz.
    + rewrite Exz.
      assert (Hyx : String.leb y x = false).
      { destruct (String.leb y x) eqn:Eyx; [|reflexivity].
        pose proof (leb_trans y x z Eyx Exz) as Hyz.
        unfold str_le in Hyz. congruence. }
      now rewrite Hyx, Eyz.
    + now rewrite Exz, Eyz, IH.
Qed.

(** [sorted] does not depend on the order in which it reads its argument. *)
Lemma sorted_permutation l l' : Permutation l l' -> sorted l = sorted l'.
Proof.
  induction 1 as [|x l l' _ IH|x y l|l l' l'' _ IH1 _ IH2]; simpl.
  - reflexivity.
  - now rewrite IH.
  - apply insert_sorted_swap.
  - now rewrite IH1.
Qed.

Lemma insert_sorted_sorted x l :
  StronglySorted str_le l -> StronglySorted str_le (insert_sorted x l).
Proof.
  induction 1 as [|y l Hl IH Hy]; simpl.
  - constructor; constructor.
  - destruct (String.leb x y) eqn:E.
    + constructor; [now constructor|]. constructor; [exact E|].
      rewrite Forall_forall in *. intros z Hz.
      exact (leb_trans x y z E (Hy z Hz)).
    + constructor; [exact IH|].
      apply leb_false_le in E.
      rewrite Forall_forall in *. intros z Hz.
      apply (Permutation_in _ (insert_sorted_perm x l)) in Hz.
      destruct Hz as [<-|Hz]; [exact E|now apply Hy].
Qed.

Lemma sorted_sorted l : StronglySorted str_le (sorted l).
Proof.
  induction l as [|x l IH]; simpl; [constructor|].
  now apply insert_sorted_sorted.
Qed.

Lemma strongly_sorted_strict l :
  NoDup l -> StronglySorted str_le l -> StronglySorted str_lt l.
Proof.
  intros Hnd Hs. induction Hs as [|x l Hl IH Hx]; [constructor|].
  inversion Hnd as [|? ? Hnotin Hnd']; subst.
  constructor; [now apply IH|].
  rewrite Forall_forall in *. intros z Hz.
  apply le_neq_lt; [now apply Hx|]. intros ->. contradiction.
Qed.

Lemma sorted_strict l : NoDup l -> StronglySorted str_lt (sorted l).
Proof.
  intros Hnd. apply strongly_sorted_strict; [|apply sorted_sorted].
  apply (Permutation_NoDup (Permutation_sym (sorted_perm l)) Hnd).
Qed.

End SortFacts.

(** ** The set of people *)

Section PeopleFacts.

Context {num : Type} {A : Arith num}.

Lemma add_all_In l : forall s x, In x (add_all l s) <-> In x s \/ In x l.
Proof.
  unfold add_all.
  induction l as [|y l IH]; intros s x; simpl; [tauto|].
  rewrite IH, set_add_iff. intuition congruence.
Qed.

Lemma add_all_NoDup l : forall s, NoDup s -> NoDup (add_all l s).
Proof.
  unfold add_all.
  induction l as [|y l IH]; intros s H; simpl; [exact H|].
  apply IH. now apply set_add_nodup.
Qed.

Lemma share_fold_people (e : entry num) l : forall st,
  all_people (fold_left (share_step e) l st) = add_all l (all_people st).
Proof.
  unfold add_all.
  induction l as [|p l IH]; intros st; simpl; [reflexivity|].
  rewrite IH. unfold share_step.
  now destruct (String.eqb p (payer e)).
Qed.

Lemma entry_step_people st (e : entry num) :
  all_people (entry_step st e) = add_all (share e) (all_people st).
Proof.
  unfold entry_step. destruct (share e) as [|p l] eqn:E; [reflexivity|].
  cbn [length Nat.eqb]. apply share_fold_people.
Qed.

Lemma fold_entries_people (es : list (entry num)) : forall st x,
  In x (all_people (fold_left entry_step es st)) <->
  In x (all_people st) \/ exists e, In e es /\ In x (share e).
Proof.
  induction es as [|e es IH]; intros st x; simpl.
  - split; [tauto|]. intros [H|[e [[] _]]]. exact H.
  - rewrite IH, entry_step_people, add_all_In. split.
    + intros [[H|H]|[e' [H1 H2]]].
      * now left.
      * right. exists e. tauto.
      * right. exists e'. tauto.
    + intros [H|[e' [[<-|H1] H2]]].
      * tauto.
      * tauto.
      * right. exists e'. tauto.
Qed.

Lemma fold_entries_NoDup (es : list (entry num)) : forall st,
  NoDup (all_people st) -> NoDup (all_people (fold_left entry_step es st)).
Proof.
  induction es as [|e es IH]; intros st H; simpl; [exact H|].
  apply IH. rewrite entry_step_people. now apply add_all_NoDup.
Qed.

Lemma aggregate_people participants (entries : list (entry num)) x :
  In x (all_people (aggregate participants entries)) <->
  In x participants \/ exists e, In e entries /\ In x (share e).
Proof.
  unfold aggregate. rewrite fold_entries_people. simpl.
  unfold set_of. fold (add_all participants []). rewrite add_all_In.
  simpl. tauto.
Qed.

Lemma aggregate_NoDup participants (entries : list (entry num)) :
  NoDup (all_people (aggregate participants entries)).
Proof.
  unfold aggregate. apply fold_entries_NoDup. simpl.
  unfold set_of. fold (add_all participants []).
  apply add_all_NoDup. constructor.
Qed.

End PeopleFacts.

(** ** The aggregation loop *)

Section AggregateFacts.

Context {num : Type} {A : Arith num}.
Implicit Types (T : dict (matrix num)) (m : matrix num) (e : entry num).

Lemma cell3_of_opt T c d q :
  cell3 T c d q =
  match cell3_opt T c d q with Some v => v | None => zero end.
Proof.
  unfold cell3, cell3_opt. rewrite cell_of_opt. unfold get_or.
  destruct (lookup T c); reflexivity.
Qed.

Lemma cell3_opt_add_transfer T c p q x c' d' q' :
  cell3_opt (add_transfer T c p q x) c' d' q' =
  if String.eqb c c' && (String.eqb p d' && String.eqb q q')
  then Some (add (cell3 T c p q) x)
  else cell3_opt T c' d' q'.
Proof.
  unfold add_transfer, cell3_opt at 1. rewrite lookup_setitem.
  destruct (String.eqb_spec c c') as [<-|Hne]; simpl; [|reflexivity].
  rewrite cell_opt_add_to. fold (cell3 T c p q).
  destruct (String.eqb p d' && String.eqb q q'); [reflexivity|].
  unfold cell3_opt, get_or. destruct (lookup T c); reflexivity.
Qed.

Lemma cell3_add_transfer T c p q x c' d' q' :
  cell3 (add_transfer T c p q x) c' d' q' =
  if String.eqb c c' && (String.eqb p d' && String.eqb q q')
  then add (cell3 T c p q) x
  else cell3 T c' d' q'.
Proof.
  rewrite !cell3_of_opt, cell3_opt_add_transfer, <- cell3_of_opt.
  destruct (String.eqb c c' && (String.eqb p d' && String.eqb q q'));
    reflexivity.
Qed.

(** The loop over the sharers of one entry, cell by cell. *)
Lemma share_fold_cell e c d q l : forall st,
  cell3 (transfer (fold_left (share_step e) l st)) c d q =
  if String.eqb (currency e) c && String.eqb (payer e) q
     && negb (String.eqb d (payer e))
  then add_times (count_occ string_dec l d) (share_amt e)
         (cell3 (transfer st) c d q)
  else cell3 (transfer st) c d q.
Proof.
  induction l as [|p l IH]; intros st.
  - simpl. destruct (_ && _ && _); reflexivity.
  - cbn [fold_left count_occ]. rewrite IH. clear IH.
    unfold share_step.
    destruct (String.eqb_spec p (payer e)) as [Hp|Hp]; cbn [transfer].
    + destruct (string_dec p d) as [<-|Hpd]; [|reflexivity].
      subst p. rewrite String.eqb_refl, andb_false_r. reflexivity.
    + rewrite cell3_add_transfer.
      destruct (String.eqb_spec (currency e) c) as [<-|Hc]; simpl;
        [|reflexivity].
      destruct (String.eqb_spec (payer e) q) as [<-|Hq]; simpl.
      * destruct (string_dec p d) as [<-|Hpd].
        -- rewrite String.eqb_refl.
           apply String.eqb_neq in Hp. rewrite Hp. reflexivity.
        -- apply String.eqb_neq in Hpd. rewrite Hpd. reflexivity.
      * rewrite andb_false_r. reflexivity.
Qed.

Lemma entry_step_cell st e c d q :
  cell3 (transfer (entry_step st e)) c d q =
  if String.eqb (currency e) c && String.eqb (payer e) q
     && negb (String.eqb d (payer e))
  then add_times (count_occ string_dec (share e) d) (share_amt e)
         (cell3 (transfer st) c d q)
  else cell3 (transfer st) c d q.
Proof.
  unfold entry_step. destruct (share e) as [|p l] eqn:E.
  - simpl. destruct (_ && _ && _); reflexivity.
  - cbn [length Nat.eqb]. rewrite <- E. apply share_fold_cell.
Qed.

Lemma entry_step_empty st e : share e = [] -> entry_step st e = st.
Proof. intros H. unfold entry_step. now rewrite H. Qed.

Lemma aggregate_snoc participants (es : list (entry num)) e :
  aggregate participants (es ++ [e])
  = entry_step (aggregate participants es) e.
Proof. unfold aggregate. now rewrite fold_left_app. Qed.

Lemma aggregate_skip participants (es1 es2 : list (entry num)) e :
  share e = [] ->
  aggregate participants (es1 ++ e :: es2)
  = aggregate participants (es1 ++ es2).
Proof.
  intros H. unfold aggregate. rewrite !fold_left_app. simpl.
  now rewrite entry_step_empty.
Qed.

End AggregateFacts.

(** ** Invariants of the matrices *)

Section InvariantFacts.

Context {num : Type} {A : Arith num}.
Implicit Types (T : dict (matrix num)) (m nt : matrix num) (e : entry num).

Lemma mem_app x l1 l2 : mem x (l1 ++ l2) = mem x l1 || mem x l2.
Proof. apply existsb_app. Qed.

Lemma mem_keys_setitem {V : Type} (d : dict V) k k' (w : V) :
  mem k' (keys (setitem k w d)) = mem k' (keys d) || String.eqb k' k.
Proof.
  rewrite keys_setitem. destruct (mem k (keys d)) eqn:E.
  - destruct (String.eqb_spec k' k) as [->|_];
      [now rewrite E|now rewrite orb_false_r].
  - rewrite mem_app. simpl. now rewrite orb_false_r.
Qed.

Lemma unique_keys_setitem {V : Type} (d : dict V) k (w : V) :
  unique_keys d = true -> unique_keys (setitem k w d) = true.
Proof.
  induction d as [|[k0 w0] d IH]; simpl; [reflexivity|].
  intros H. apply andb_true_iff in H as [H1 H2].
  destruct (String.eqb k0 k) eqn:E; simpl.
  - now rewrite H1, H2.
  - rewrite mem_keys_setitem, E, orb_false_r, H1. simpl. now apply IH.
Qed.

Lemma well_formed_set_cell m d c (v : num) :
  well_formed m = true -> well_formed (set_cell m d c v) = true.
Proof.
  unfold well_formed, set_cell. intros H.
  apply andb_true_iff in H as [H1 H2]. apply andb_true_iff. split.
  - now apply unique_keys_setitem.
  - apply forallb_setitem; [exact H2|]. simpl.
    apply unique_keys_setitem.
    unfold get_or. destruct (lookup m d) as [row|] eqn:Hrow; [|reflexivity].
    apply lookup_in in Hrow. rewrite forallb_forall in H2.
    apply (H2 _ Hrow).
Qed.

Lemma all_get_or_empty (P : matrix num -> bool) T c :
  P empty = true ->
  forallb (fun cm => P (snd cm)) T = true ->
  P (get_or (empty : matrix num) T c) = true.
Proof.
  intros H0 H. unfold get_or. destruct (lookup T c) as [m|] eqn:Hm.
  - apply lookup_in in Hm. rewrite forallb_forall in H. apply (H _ Hm).
  - exact H0.
Qed.

Lemma all_well_formed_add_transfer T c p q (x : num) :
  all_well_formed T = true ->
  all_well_formed (add_transfer T c p q x) = true.
Proof.
  intros H. unfold all_well_formed, add_transfer.
  apply forallb_setitem; [exact H|]. simpl.
  apply well_formed_set_cell.
  now apply (all_get_or_empty well_formed).
Qed.

Lemma all_self_edge_free_add_transfer T c p q (x : num) :
  p <> q ->
  all_self_edge_free T = true ->
  all_self_edge_free (add_transfer T c p q x) = true.
Proof.
  intros Hne H. unfold all_self_edge_free, add_transfer.
  apply forallb_setitem; [exact H|]. simpl.
  apply self_edge_free_add_to; [|exact Hne].
  now apply (all_get_or_empty self_edge_free).
Qed.

Lemma share_fold_invariants e l : forall st,
  all_well_formed (transfer st) = true ->
  all_self_edge_free (transfer st) = true ->
  all_well_formed (transfer (fold_left (share_step e) l st)) = true
  /\ all_self_edge_free (transfer (fold_left (share_step e) l st)) = true.
Proof.
  induction l as [|p l IH]; intros st H1 H2; simpl; [now split|].
  apply IH; unfold share_step;
    destruct (String.eqb_spec p (payer e)) as [Hp|Hp]; simpl;
    try assumption.
  - now apply all_well_formed_add_transfer.
  - now apply all_self_edge_free_add_transfer.
Qed.

Lemma entry_step_invariants st e :
  all_well_formed (transfer st) = true ->
  all_self_edge_free (transfer st) = true ->
  all_well_formed (transfer (entry_step st e)) = true
  /\ all_self_edge_free (transfer (entry_step st e)) = true.
Proof.
  intros H1 H2. unfold entry_step.
  destruct (Nat.eqb (length (share e)) 0); [now split|].
  now apply share_fold_invariants.
Qed.

Lemma fold_entries_invariants (es : list (entry num)) : forall st,
  all_well_formed (transfer st) = true ->
  all_self_edge_free (transfer st) = true ->
  all_well_formed (transfer (fold_left entry_step es st)) = true
  /\ all_self_edge_free (transfer (fold_left entry_step es st)) = true.
Proof.
  induction es as [|e es IH]; intros st H1 H2; simpl; [now split|].
  destruct (entry_step_invariants st e H1 H2) as [H3 H4].
  now apply IH.
Qed.

Lemma aggregate_invariants participants (es : list (entry num)) :
  all_well_formed (transfer (aggregate participants es)) = true
  /\ all_self_edge_free (transfer (aggregate participants es)) = true.
Proof. unfold aggregate. now apply fold_entries_invariants. Qed.

(** Conversion keeps the unified matrix free of self-edges. *)
Lemma convert_row_self_edge_free rate d (row : dict num) : forall nt,
  forallb (fun c : string * num => negb (String.eqb d (fst c))) row = true ->
  self_edge_free nt = true ->
  self_edge_free (convert_row rate d nt row) = true.
Proof.
  unfold convert_row.
  induction row as [|[c a] row IH]; intros nt Hrow Hnt; simpl;
    [exact Hnt|].
  simpl in Hrow. apply andb_true_iff in Hrow as [Hc Hrow].
  apply IH; [exact Hrow|].
  apply self_edge_free_add_to; [exact Hnt|].
  apply String.eqb_neq. now destruct (String.eqb d c).
Qed.

Lemma convert_matrix_self_edge_free rate m : forall nt,
  self_edge_free m = true ->
  self_edge_free nt = true ->
  self_edge_free (convert_matrix rate nt m) = true.
Proof.
  unfold convert_matrix.
  induction m as [|[d row] m IH]; intros nt Hm Hnt; simpl; [exact Hnt|].
  unfold self_edge_free in Hm. simpl in Hm.
  apply andb_true_iff in Hm as [Hrow Hm].
  apply IH; [exact Hm|].
  now apply convert_row_self_edge_free.
Qed.

Lemma normalize_fold_self_edge_free rates T : forall nt,
  all_self_edge_free T = true ->
  self_edge_free nt = true ->
  self_edge_free
    (fold_left
       (fun nt (cm : string * matrix num) =>
          convert_matrix (rate_of rates (fst cm)) nt (snd cm))
       T nt) = true.
Proof.
  induction T as [|[c m] T IH]; intros nt HT Hnt; simpl; [exact Hnt|].
  unfold all_self_edge_free in HT. simpl in HT.
  apply andb_true_iff in HT as [Hm HT].
  apply IH; [exact HT|].
  now apply convert_matrix_self_edge_free.
Qed.

Lemma normalize_self_edge_free rates T :
  all_self_edge_free T = true -> self_edge_free (normalize rates T) = true.
Proof.
  intros H. unfold normalize. now apply normalize_fold_self_edge_free.
Qed.

(** The netting loop keeps both of its matrices free of self-edges. *)
Lemma net_step_self_edge_free d (st : net_state num) c :
  self_edge_free (net_transfer st) = true ->
  self_edge_free (reduced_matrix st) = true ->
  self_edge_free (net_transfer (net_step d st c)) = true
  /\ self_edge_free (reduced_matrix (net_step d st c)) = true.
Proof.
  intros H1 H2. unfold net_step.
  destruct (String.eqb_spec d c) as [_|Hne]; [now split|].
  destruct (gt_eps _); simpl; split;
    try (now do 2 apply self_edge_free_touch);
    now apply self_edge_free_set_cell.
Qed.

Lemma net_row_self_edge_free d l : forall (st : net_state num),
  self_edge_free (net_transfer st) = true ->
  self_edge_free (reduced_matrix st) = true ->
  self_edge_free (net_transfer (net_row l st d)) = true
  /\ self_edge_free (reduced_matrix (net_row l st d)) = true.
Proof.
  unfold net_row.
  induction l as [|c l IH]; intros st H1 H2; simpl; [now split|].
  destruct (net_step_self_edge_free d st c H1 H2) as [H3 H4].
  now apply IH.
Qed.

Lemma net_rows_self_edge_free people l : forall (st : net_state num),
  self_edge_free (net_transfer st) = true ->
  self_edge_free (reduced_matrix st) = true ->
  self_edge_free (net_transfer (fold_left (net_row people) l st)) = true
  /\ self_edge_free (reduced_matrix (fold_left (net_row people) l st))
     = true.
Proof.
  induction l as [|d l IH]; intros st H1 H2; simpl; [now split|].
  destruct (net_row_self_edge_free d people st H1 H2) as [H3 H4].
  now apply IH.
Qed.

End InvariantFacts.

(** ** The conversion loop *)

Section NormalizeFacts.

Context {num : Type} {A : Arith num}.
Implicit Types (T : dict (matrix num)) (m nt : matrix num).

Lemma unique_keys_lookup {V : Type} (d : dict V) k (w : V) :
  unique_keys ((k, w) :: d) = true -> lookup d k = None.
Proof.
  simpl. intros H. apply andb_true_iff in H as [H _].
  apply lookup_none_keys. apply mem_false.
  now destruct (mem k (keys d)).
Qed.

Lemma cell_add_to nt d c (x : num) d' c' :
  cell (add_to nt d c x) d' c' =
  if String.eqb d d' && String.eqb c c'
  then add (cell nt d c) x
  else cell nt d' c'.
Proof.
  rewrite !cell_of_opt, cell_opt_add_to, <- cell_of_opt.
  destruct (String.eqb d d' && String.eqb c c'); reflexivity.
Qed.

Lemma cell_opt_cons_same d (row : dict num) m q :
  cell_opt ((d, row) :: m) d q = lookup row q.
Proof. unfold cell_opt. simpl. now rewrite String.eqb_refl. Qed.

Lemma cell_opt_cons_other d d' (row : dict num) m q :
  d <> d' -> cell_opt ((d, row) :: m) d' q = cell_opt m d' q.
Proof.
  intros H. unfold cell_opt. simpl.
  apply String.eqb_neq in H. now rewrite H.
Qed.

Lemma cell_opt_lookup_none m d q :
  lookup m d = None -> cell_opt m d q = None.
Proof. intros H. unfold cell_opt. now rewrite H. Qed.

(** One row of one currency matrix. *)
Lemma convert_row_cell rate debtor (row : dict num) d q : forall nt,
  unique_keys row = true ->
  cell_opt (convert_row rate debtor nt row) d q =
  if String.eqb debtor d
  then match lookup row q with
       | Some amt => Some (add (cell nt d q) (mul amt rate))
       | None => cell_opt nt d q
       end
  else cell_opt nt d q.
Proof.
  unfold convert_row.
  induction row as [|[c a] row IH]; intros nt Hu.
  - simpl. now destruct (String.eqb debtor d).
  - pose proof (unique_keys_lookup row c a Hu) as Hc.
    simpl in Hu. apply andb_true_iff in Hu as [_ Hu].
    cbn [fold_left fst snd lookup]. rewrite (IH _ Hu). clear IH.
    rewrite cell_add_to, cell_opt_add_to.
    destruct (String.eqb_spec debtor d) as [<-|Hd]; simpl; [|reflexivity].
    destruct (String.eqb_spec c q) as [<-|Hq].
    + now rewrite Hc.
    + reflexivity.
Qed.

(** One currency matrix. *)
Lemma convert_matrix_cell rate m d q : forall nt,
  well_formed m = true ->
  cell_opt (convert_matrix rate nt m) d q =
  match cell_opt m d q with
  | Some amt => Some (add (cell nt d q) (mul amt rate))
  | None => cell_opt nt d q
  end.
Proof.
  unfold convert_matrix.
  induction m as [|[debtor row] m IH]; intros nt Hw; [reflexivity|].
  unfold well_formed in Hw. apply andb_true_iff in Hw as [Hu Hrows].
  pose proof (unique_keys_lookup m debtor row Hu) as Hd.
  simpl in Hu, Hrows.
  apply andb_true_iff in Hu as [_ Hu].
  apply andb_true_iff in Hrows as [Hrow Hrows].
  assert (Hw : well_formed m = true)
    by (unfold well_formed; now rewrite Hu, Hrows).
  cbn [fold_left fst snd]. rewrite (IH _ Hw). clear IH.
  rewrite (cell_of_opt (convert_row rate debtor nt row)).
  rewrite !(convert_row_cell rate debtor row d q nt Hrow).
  destruct (String.eqb_spec debtor d) as [<-|Hne].
  - rewrite cell_opt_cons_same, (cell_opt_lookup_none m debtor q Hd).
    reflexivity.
  - rewrite (cell_opt_cons_other debtor d row m q Hne), <- cell_of_opt.
    reflexivity.
Qed.

Lemma converted_cons rates c m T d q (x : num) :
  converted rates ((c, m) :: T) d q x =
  converted rates T d q
    match cell_opt m d q with
    | Some amt => add x (mul amt (rate_of rates c))
    | None => x
    end.
Proof. reflexivity. Qed.

Lemma owed_somewhere_cons (c : string) m T d q :
  owed_somewhere ((c, m) :: T) d q =
  is_some (cell_opt m d q) || owed_somewhere T d q.
Proof. reflexivity. Qed.

Lemma converted_none rates T d q (x : num) :
  owed_somewhere T d q = false -> converted rates T d q x = x.
Proof.
  unfold owed_somewhere, converted. revert x.
  induction T as [|[c m] T IH]; intros x H; simpl in *; [reflexivity|].
  apply orb_false_iff in H as [H1 H2].
  destruct (cell_opt m d q); [discriminate|]. now apply IH.
Qed.

(** All currency matrices, starting from the unified matrix [nt]. *)
Lemma normalize_fold_cell rates T d q : forall nt,
  all_well_formed T = true ->
  let nt' :=
    fold_left
      (fun nt (cm : string * matrix num) =>
         convert_matrix (rate_of rates (fst cm)) nt (snd cm))
      T nt in
  cell_opt nt' d q =
  if owed_somewhere T d q
  then Some (converted rates T d q (cell nt d q))
  else cell_opt nt d q.
Proof.
  induction T as [|[c m] T IH]; intros nt Hw; [reflexivity|].
  unfold all_well_formed in Hw. simpl in Hw.
  apply andb_true_iff in Hw as [Hm Hw].
  cbn [fold_left fst snd]. cbv zeta in IH. rewrite (IH _ Hw). clear IH.
  rewrite converted_cons, owed_somewhere_cons.
  rewrite cell_of_opt, (convert_matrix_cell _ m d q nt Hm).
  destruct (cell_opt m d q) as [amt|] eqn:E; simpl.
  - destruct (owed_somewhere T d q) eqn:ET; [reflexivity|].
    now rewrite converted_none.
  - rewrite <- cell_of_opt. reflexivity.
Qed.

Lemma normalize_cell rates T d q :
  all_well_formed T = true ->
  cell_opt (normalize rates T) d q =
  if owed_somewhere T d q
  then Some (converted rates T d q zero)
  else None.
Proof.
  intros Hw. unfold normalize.
  apply (normalize_fold_cell rates T d q [] Hw).
Qed.

(** The conversion reads the rate table through [rate_of] only. *)
Lemma normalize_ext rates rates' T :
  (forall c, rate_of rates c = rate_of rates' c) ->
  normalize rates T = normalize rates' T.
Proof.
  intros H. unfold normalize. generalize (@nil (string * dict num)).
  induction T as [|[c m] T IH]; intros nt; simpl; [reflexivity|].
  now rewrite H, IH.
Qed.

End NormalizeFacts.

(** ** The transfer list *)

Section TransferFacts.

Context {num : Type} {A : Arith num}.
Implicit Types (m : matrix num) (t : transaction num).

Lemma pair_transfers_In m i j t :
  In t (pair_transfers m i j) <->
  i <> j /\ gt_eps (net_amount m i j) = true /\ t = (i, j, net_amount m i j).
Proof.
  unfold pair_transfers.
  destruct (String.eqb_spec i j) as [->|Hne].
  - simpl. intuition congruence.
  - destruct (gt_eps (net_amount m i j)) eqn:E; simpl.
    + intuition congruence.
    + intuition congruence.
Qed.

Lemma net_transfers_In m people t :
  In t (net_transfers m people) <->
  exists i j,
    In i people /\ In j people /\ i <> j
    /\ gt_eps (net_amount m i j) = true
    /\ t = (i, j, net_amount m i j).
Proof.
  unfold net_transfers. rewrite in_flat_map. split.
  - intros [i [Hi Ht]]. apply in_flat_map in Ht as [j [Hj Ht]].
    apply pair_transfers_In in Ht as (Hne & Hgt & ->).
    exists i, j. tauto.
  - intros (i & j & Hi & Hj & Hne & Hgt & ->).
    exists i. split; [exact Hi|]. apply in_flat_map.
    exists j. split; [exact Hj|]. apply pair_transfers_In. tauto.
Qed.

Lemma settle_people_list enumerate rates participants
  (entries : list (entry num)) {F : Format num} :
  (forall s, Permutation (enumerate s) s) ->
  people_list (settle_with enumerate rates participants entries)
  = sorted (all_people (aggregate participants entries)).
Proof.
  intros H. unfold settle_with. cbn [people_list].
  apply sorted_permutation, H.
Qed.

(** The participant order, the transfer list and the dense matrix of a
    run. *)
Lemma netting_people_facts rates participants (entries : list (entry num))
  {F : Format num} :
  let r := settle rates participants entries in
  (forall p, In p (people_list r) <->
             In p participants \/ exists e, In e entries /\ In p (share e))
  /\ transactions (netted r) = net_transfers (unified r) (people_list r)
  /\ forall i j,
       cell_opt (reduced_matrix (netted r)) i j =
       if mem i (people_list r) && mem j (people_list r)
          && negb (String.eqb i j)
       then Some (dense_value (unified r) i j)
       else None.
Proof.
  intros r.
  destruct (net_spec (unified r) (people_list r)) as (_ & Htx & Hcells).
  split; [|split; [exact Htx|exact Hcells]].
  intros p.
  change (people_list r)
    with (sorted (all_people (aggregate participants entries))).
  rewrite <- aggregate_people. split; intros H.
  - exact (Permutation_in _ (sorted_perm _) H).
  - exact (Permutation_in _ (Permutation_sym (sorted_perm _)) H).
Qed.

End TransferFacts.

(** ** Rounding in binary64

    What [SpecFloat] says of a sum and of a quotient of two positive finite
    floats: the result is the exact result rounded, within 2^-53 of it in
    relative terms, as long as it neither overflows nor falls among the
    subnormal numbers. *)

Section Rounding.

Local Open Scope R_scope.

(** *** Powers of two *)

Lemma pow2R_pos e : 0 < pow2 e.
Proof. apply powerRZ_lt. lra. Qed.

Lemma pow2R_add a b : pow2 (a + b) = pow2 a * pow2 b.
Proof. apply powerRZ_add. lra. Qed.

Lemma pow2R_0 : pow2 0 = 1.
Proof. reflexivity. Qed.

Lemma pow2R_1 : pow2 1 = 2.
Proof. unfold pow2. simpl. lra. Qed.

Lemma pow2R_succ e : pow2 (e + 1) = 2 * pow2 e.
Proof. rewrite pow2R_add, pow2R_1. lra. Qed.

Lemma pow2R_IZR e : (0 <= e)%Z -> pow2 e = IZR (2 ^ e).
Proof.
  intros He. pattern e. apply natlike_ind; [reflexivity| |exact He].
  intros k Hk IH. rewrite Z.pow_succ_r by exact Hk.
  unfold Z.succ. rewrite pow2R_succ, IH, mult_IZR. reflexivity.
Qed.

Lemma pow2R_le a b : (a <= b)%Z -> pow2 a <= pow2 b.
Proof.
  intros H. replace b with (a + (b - a))%Z by lia.
  rewrite pow2R_add. rewrite (pow2R_IZR (b - a)) by lia.
  assert (1 <= IZR (2 ^ (b - a))).
  { apply IZR_le.
    assert (0 < 2 ^ (b - a))%Z by (apply Z.pow_pos_nonneg; lia). lia. }
  pose proof (pow2R_pos a). nra.
Qed.

Lemma pow2R_lt a b : (a < b)%Z -> pow2 a < pow2 b.
Proof.
  intros H. apply Rlt_le_trans with (pow2 (a + 1)).
  - rewrite pow2R_succ. pose proof (pow2R_pos a). lra.
  - apply pow2R_le. lia.
Qed.

Lemma pow2R_lt_inv a b : pow2 a < pow2 b -> (a < b)%Z.
Proof.
  intros H. destruct (Z_lt_le_dec a b) as [Hlt|Hge]; [exact Hlt|].
  apply pow2R_le in Hge. lra.
Qed.

(** *** The number of digits of a mantissa *)

Lemma digits2_size p : digits2_pos p = Pos.size p.
Proof. induction p; simpl; congruence. Qed.

Lemma Zdigits2_bounds p :
  (2 ^ (Zpos (digits2_pos p) - 1) <= Zpos p < 2 ^ Zpos (digits2_pos p))%Z.
Proof.
  rewrite digits2_size. split.
  - pose proof (Pos.size_le p) as H.
    assert (H2 : (2 ^ Zpos (Pos.size p) <= 2 * Zpos p)%Z).
    { change (2 * Zpos p)%Z with (Zpos p~0). rewrite <- Pos2Z.inj_pow.
      exact H. }
    replace (Zpos (Pos.size p)) with ((Zpos (Pos.size p) - 1) + 1)%Z in H2
      by lia.
    rewrite Z.pow_add_r in H2 by lia. lia.
  - pose proof (Pos.size_gt p) as H.
    rewrite <- Pos2Z.inj_pow. exact H.
Qed.

Lemma digits_unique p k :
  (2 ^ (k - 1) <= Zpos p < 2 ^ k)%Z -> (0 < k)%Z -> Zpos (digits2_pos p) = k.
Proof.
  intros [Hlo Hhi] Hk. destruct (Zdigits2_bounds p) as [Dlo Dhi].
  set (d := Zpos (digits2_pos p)) in *.
  assert (Hd : (0 < d)%Z) by (unfold d; lia).
  destruct (Z.lt_trichotomy d k) as [H|[H|H]]; [|exact H|].
  - assert (2 ^ d <= 2 ^ (k - 1))%Z by (apply Z.pow_le_mono_r; lia). lia.
  - assert (2 ^ k <= 2 ^ (d - 1))%Z by (apply Z.pow_le_mono_r; lia). lia.
Qed.

(** *** Shifting a mantissa to the right *)

Lemma IZR_xO p : IZR (Zpos p~0) = 2 * IZR (Zpos p).
Proof. rewrite Pos2Z.inj_xO, mult_IZR. reflexivity. Qed.

Lemma IZR_xI p : IZR (Zpos p~1) = 2 * IZR (Zpos p) + 1.
Proof. rewrite Pos2Z.inj_xI, plus_IZR, mult_IZR. reflexivity. Qed.

(** One shift keeps track of where the real lies. *)
Lemma shr_1_located rs e x :
  (0 <= shr_m rs)%Z -> located rs e x ->
  located (shr_1 rs) (e + 1) x /\ (0 <= shr_m (shr_1 rs))%Z.
Proof.
  destruct rs as [m r s]. simpl. intros Hm H.
  pose proof (pow2R_pos e) as He.
  destruct m as [|p|p]; [| |lia].
  - split; [|simpl; lia].
    unfold located in *. simpl in *. rewrite pow2R_succ.
    destruct r, s; simpl; lra.
  - destruct p as [p|p|].
    + split; [|simpl; lia].
      unfold located in *. cbn [shr_1 shr_m shr_r shr_s] in *.
      rewrite pow2R_succ. rewrite IZR_xI in H.
      destruct r, s; cbn [orb]; nra.
    + split; [|simpl; lia].
      unfold located in *. cbn [shr_1 shr_m shr_r shr_s] in *.
      rewrite pow2R_succ. rewrite IZR_xO in H.
      destruct r, s; cbn [orb]; nra.
    + split; [|simpl; lia].
      unfold located in *. cbn [shr_1 shr_m shr_r shr_s] in *.
      rewrite pow2R_succ.
      destruct r, s; cbn [orb]; nra.
Qed.

Lemma iter_shr_located p : forall rs e x,
  (0 <= shr_m rs)%Z -> located rs e x ->
  located (iter_pos shr_1 p rs) (e + Zpos p) x
  /\ (0 <= shr_m (iter_pos shr_1 p rs))%Z.
Proof.
  induction p as [p IH|p IH|]; intros rs e x Hm H; cbn [iter_pos].
  - destruct (shr_1_located rs e x Hm H) as [H1 Hm1].
    destruct (IH _ _ _ Hm1 H1) as [H2 Hm2].
    destruct (IH _ _ _ Hm2 H2) as [H3 Hm3].
    replace (e + Zpos p~1)%Z with (e + 1 + Zpos p + Zpos p)%Z by lia.
    split; assumption.
  - destruct (IH _ _ _ Hm H) as [H2 Hm2].
    destruct (IH _ _ _ Hm2 H2) as [H3 Hm3].
    replace (e + Zpos p~0)%Z with (e + Zpos p + Zpos p)%Z by lia.
    split; assumption.
  - apply shr_1_located; assumption.
Qed.

(** The real lies between the mantissa and the next one. *)
Lemma located_bracket rs e x :
  located rs e x ->
  IZR (shr_m rs) * pow2 e <= x < (IZR (shr_m rs) + 1) * pow2 e.
Proof.
  unfold located. pose proof (pow2R_pos e).
  destruct (shr_r rs), (shr_s rs); intros; nra.
Qed.

(** Rounding to nearest, ties to even, moves by half a unit at most. *)
Lemma round_nearest_even_located rs e x :
  located rs e x ->
  let m := round_nearest_even (shr_m rs) (loc_of_shr_record rs) in
  Rabs (IZR m * pow2 e - x) <= pow2 e / 2
  /\ (shr_m rs <= m <= shr_m rs + 1)%Z.
Proof.
  destruct rs as [m r s]. unfold located. cbn [shr_m shr_r shr_s].
  pose proof (pow2R_pos e) as He.
  destruct r, s; cbn [loc_of_shr_record round_nearest_even]; intros H.
  - rewrite plus_IZR. split; [|lia]. apply Rabs_le. nra.
  - destruct (Z.even m).
    + split; [|lia]. apply Rabs_le. nra.
    + rewrite plus_IZR. split; [|lia]. apply Rabs_le. nra.
  - split; [|lia]. apply Rabs_le. nra.
  - split; [|lia]. apply Rabs_le. nra.
Qed.

(** *** The rounding step of every operation *)

Lemma fexp_eq e : fexp prec emax e = Z.max (e - 53) (-1074).
Proof. reflexivity. Qed.

Lemma shr_m_of_loc m l : shr_m (shr_record_of_loc m l) = m.
Proof. destruct l as [|[]]; reflexivity. Qed.

Lemma shr_located rs e n x :
  (0 <= n)%Z -> (0 <= shr_m rs)%Z -> located rs e x ->
  snd (shr rs e n) = (e + n)%Z
  /\ located (fst (shr rs e n)) (e + n) x
  /\ (0 <= shr_m (fst (shr rs e n)))%Z.
Proof.
  intros Hn Hm H. destruct n as [|p|p]; [| |lia]; cbn [shr fst snd].
  - rewrite Z.add_0_r. auto.
  - destruct (iter_shr_located p rs e x Hm H). auto.
Qed.

Lemma pow2R_52 : pow2 52 = 4503599627370496.
Proof. rewrite pow2R_IZR by lia. reflexivity. Qed.

Lemma pow2R_53 : pow2 53 = 9007199254740992.
Proof. rewrite pow2R_IZR by lia. reflexivity. Qed.

Lemma pow2R_m53 : pow2 (-53) = / 9007199254740992.
Proof.
  assert (H : pow2 (-53) * pow2 53 = 1).
  { rewrite <- pow2R_add. reflexivity. }
  rewrite pow2R_53 in H. apply Rmult_eq_reg_r with 9007199254740992; [|lra].
  rewrite H. field.
Qed.

Lemma mantissa_bounds (p : BinNums.positive) (e : Z) :
  pow2 (Zpos (digits2_pos p) - 1 + e) <= IZR (Zpos p) * pow2 e
  /\ (IZR (Zpos p) + 1) * pow2 e <= pow2 (Zpos (digits2_pos p) + e).
Proof.
  destruct (Zdigits2_bounds p) as [Hlo Hhi].
  pose proof (pow2R_pos e) as He.
  rewrite !pow2R_add.
  rewrite (pow2R_IZR (Zpos (digits2_pos p) - 1)) by lia.
  rewrite (pow2R_IZR (Zpos (digits2_pos p))) by lia.
  apply IZR_le in Hlo.
  assert (Hhi' : IZR (Zpos p) + 1 <= IZR (2 ^ Zpos (digits2_pos p))).
  { rewrite <- plus_IZR. apply IZR_le. lia. }
  split; (apply Rmult_le_compat_r; [lra|assumption]).
Qed.

(** A mantissa of 53 digits or more, in the range of the normal numbers,
    is rounded to a float within 2^-53 of the real it locates, in relative
    terms. *)
Lemma round_aux_normal s mx ex lx x :
  located (shr_record_of_loc (Zpos mx) lx) ex x ->
  (53 <= Zpos (digits2_pos mx))%Z ->
  (-1074 <= Zpos (digits2_pos mx) + ex - 53)%Z ->
  (Zpos (digits2_pos mx) + ex <= 1022)%Z ->
  exists m e,
    binary_round_aux prec emax s (Zpos mx) ex lx = S754_finite s m e
    /\ Rabs (IZR (Zpos m) * pow2 e - x) <= pow2 (-53) * x.
Proof.
  intros Hloc Hd Hnormal Hmax.
  set (d := Zpos (digits2_pos mx)) in *.
  set (e1 := (d + ex - 53)%Z).
  unfold binary_round_aux, shr_fexp.
  cbn [Zdigits2]. fold d. rewrite fexp_eq.
  rewrite Z.max_l by lia. fold e1.
  assert (Hm0 : (0 <= shr_m (shr_record_of_loc (Zpos mx) lx))%Z)
    by (rewrite shr_m_of_loc; lia).
  destruct (shr_located _ ex (e1 - ex) x ltac:(unfold e1; lia) Hm0 Hloc)
    as (He' & Hloc' & Hm').
  destruct (shr (shr_record_of_loc (Zpos mx) lx) ex (e1 - ex)) as [mrs' e'].
  cbn [fst snd] in *. subst e'.
  replace (ex + (e1 - ex))%Z with e1 in * by lia.
  (* the mantissa after the shift has 53 digits *)
  pose proof (located_bracket _ _ _ Hloc) as Hb0.
  rewrite shr_m_of_loc in Hb0.
  pose proof (located_bracket _ _ _ Hloc') as Hb1.
  pose proof (round_nearest_even_located _ _ _ Hloc') as Hrne.
  cbv zeta in Hrne.
  remember (round_nearest_even (shr_m mrs') (loc_of_shr_record mrs')) as m''
    eqn:Hm''.
  clear Hm''. destruct Hrne as [Herr Hround].
  remember (shr_m mrs') as m' eqn:Hm'eq. clear Hm'eq.
  destruct (mantissa_bounds mx ex) as [Mlo Mhi]. fold d in Mlo, Mhi.
  pose proof (pow2R_pos e1) as He1.
  assert (E52 : pow2 (d - 1 + ex) = pow2 52 * pow2 e1).
  { rewrite <- pow2R_add. f_equal. unfold e1. lia. }
  assert (E53 : pow2 (d + ex) = pow2 53 * pow2 e1).
  { rewrite <- pow2R_add. f_equal. unfold e1. lia. }
  rewrite E52 in Mlo. rewrite E53 in Mhi.
  rewrite pow2R_52 in *. rewrite pow2R_53 in *.
  assert (Hm'lo : (4503599627370496 <= m')%Z).
  { assert (H : (4503599627370496 < m' + 1)%Z).
    { apply lt_IZR. rewrite plus_IZR.
      apply Rmult_lt_reg_r with (pow2 e1); [exact He1|lra]. }
    lia. }
  assert (Hm'hi : (m' < 9007199254740992)%Z).
  { apply lt_IZR. apply Rmult_lt_reg_r with (pow2 e1); [exact He1|lra]. }
  assert (Hx : 4503599627370496 * pow2 e1 <= x).
  { apply IZR_le in Hm'lo.
    apply Rle_trans with (IZR m' * pow2 e1); [|lra].
    apply Rmult_le_compat_r; lra. }
  assert (Hbound : Rabs (IZR m'' * pow2 e1 - x) <= pow2 (-53) * x).
  { rewrite pow2R_m53. eapply Rle_trans; [exact Herr|]. lra. }
  destruct (Z_lt_le_dec m'' 9007199254740992) as [Hlt|Hge].
  - (* no carry *)
    destruct m'' as [|q|q]; [lia| |lia].
    assert (Hdq : Zpos (digits2_pos q) = 53%Z).
    { apply digits_unique; [|lia].
      change (2 ^ (53 - 1))%Z with 4503599627370496%Z.
      change (2 ^ 53)%Z with 9007199254740992%Z. lia. }
    cbn [Zdigits2]. rewrite Hdq. rewrite fexp_eq.
    replace (Z.max (53 + e1 - 53) (-1074) - e1)%Z with 0%Z by lia.
    cbn [shr shr_record_of_loc shr_m].
    assert (Hle : (e1 <=? emax - prec)%Z = true).
    { apply Z.leb_le. change (emax - prec)%Z with 971%Z. unfold e1. lia. }
    rewrite Hle. exists q, e1. split; [reflexivity|exact Hbound].
  - (* the rounding carried to 2^53 *)
    assert (Em : m'' = 9007199254740992%Z) by lia.
    subst m''.
    cbn [Zdigits2]. 
    change (Zpos (digits2_pos 9007199254740992)) with 54%Z.
    rewrite fexp_eq.
    replace (Z.max (54 + e1 - 53) (-1074) - e1)%Z with 1%Z by lia.
    cbn [shr shr_record_of_loc iter_pos shr_1 shr_m].
    assert (Hle : (e1 + 1 <=? emax - prec)%Z = true).
    { apply Z.leb_le. change (emax - prec)%Z with 971%Z. unfold e1. lia. }
    rewrite Hle. eexists _, _. split; [reflexivity|].
    rewrite pow2R_succ.
    replace (IZR (Zpos 4503599627370496) * (2 * pow2 e1))
      with (IZR 9007199254740992 * pow2 e1) by lra.
    exact Hbound.
Qed.

(** No shift is needed: the result is the mantissa as it is. *)
Lemma round_aux_exact s mx ex :
  (fexp prec emax (Zpos (digits2_pos mx) + ex) <= ex)%Z ->
  (ex <= 971)%Z ->
  binary_round_aux prec emax s (Zpos mx) ex loc_Exact = S754_finite s mx ex.
Proof.
  intros Hf Hmax. unfold binary_round_aux, shr_fexp. cbn [Zdigits2].
  assert (Hs : shr (shr_record_of_loc (Zpos mx) loc_Exact) ex
                 (fexp prec emax (Zpos (digits2_pos mx) + ex) - ex)
               = (shr_record_of_loc (Zpos mx) loc_Exact, ex)).
  { destruct (fexp prec emax (Zpos (digits2_pos mx) + ex) - ex)%Z eqn:E;
      [reflexivity|lia|reflexivity]. }
  rewrite Hs.
  cbn [shr_record_of_loc shr_m loc_of_shr_record round_nearest_even].
  cbn [Zdigits2]. change (Build_shr_record (Zpos mx) false false)
    with (shr_record_of_loc (Zpos mx) loc_Exact).
  rewrite Hs. cbn [shr_record_of_loc shr_m].
  assert (Hle : (ex <=? emax - prec)%Z = true).
  { apply Z.leb_le. change (emax - prec)%Z with 971%Z. lia. }
  now rewrite Hle.
Qed.

Lemma iter_xO_value mx d :
  Zpos (Pos.iter xO mx d) = (Zpos mx * 2 ^ Zpos d)%Z.
Proof.
  induction d as [|d IH] using Pos.peano_ind.
  - simpl. lia.
  - rewrite Pos.iter_succ, Pos2Z.inj_xO, IH, Pos2Z.inj_succ.
    rewrite Z.pow_succ_r by lia. lia.
Qed.

Lemma iter_xO_digits mx d :
  Zpos (digits2_pos (Pos.iter xO mx d))
  = (Zpos (digits2_pos mx) + Zpos d)%Z.
Proof.
  induction d as [|d IH] using Pos.peano_ind.
  - simpl. lia.
  - rewrite Pos.iter_succ. cbn [digits2_pos]. rewrite Pos2Z.inj_succ, IH. lia.
Qed.

(** [shl_align] keeps the value and the magnitude. *)
Lemma shl_align_spec mx ex e' :
  let mz := fst (shl_align mx ex e') in
  let ez := snd (shl_align mx ex e') in
  ez = Z.min e' ex
  /\ IZR (Zpos mz) * pow2 ez = IZR (Zpos mx) * pow2 ex
  /\ (Zpos (digits2_pos mz) + ez = Zpos (digits2_pos mx) + ex)%Z.
Proof.
  unfold shl_align. destruct (e' - ex)%Z as [|d|d] eqn:E; cbn [fst snd].
  - split; [lia|]. split; reflexivity.
  - split; [lia|]. split; reflexivity.
  - split; [lia|]. split.
    + rewrite iter_xO_value, mult_IZR, <- (pow2R_IZR (Zpos d)) by lia.
      rewrite Rmult_assoc, <- pow2R_add. f_equal. f_equal. lia.
    + rewrite iter_xO_digits. lia.
Qed.

(** Rounding an integer mantissa: within 2^-53 in relative terms, and exact
    when it has 53 digits or fewer. *)
Lemma binary_round_spec s mx ex :
  (-1074 <= ex)%Z ->
  (Zpos (digits2_pos mx) + ex <= 1022)%Z ->
  exists m e,
    binary_round prec emax s mx ex = S754_finite s m e
    /\ Rabs (IZR (Zpos m) * pow2 e - IZR (Zpos mx) * pow2 ex)
       <= pow2 (-53) * (IZR (Zpos mx) * pow2 ex)
    /\ ((Zpos (digits2_pos mx) <= 53)%Z ->
        IZR (Zpos m) * pow2 e = IZR (Zpos mx) * pow2 ex).
Proof.
  intros Hex Hmax. unfold binary_round.
  set (target := fexp prec emax (Zpos (digits2_pos mx) + ex)).
  destruct (shl_align_spec mx ex target) as (Hez & Hval & Hmag).
  destruct (shl_align mx ex target) as [mz ez]. cbn [fst snd] in *.
  assert (Hpos : 0 <= IZR (Zpos mx) * pow2 ex).
  { pose proof (pow2R_pos ex).
    assert (0 < IZR (Zpos mx)) by (apply IZR_lt; lia).
    nra. }
  assert (Hu : 0 <= pow2 (-53)) by (pose proof (pow2R_pos (-53)); lra).
  assert (Ht : target = Z.max (Zpos (digits2_pos mx) + ex - 53) (-1074)).
  { unfold target. now rewrite fexp_eq. }
  destruct (Z_le_gt_dec target ex) as [Hle|Hgt].
  - (* the mantissa fits: exact *)
    exists mz, ez. split; [|split].
    + apply round_aux_exact; [|lia].
      rewrite Hmag. fold target. lia.
    + rewrite Hval. rewrite Rminus_diag, Rabs_R0.
      apply Rmult_le_pos; assumption.
    + intros _. exact Hval.
  - (* more than 53 digits: rounded *)
    assert (Emz : ez = ex) by lia. clear Hez. subst ez.
    assert (Hmz : mz = mx).
    { assert (H : IZR (Zpos mz) = IZR (Zpos mx)).
      { pose proof (pow2R_pos ex).
        apply Rmult_eq_reg_r with (pow2 ex); [exact Hval|lra]. }
      apply eq_IZR in H. congruence. }
    subst mz.
    destruct (round_aux_normal s mx ex loc_Exact (IZR (Zpos mx) * pow2 ex))
      as (m & e & Hr & Hb).
    + unfold located. simpl. reflexivity.
    + lia.
    + lia.
    + lia.
    + exists m, e. split; [exact Hr|]. split; [exact Hb|]. intros Hd. lia.
Qed.

(** *** Positive finite floats *)

Lemma value_pos m e : 0 < value m e.
Proof.
  unfold value. pose proof (pow2R_pos e).
  assert (0 < IZR (Zpos m)) by (apply IZR_lt; lia). nra.
Qed.

(** The exponent and the digits of a float as the machine holds it. *)
Lemma valid_exponent s m e :
  valid_binary (S754_finite s m e) = true ->
  (-1074 <= e <= 971)%Z /\ (Zpos (digits2_pos m) <= 53)%Z
  /\ ((-1074 < e)%Z -> Zpos (digits2_pos m) = 53%Z).
Proof.
  unfold valid_binary, SpecFloat.valid_binary, bounded, canonical_mantissa.
  rewrite fexp_eq.
  intros H. apply andb_prop in H as [H1 H2].
  apply Z.eqb_eq in H1. apply Z.leb_le in H2.
  change (emax - prec)%Z with 971%Z in H2. lia.
Qed.

(** The value lies between two consecutive powers of two. *)
Lemma value_mag m e :
  pow2 (Zpos (digits2_pos m) + e - 1) <= value m e
  /\ value m e < pow2 (Zpos (digits2_pos m) + e).
Proof.
  destruct (mantissa_bounds m e) as [Hlo Hhi]. unfold value.
  replace (Zpos (digits2_pos m) + e - 1)%Z
    with (Zpos (digits2_pos m) - 1 + e)%Z by lia.
  pose proof (pow2R_pos e). split; [exact Hlo|]. nra.
Qed.

(** The sum of two positive floats: the exact sum, rounded. *)
Lemma SFadd_pos mx ex my ey :
  valid_binary (S754_finite false mx ex) = true ->
  valid_binary (S754_finite false my ey) = true ->
  value mx ex + value my ey < pow2 1022 ->
  exists m e,
    SFadd prec emax (S754_finite false mx ex) (S754_finite false my ey)
    = S754_finite false m e
    /\ Rabs (value m e - (value mx ex + value my ey))
       <= pow2 (-53) * (value mx ex + value my ey).
Proof.
  intros Vx Vy Hsum.
  destruct (valid_exponent _ _ _ Vx) as (Hex & _ & _).
  destruct (valid_exponent _ _ _ Vy) as (Hey & _ & _).
  unfold SFadd. cbn [cond_Zopp].
  set (ez := Z.min ex ey).
  destruct (shl_align_spec mx ex ez) as (Hez1 & Hv1 & _).
  destruct (shl_align_spec my ey ez) as (Hez2 & Hv2 & _).
  destruct (shl_align mx ex ez) as [a ea].
  destruct (shl_align my ey ez) as [b eb]. cbn [fst snd] in *.
  assert (Ea : Z.min ez ex = ez) by (unfold ez; lia).
  assert (Eb : Z.min ez ey = ez) by (unfold ez; lia).
  subst ea eb. rewrite Ea in Hv1. rewrite Eb in Hv2.
  change (Zpos a + Zpos b)%Z with (Zpos (a + b)). cbn [binary_normalize].
  assert (Hval : IZR (Zpos (a + b)) * pow2 ez = value mx ex + value my ey).
  { rewrite Pos2Z.inj_add, plus_IZR. unfold value. lra. }
  destruct (binary_round_spec false (a + b) ez) as (m & e & Hr & Hb & _).
  - unfold ez. lia.
  - destruct (mantissa_bounds (a + b) ez) as [Hlo _].
    rewrite Hval in Hlo.
    assert (Hlt : pow2 (Zpos (digits2_pos (a + b)) - 1 + ez) < pow2 1022)
      by lra.
    apply pow2R_lt_inv in Hlt. lia.
  - exists m, e. split; [exact Hr|]. unfold value at 1. rewrite <- Hval.
    exact Hb.
Qed.

(** The quotient [q], with the remainder [r] out of [m2], at exponent [e]. *)
Lemma div_located (q r : Z) (m2 : BinNums.positive) (e : Z) (x : R) :
  (0 <= r < Zpos m2)%Z ->
  x = (IZR q + IZR r / IZR (Zpos m2)) * pow2 e ->
  located (shr_record_of_loc q (new_location (Zpos m2) r)) e x.
Proof.
  intros Hr Hx.
  pose proof (pow2R_pos e) as He.
  assert (HM : 0 < IZR (Zpos m2)) by (apply IZR_lt; lia).
  set (M := IZR (Zpos m2)) in *.
  set (t := IZR r / M) in *.
  assert (Ht : t * M = IZR r) by (unfold t; field; lra).
  assert (Hcases :
    (r = 0%Z -> t = 0)
    /\ ((0 < r)%Z -> 0 < t)
    /\ ((2 * r < Zpos m2)%Z -> t < / 2)
    /\ ((2 * r = Zpos m2)%Z -> t = / 2)
    /\ ((2 * r > Zpos m2)%Z -> / 2 < t)
    /\ t < 1).
  { assert (Hlt1 : IZR r < M) by (apply IZR_lt; lia).
    repeat split.
    - intros ->. unfold t. field. lra.
    - intros H. apply IZR_lt in H. 
      apply Rmult_lt_reg_r with M; [exact HM|]. rewrite Ht. lra.
    - intros H. apply IZR_lt in H. rewrite mult_IZR in H. fold M in H.
      apply Rmult_lt_reg_r with M; [exact HM|]. rewrite Ht. lra.
    - intros H. apply (f_equal IZR) in H. rewrite mult_IZR in H. fold M in H.
      apply Rmult_eq_reg_r with M; [|lra]. rewrite Ht. lra.
    - intros H. apply Z.gt_lt in H. apply IZR_lt in H. rewrite mult_IZR in H.
      fold M in H.
      apply Rmult_lt_reg_r with M; [exact HM|]. rewrite Ht. lra.
    - apply Rmult_lt_reg_r with M; [exact HM|]. rewrite Ht. lra. }
  destruct Hcases as (H0 & Hpos & Hlow & Hmid & Hhigh & Hone).
  assert (Hsplit : forall a b, a < t < b ->
            (IZR q + a) * pow2 e < x < (IZR q + b) * pow2 e).
  { intros a b [Ha Hb]. rewrite Hx.
    split; apply Rmult_lt_compat_r; lra. }
  unfold new_location, new_location_even, new_location_odd.
  destruct (Z.even (Zpos m2)) eqn:Ev.
  - destruct (Z.eqb_spec r 0) as [Hz|Hnz].
    + unfold located. cbn. rewrite Hx, (H0 Hz). lra.
    + destruct (Z.compare_spec (2 * r) (Zpos m2)) as [Hc|Hc|Hc];
        unfold located; cbn.
      * rewrite Hx, (Hmid Hc). reflexivity.
      * replace (IZR q * pow2 e) with ((IZR q + 0) * pow2 e) by lra.
        apply Hsplit. split; [apply Hpos; lia|apply Hlow; exact Hc].
      * replace (IZR q + 1) with (IZR q + 1) by reflexivity.
        apply Hsplit. split; [apply Hhigh; lia|exact Hone].
  - assert (Hodd : (2 * r <> Zpos m2)%Z).
    { intros H. rewrite <- H in Ev. rewrite Z.even_mul in Ev. discriminate. }
    destruct (Z.eqb_spec r 0) as [Hz|Hnz].
    + unfold located. cbn. rewrite Hx, (H0 Hz). lra.
    + destruct (Z.compare_spec (2 * r + 1) (Zpos m2)) as [Hc|Hc|Hc];
        unfold located; cbn.
      * replace (IZR q * pow2 e) with ((IZR q + 0) * pow2 e) by lra.
        apply Hsplit. split; [apply Hpos; lia|apply Hlow; lia].
      * replace (IZR q * pow2 e) with ((IZR q + 0) * pow2 e) by lra.
        apply Hsplit. split; [apply Hpos; lia|apply Hlow; lia].
      * apply Hsplit. split; [apply Hhigh; lia|exact Hone].
Qed.

(** The quotient of two positive floats: the exact quotient, rounded, when
    it is in the range of the normal numbers. *)
Lemma SFdiv_pos m1 e1 m2 e2 :
  let mag1 := (Zpos (digits2_pos m1) + e1)%Z in
  let mag2 := (Zpos (digits2_pos m2) + e2)%Z in
  (Zpos (digits2_pos m1) <= 53)%Z ->
  (-1021 <= mag1 - mag2)%Z ->
  (mag1 - mag2 <= 1021)%Z ->
  exists m e,
    SFdiv prec emax (S754_finite false m1 e1) (S754_finite false m2 e2)
    = S754_finite false m e
    /\ Rabs (value m e - value m1 e1 / value m2 e2)
       <= pow2 (-53) * (value m1 e1 / value m2 e2).
Proof.
  intros mag1 mag2 Hd1 Hlo Hhi.
  destruct (Zdigits2_bounds m1) as [B1lo B1hi].
  destruct (Zdigits2_bounds m2) as [B2lo B2hi].
  set (d1 := Zpos (digits2_pos m1)) in *.
  set (d2 := Zpos (digits2_pos m2)) in *.
  assert (Hd2 : (1 <= d2)%Z) by (unfold d2; lia).
  set (e' := (mag1 - mag2 - 53)%Z).
  set (s := (53 - d1 + d2)%Z).
  unfold SFdiv, SFdiv_core_binary. cbn [Zdigits2 xorb]. fold d1 d2.
  rewrite fexp_eq.
  replace (Z.min (Z.max (d1 + e1 - (d2 + e2) - 53) (-1074)) (e1 - e2))
    with e' by (unfold e', mag1, mag2; lia).
  replace (e1 - e2 - e')%Z with s by (unfold s, e', mag1, mag2; lia).
  destruct s as [|sp|sp] eqn:Es; [unfold s in Es; lia| |unfold s in Es; lia].
  rewrite Z.shiftl_mul_pow2 by lia. rewrite <- Es.
  pose proof (Z_div_mod (Zpos m1 * 2 ^ s) (Zpos m2) ltac:(lia)) as Hdiv.
  destruct (Z.div_eucl (Zpos m1 * 2 ^ s) (Zpos m2)) as [q r].
  destruct Hdiv as [Hqr Hr].
  (* the quotient has 53 or 54 digits *)
  set (P := (2 ^ (d2 - 1))%Z) in *.
  assert (HP : (0 < P)%Z) by (apply Z.pow_pos_nonneg; lia).
  assert (HP2 : (2 ^ d2 = 2 * P)%Z).
  { unfold P. replace d2 with ((d2 - 1) + 1)%Z at 1 by lia.
    rewrite Z.pow_add_r by lia. lia. }
  rewrite HP2 in B2hi.
  assert (HT : (4503599627370496 * (2 * P) <= Zpos m1 * 2 ^ s
                < 9007199254740992 * (2 * P))%Z).
  { assert (H1 : (2 ^ (d1 - 1) * 2 ^ s = 4503599627370496 * (2 * P))%Z).
    { rewrite <- Z.pow_add_r by lia. rewrite <- HP2.
      change 4503599627370496%Z with (2 ^ 52)%Z.
      rewrite <- Z.pow_add_r by lia. f_equal. unfold s. lia. }
    assert (H2 : (2 ^ d1 * 2 ^ s = 9007199254740992 * (2 * P))%Z).
    { rewrite <- Z.pow_add_r by lia. rewrite <- HP2.
      change 9007199254740992%Z with (2 ^ 53)%Z.
      rewrite <- Z.pow_add_r by lia. f_equal. unfold s. lia. }
    assert (H3 : (0 < 2 ^ s)%Z) by (apply Z.pow_pos_nonneg; lia).
    split.
    - rewrite <- H1. apply Z.mul_le_mono_nonneg_r; lia.
    - rewrite <- H2. apply Z.mul_lt_mono_pos_r; lia. }
  assert (Hq : (4503599627370496 <= q < 18014398509481984)%Z).
  { split.
    - destruct (Z_lt_le_dec q 4503599627370496) as [Hlt|]; [|assumption].
      exfalso.
      assert (Zpos m2 * (q + 1) <= (2 * P) * 4503599627370496)%Z.
      { apply Z.mul_le_mono_nonneg; lia. }
      nia.
    - destruct (Z_lt_le_dec q 18014398509481984) as [|Hge]; [assumption|].
      exfalso.
      assert (P * 18014398509481984 <= Zpos m2 * q)%Z.
      { apply Z.mul_le_mono_nonneg; lia. }
      nia. }
  destruct q as [|qp|qp]; [lia| |lia].
  assert (Hdq : (53 <= Zpos (digits2_pos qp) <= 54)%Z).
  { destruct (Zdigits2_bounds qp) as [Qlo Qhi].
    set (dq := Zpos (digits2_pos qp)) in *.
    split.
    - destruct (Z_le_gt_dec 53 dq) as [|Hc]; [assumption|]. exfalso.
      assert (2 ^ dq <= 2 ^ 52)%Z by (apply Z.pow_le_mono_r; lia).
      change (2 ^ 52)%Z with 4503599627370496%Z in *. lia.
    - destruct (Z_le_gt_dec dq 54) as [|Hc]; [assumption|]. exfalso.
      assert (2 ^ 54 <= 2 ^ (dq - 1))%Z by (apply Z.pow_le_mono_r; lia).
      change (2 ^ 54)%Z with 18014398509481984%Z in *. lia. }
  (* the location of the exact quotient *)
  set (x := value m1 e1 / value m2 e2).
  assert (Hx : x = (IZR (Zpos qp) + IZR r / IZR (Zpos m2)) * pow2 e').
  { unfold x, value.
    assert (HM : 0 < IZR (Zpos m2)) by (apply IZR_lt; lia).
    pose proof (pow2R_pos e2) as He2.
    assert (Hs : IZR (Zpos m1) * pow2 s
                 = IZR (Zpos m2) * IZR (Zpos qp) + IZR r).
    { rewrite (pow2R_IZR s) by lia. rewrite <- mult_IZR, Hqr.
      rewrite plus_IZR, mult_IZR. reflexivity. }
    assert (He : pow2 e1 = pow2 s * pow2 e' * pow2 e2).
    { rewrite <- !pow2R_add. f_equal. unfold e', mag1, mag2, s.
      fold d1 d2. lia. }
    rewrite He.
    replace (IZR (Zpos qp) + IZR r / IZR (Zpos m2))
      with ((IZR (Zpos m2) * IZR (Zpos qp) + IZR r) / IZR (Zpos m2))
      by (field; lra).
    rewrite <- Hs. field. lra. }
  destruct (round_aux_normal false qp e' (new_location (Zpos m2) r) x)
    as (m & e & Hres & Hb).
  - apply div_located; assumption.
  - lia.
  - unfold e'. lia.
  - unfold e'. lia.
  - exists m, e. split; [exact Hres|exact Hb].
Qed.

(** *** The operations of the program *)

Lemma exact_finite x m e :
  Prim2SF x = S754_finite false m e -> exact x = value m e.
Proof. unfold exact, value. intros ->. simpl. lra. Qed.

Lemma valid_of_float x s m e :
  Prim2SF x = S754_finite s m e ->
  valid_binary (S754_finite s m e) = true.
Proof. intros <-. apply Prim2SF_valid. Qed.

Lemma add_float x y mx ex my ey :
  Prim2SF x = S754_finite false mx ex ->
  Prim2SF y = S754_finite false my ey ->
  value mx ex + value my ey < pow2 1022 ->
  exists m e,
    Prim2SF (x + y)%float = S754_finite false m e
    /\ Rabs (value m e - (value mx ex + value my ey))
       <= pow2 (-53) * (value mx ex + value my ey).
Proof.
  intros Hx Hy Hsum. rewrite add_spec, Hx, Hy. unfold SF64add.
  apply SFadd_pos; [exact (valid_of_float _ _ _ _ Hx)
                   |exact (valid_of_float _ _ _ _ Hy)|exact Hsum].
Qed.

Lemma add_zero_float y my ey :
  Prim2SF y = S754_finite false my ey -> (0 + y)%float = y.
Proof.
  intros Hy. apply Prim2SF_inj. rewrite add_spec, Hy. reflexivity.
Qed.

Lemma div_float x y mx ex my ey :
  Prim2SF x = S754_finite false mx ex ->
  Prim2SF y = S754_finite false my ey ->
  (-1021 <= Zpos (digits2_pos mx) + ex - (Zpos (digits2_pos my) + ey)
   <= 1021)%Z ->
  exists m e,
    Prim2SF (x / y)%float = S754_finite false m e
    /\ Rabs (value m e - value mx ex / value my ey)
       <= pow2 (-53) * (value mx ex / value my ey).
Proof.
  intros Hx Hy Hmag. rewrite div_spec, Hx, Hy. unfold SF64div.
  destruct (valid_exponent _ _ _ (valid_of_float _ _ _ _ Hx)) as (_ & Hd & _).
  apply SFdiv_pos; [exact Hd|lia|lia].
Qed.

(** [len(share_list)] is converted without rounding. *)
Lemma of_len_exact (n : nat) :
  (1 <= Z.of_nat n <= 1000000)%Z ->
  exists m e,
    Prim2SF (of_uint63 (of_Z (Z.of_nat n))) = S754_finite false m e
    /\ value m e = INR n.
Proof.
  intros Hn. rewrite of_uint63_spec, Uint63.of_Z_spec.
  rewrite Z.mod_small
    by (change wB with 9223372036854775808%Z; lia).
  destruct (Z.of_nat n) as [|p|p] eqn:Ep; [lia| |lia].
  cbn [binary_normalize].
  assert (Hp : (Zpos p <= 1000000)%Z) by lia.
  assert (Hd : (Zpos (digits2_pos p) <= 20)%Z).
  { destruct (Zdigits2_bounds p) as [Hlo _].
    destruct (Z_le_gt_dec (Zpos (digits2_pos p)) 20) as [|Hc]; [assumption|].
    exfalso.
    assert (2 ^ 20 <= 2 ^ (Zpos (digits2_pos p) - 1))%Z
      by (apply Z.pow_le_mono_r; lia).
    change (2 ^ 20)%Z with 1048576%Z in *. lia. }
  destruct (binary_round_spec false p 0) as (m & e & Hr & _ & Hexact);
    [lia|lia|].
  exists m, e. split; [exact Hr|].
  unfold value. rewrite Hexact by lia.
  rewrite pow2R_0, Rmult_1_r, <- Ep, <- INR_IZR_INZ. reflexivity.
Qed.

(** A float between 2^-1000 and 2^1000 is a positive normal number. *)
Lemma amount_range (a : float) :
  (0x1p-1000 <=? a)%float = true ->
  (a <=? 0x1p+1000)%float = true ->
  exists m e,
    Prim2SF a = S754_finite false m e
    /\ Zpos (digits2_pos m) = 53%Z
    /\ (-1052 <= e <= 948)%Z.
Proof.
  rewrite !leb_spec. intros Hlo Hhi.
  pose proof (Prim2SF_valid a) as Hv.
  destruct (Prim2SF a) as [s|s| |s m e].
  - destruct s; discriminate Hlo.
  - destruct s; [discriminate Hlo|discriminate Hhi].
  - discriminate Hlo.
  - destruct s; [discriminate Hlo|].
    change (Prim2SF 0x1p-1000%float)
      with (S754_finite false 4503599627370496 (-1052)) in Hlo.
    change (Prim2SF 0x1p+1000%float)
      with (S754_finite false 4503599627370496 948) in Hhi.
    unfold SFleb, SFcompare in Hlo, Hhi.
    assert (He : (-1052 <= e <= 948)%Z).
    { split.
      - destruct (Z.compare_spec (-1052) e); try lia; discriminate Hlo.
      - destruct (Z.compare_spec e 948); try lia; discriminate Hhi. }
    destruct (valid_exponent _ _ _ Hv) as (_ & _ & Hd).
    exists m, e. split; [reflexivity|]. split; [apply Hd; lia|exact He].
Qed.

Lemma Rabs_le_between x y : Rabs x <= y -> - y <= x <= y.
Proof. intros H. unfold Rabs in H. destruct (Rcase_abs x); lra. Qed.

(** Adding [s], which is within 2^-53 of [q] in relative terms, again and
    again: after [j] additions the sum is within [(j^2 + j - 1) * 2^-53 * q]
    of [j * q]. *)
Lemma accumulate (s : float) (ms : BinNums.positive) (es : Z) (q : R)
  (N : nat) :
  Prim2SF s = S754_finite false ms es ->
  0 < q ->
  Rabs (value ms es - q) <= / 9007199254740992 * q ->
  (INR N + 3) * q < pow2 1021 ->
  (Z.of_nat N <= 1000000)%Z ->
  forall r j x mx ex,
    (1 <= j)%nat -> (j + r <= N)%nat ->
    Prim2SF x = S754_finite false mx ex ->
    Rabs (value mx ex - INR j * q)
    <= (INR j * INR j + INR j - 1) * / 9007199254740992 * q ->
    exists m e,
      Prim2SF (add_times r s x) = S754_finite false m e
      /\ Rabs (value m e - INR (j + r) * q)
         <= (INR (j + r) * INR (j + r) + INR (j + r) - 1)
            * / 9007199254740992 * q.
Proof.
  intros Hs Hq HS Hmax HN.
  induction r as [|r IH]; intros j x mx ex Hj HjN Hx HX.
  - exists mx, ex. rewrite Nat.add_0_r. split; [exact Hx|exact HX].
  - cbn [add_times]. change (add x s) with (PrimFloat.add x s).
    set (J := INR j) in *.
    assert (HJ1 : 1 <= J)
      by (unfold J; change 1 with (INR 1); apply le_INR; lia).
    assert (HJN : J + 1 <= INR N).
    { unfold J. rewrite <- S_INR. apply le_INR. lia. }
    assert (HNb : INR N <= 1000000).
    { rewrite INR_IZR_INZ. apply IZR_le. exact HN. }
    assert (HJq : 0 <= J * q) by (apply Rmult_le_pos; lra).
    assert (HJJq : 0 <= J * J * q).
    { rewrite Rmult_assoc. apply Rmult_le_pos; lra. }
    assert (HJb : J * q <= 1000000 * q)
      by (apply Rmult_le_compat_r; lra).
    assert (HJJb : J * J * q <= 1000000 * (J * q)).
    { rewrite Rmult_assoc. apply Rmult_le_compat_r; lra. }
    assert (HK : (J * J * q + J * q) * / 9007199254740992 <= J * q) by lra.
    apply Rabs_le_between in HX. apply Rabs_le_between in HS.
    assert (HNq : J * q + q <= INR N * q).
    { replace (J * q + q) with ((J + 1) * q) by lra.
      apply Rmult_le_compat_r; lra. }
    destruct (add_float x s mx ex ms es Hx Hs) as (m' & e' & Hx' & HX').
    { apply Rlt_trans with (pow2 1021); [|apply pow2R_lt; lia]. lra. }
    apply Rabs_le_between in HX'. rewrite pow2R_m53 in HX'.
    destruct (IH (S j) _ m' e' ltac:(lia) ltac:(lia) Hx') as (m & e & Hr & Hb).
    + rewrite S_INR. fold J. apply Rabs_le. lra.
    + exists m, e. replace (j + S r)%nat with (S j + r)%nat by lia.
      split; [exact Hr|exact Hb].
Qed.

End Rounding.

(** * The properties of the settlement engine *)

(** The scenarios of the specification, run through the model. *)

Example scenario_A :
  transactions (netted (settle default_rates ["Alice"; "Bob"] [alice_pays_100]))
  = [("Bob", "Alice", 50%float)].
Proof. vm_compute. reflexivity. Qed.

Example scenario_B :
  transactions
    (netted (settle default_rates ["Alice"; "Bob"]
               [alice_pays_120; bob_pays_100]))
  = [("Bob", "Alice", 10%float)].
Proof. vm_compute. reflexivity. Qed.

Example scenario_D :
  transactions
    (netted (settle default_rates []
               [mkEntry "" "" "B" "英镑" 10%float ["A"];
                mkEntry "" "" "C" "英镑" 10%float ["B"];
                mkEntry "" "" "A" "英镑" 10%float ["C"]]))
  = [("A", "B", 10%float); ("B", "C", 10%float); ("C", "A", 10%float)].
Proof. vm_compute. reflexivity. Qed.

(** C1. Netting runs over the participants in strictly ascending
    (lexicographic) order, everyone registered or named in a share list
    once.  Row by row, each ordered pair (i, j) with i <> j gives the net
    amount [unified[i][j] - unified[j][i]]; the pair yields the transfer
    (i, j, net) exactly when net > 1e-9, and the dense cell (i, j) is net in
    that case and 0.0 otherwise.  So every transfer of the list has an amount
    above 1e-9.  The threshold is written out: [0x1.12e0be826d695p-30] is
    the binary64 value of the literal [1e-9], and [ltb x y] is [x < y]. *)
Theorem netting_over_sorted_pairs (conversion_rates : dict float)
  (participants : list string) (entries : list (entry float)) :
  let r := settle conversion_rates participants entries in
  let m := unified r in
  let people := people_list r in
  StronglySorted str_lt people
  /\ (forall p, In p people <->
                In p participants \/ exists e, In e entries /\ In p (share e))
  /\ transactions (netted r) = net_transfers m people
  /\ (forall i j,
        cell_opt (reduced_matrix (netted r)) i j =
        if mem i people && mem j people && negb (String.eqb i j)
        then Some (if PrimFloat.ltb 0x1.12e0be826d695p-30%float (net_amount m i j)
                   then net_amount m i j
                   else 0%float)
        else None)
  /\ (forall i j, In i people -> In j people -> i <> j ->
        (In (i, j, net_amount m i j) (transactions (netted r)) <->
         PrimFloat.ltb 0x1.12e0be826d695p-30%float (net_amount m i j) = true))
  /\ (forall debtor creditor amt,
        In (debtor, creditor, amt) (transactions (netted r)) ->
        PrimFloat.ltb 0x1.12e0be826d695p-30%float amt = true
        /\ amt = PrimFloat.sub (cell m debtor creditor) (cell m creditor debtor)).
Proof.
  intros r m people.
  destruct (net_spec m people) as (_ & Htx & Hcells).
  assert (Hpeople : people = sorted (all_people (aggregate participants entries)))
    by reflexivity.
  split.
  { rewrite Hpeople. apply sorted_strict, aggregate_NoDup. }
  split.
  { intros p. rewrite Hpeople.
    rewrite <- aggregate_people. split; intros H.
    - exact (Permutation_in _ (sorted_perm _) H).
    - exact (Permutation_in _ (Permutation_sym (sorted_perm _)) H). }
  split; [exact Htx|]. split; [exact Hcells|]. split.
  - intros i j Hi Hj Hne.
    change (transactions (netted r)) with (transactions (net m people)).
    rewrite Htx, net_transfers_In. split.
    + intros (i' & j' & _ & _ & _ & Hgt & Heq).
      injection Heq as -> -> _. exact Hgt.
    + intros Hgt. exists i, j. repeat split; assumption.
  - intros debtor creditor amt Hin.
    change (transactions (netted r)) with (transactions (net m people)) in Hin.
    rewrite Htx in Hin. apply net_transfers_In in Hin
      as (i & j & _ & _ & _ & Hgt & Heq).
    injection Heq as -> -> ->. split; [exact Hgt|reflexivity].
Qed.

(** C2. Aggregation handles the entries one after the other.  For an entry
    the share is [amount / len(share_list)]; the cell
    [transfer[currency][p][payer]] of every sharer [p] other than the payer
    grows by one share for each time [p] stands in the share list, and no
    other cell changes.  An entry with an empty share list leaves the state
    as it is, wherever it stands in the list. *)
Theorem aggregation_adds_equal_shares (participants : list string)
  (entries : list (entry float)) (e : entry float) :
  aggregate participants (entries ++ [e])
  = entry_step (aggregate participants entries) e
  /\ share_amt e
     = PrimFloat.div (amount e)
         (PrimFloat.of_uint63 (Uint63.of_Z (Z.of_nat (length (share e)))))
  /\ (forall st curr p creditor,
        cell3 (transfer (entry_step st e)) curr p creditor =
        if String.eqb (currency e) curr && String.eqb (payer e) creditor
           && negb (String.eqb p (payer e))
        then add_times (count_occ string_dec (share e) p) (share_amt e)
               (cell3 (transfer st) curr p creditor)
        else cell3 (transfer st) curr p creditor)
  /\ (share e = [] ->
      (forall st, entry_step st e = st)
      /\ forall before after,
           aggregate participants (before ++ e :: after)
           = aggregate participants (before ++ after)).
Proof.
  split; [apply aggregate_snoc|]. split; [reflexivity|].
  split; [intros st curr p creditor; apply entry_step_cell|].
  intros Hempty. split.
  - intros st. now apply entry_step_empty.
  - intros before after. now apply aggregate_skip.
Qed.

Example aggregation_of_scenario_B :
  transfer (aggregate ["Alice"; "Bob"] [alice_pays_120; bob_pays_100])
  = [("英镑", [("Bob", [("Alice", 60%float)]);
               ("Alice", [("Bob", 50%float)])])].
Proof. vm_compute. reflexivity. Qed.

(** C3, as the specification states it, fails: with no rate for "USD" the
    conversion still produces the unified matrix, the amount taken at 1:1. *)
Lemma missing_rate_still_converts :
  lookup default_rates "USD" = None
  /\ unified (settle default_rates ["Alice"; "Bob"] [lunch_in_dollars])
     = [("Bob", [("Alice", 100%float)])]
  /\ transactions
       (netted (settle default_rates ["Alice"; "Bob"] [lunch_in_dollars]))
     = [("Bob", "Alice", 100%float)].
Proof. vm_compute. repeat split; reflexivity. Qed.

(** C3, amended.  The conversion never fails: a currency the rate table does
    not list is converted with the factor 1.0, exactly as if the table listed
    it with that rate. *)
Theorem missing_rate_defaults_to_one (conversion_rates : dict float)
  (transfer : dict (matrix float)) (curr : string) :
  lookup conversion_rates curr = None ->
  rate_of conversion_rates curr = 1%float
  /\ normalize conversion_rates transfer
     = normalize (setitem curr 1%float conversion_rates) transfer.
Proof.
  intros Hnone. split.
  - unfold rate_of, get_or. now rewrite Hnone.
  - apply normalize_ext. intros c. unfold rate_of, get_or.
    rewrite lookup_setitem.
    destruct (String.eqb_spec curr c) as [<-|_]; [now rewrite Hnone|].
    reflexivity.
Qed.

Lemma missing_rate_defaults_to_one_witness :
  rate_of default_rates "USD" = 1%float
  /\ normalize default_rates
       (transfer (aggregate ["Alice"; "Bob"] [lunch_in_dollars]))
     = normalize (setitem "USD" 1%float default_rates)
         (transfer (aggregate ["Alice"; "Bob"] [lunch_in_dollars])).
Proof.
  apply (missing_rate_defaults_to_one default_rates
           (transfer (aggregate ["Alice"; "Bob"] [lunch_in_dollars])) "USD").
  reflexivity.
Defined.

(** C4, as the specification states it, fails: a non-positive amount is
    aggregated like any other. *)
Lemma negative_amount_is_aggregated :
  PrimFloat.leb (amount refund) 0%float = true
  /\ transfer (aggregate ["Alice"; "Bob"] [refund])
     = [("英镑", [("Bob", [("Alice", (-50)%float)])])].
Proof. vm_compute. split; reflexivity. Qed.

(** C4, amended.  A row whose amount does not parse as a number is skipped
    by [on_submit]: the globals it leaves and the report it returns are those
    of the table without that row, so the row reaches no matrix.  An amount
    that parses is kept, whatever its sign. *)
Theorem unparseable_amount_is_skipped
  (parse_float : string -> option float) (conversion_rates : dict float)
  (g : globals float) (current_participants : list string)
  (before after : list (list string)) (row : list string) :
  (parse_float (nth 4 row "") = None ->
   read_row parse_float row = @Skipped float
   /\ on_submit parse_float conversion_rates g current_participants
        (before ++ row :: after)
      = on_submit parse_float conversion_rates g current_participants
          (before ++ after))
  /\ (forall x, parse_float (nth 4 row "") = Some x -> 5 < length row ->
      exists sharers,
        read_row parse_float row
        = Accepted
            (mkEntry (nth 0 row "") (nth 1 row "") (nth 2 row "")
               (nth 3 row "") x sharers)).
Proof.
  split.
  - intros Hparse.
    assert (Hskip : read_row parse_float row = @Skipped float).
    { unfold read_row. destruct (length row <? 5); [reflexivity|].
      now rewrite Hparse. }
    split; [exact Hskip|].
    unfold on_submit.
    assert (Hrows : forall acc,
      read_rows parse_float (before ++ row :: after) acc
      = read_rows parse_float (before ++ after) acc).
    { induction before as [|r before IH]; intros acc; simpl.
      - now rewrite Hskip.
      - destruct (read_row parse_float r); [apply IH|apply IH|reflexivity]. }
    now rewrite Hrows.
  - intros x Hparse Hlen. unfold read_row.
    assert (H5 : (length row <? 5) = false) by (apply Nat.ltb_ge; lia).
    rewrite H5, Hparse.
    destruct (6 <? length row).
    + eexists. reflexivity.
    + destruct (nth_error row 5) as [cell5|] eqn:E.
      * eexists. reflexivity.
      * apply nth_error_None in E. lia.
Qed.

Lemma unparseable_amount_is_skipped_witness :
  read_row parse_sample ["d"; "r"; "Alice"; "英镑"; "abc"; "Alice,Bob"]
  = @Skipped float
  /\ on_submit parse_sample default_rates (mkGlobals [] []) ["Alice"; "Bob"]
       ([] ++ ["d"; "r"; "Alice"; "英镑"; "abc"; "Alice,Bob"]
           :: tl sample_rows)
     = on_submit parse_sample default_rates (mkGlobals [] []) ["Alice"; "Bob"]
         ([] ++ tl sample_rows).
Proof.
  apply (unparseable_amount_is_skipped parse_sample default_rates
           (mkGlobals [] []) ["Alice"; "Bob"] [] (tl sample_rows)
           ["d"; "r"; "Alice"; "英镑"; "abc"; "Alice,Bob"]).
  reflexivity.
Defined.

Example rows_of_on_submit :
  read_rows parse_sample sample_rows []
  = ([mkEntry "d" "r" "Alice" "英镑" 3%float ["Alice"; "Bob"];
      mkEntry "d" "r" "Bob" "英镑" 3%float ["Alice"; "Bob"]], true).
Proof. vm_compute. reflexivity. Qed.

(** The two rows that are kept cancel each other: the report is the
    "no valid data" message. *)
Example report_of_on_submit :
  snd (on_submit parse_sample default_rates (mkGlobals [] []) ["Alice"; "Bob"]
         sample_rows)
  = Some no_data_message.
Proof. vm_compute. reflexivity. Qed.

(** C5. Every amount of every currency matrix is multiplied by the rate of
    its currency and added, currency after currency, to the cell of the
    unified matrix under the same (debtor, creditor) key; a key no currency
    matrix holds stays absent.  The rate of a currency is the one the table
    [conversion_rates] lists for it (1.0 when it lists none).  A single
    amount comes out as [0.0 + amount * rate]; with a table that gives the
    currency the rate 0.5, an amount of 100 comes out as exactly 50. *)
Theorem normalization_multiplies_and_accumulates
  (conversion_rates : dict float) (transfer : dict (matrix float))
  (debtor creditor : string) :
  all_well_formed transfer = true ->
  let rate := fun curr : string =>
    match lookup conversion_rates curr with
    | Some r => r
    | None => 1%float
    end in
  cell_opt (normalize conversion_rates transfer) debtor creditor
  = (if owed_somewhere transfer debtor creditor
     then Some (fold_left
                  (fun x (cm : string * matrix float) =>
                     match cell_opt (snd cm) debtor creditor with
                     | Some amt =>
                         PrimFloat.add x (PrimFloat.mul amt (rate (fst cm)))
                     | None => x
                     end)
                  transfer 0%float)
     else None)
  /\ (forall curr amt,
        normalize conversion_rates [(curr, [(debtor, [(creditor, amt)])])]
        = [(debtor,
            [(creditor,
              PrimFloat.add 0%float (PrimFloat.mul amt (rate curr)))])])
  /\ (forall curr,
        normalize (setitem curr 0.5%float conversion_rates)
          [(curr, [(debtor, [(creditor, 100%float)])])]
        = [(debtor, [(creditor, 50%float)])]).
Proof.
  intros Hwf rate. split; [|split].
  - exact (normalize_cell conversion_rates transfer debtor creditor Hwf).
  - intros curr amt. reflexivity.
  - intros curr. unfold normalize, rate_of, get_or. simpl.
    rewrite lookup_setitem_same. reflexivity.
Qed.

Lemma normalization_multiplies_and_accumulates_witness :
  let rate := fun curr : string =>
    match lookup [("X", 0.5%float)] curr with
    | Some r => r
    | None => 1%float
    end in
  cell_opt
    (normalize [("X", 0.5%float)]
       [("X", [("Bob", [("Alice", 100%float)])]);
        ("英镑", [("Bob", [("Alice", 7%float)])])])
    "Bob" "Alice"
  = (if owed_somewhere
          [("X", [("Bob", [("Alice", 100%float)])]);
           ("英镑", [("Bob", [("Alice", 7%float)])])]
          "Bob" "Alice"
     then Some (fold_left
                  (fun x (cm : string * matrix float) =>
                     match cell_opt (snd cm) "Bob" "Alice" with
                     | Some amt =>
                         PrimFloat.add x (PrimFloat.mul amt (rate (fst cm)))
                     | None => x
                     end)
                  [("X", [("Bob", [("Alice", 100%float)])]);
                   ("英镑", [("Bob", [("Alice", 7%float)])])]
                  0%float)
     else None)
  /\ (forall curr amt,
        normalize [("X", 0.5%float)] [(curr, [("Bob", [("Alice", amt)])])]
        = [("Bob",
            [("Alice",
              PrimFloat.add 0%float (PrimFloat.mul amt (rate curr)))])])
  /\ (forall curr,
        normalize (setitem curr 0.5%float [("X", 0.5%float)])
          [(curr, [("Bob", [("Alice", 100%float)])])]
        = [("Bob", [("Alice", 50%float)])]).
Proof.
  apply (normalization_multiplies_and_accumulates [("X", 0.5%float)]
           [("X", [("Bob", [("Alice", 100%float)])]);
            ("英镑", [("Bob", [("Alice", 7%float)])])]
           "Bob" "Alice").
  reflexivity.
Defined.

(** The cell of the sample above: 100 * 0.5 + 7 * 1.0, the pound having no
    line in that table. *)
Example normalization_of_two_currencies :
  cell_opt
    (normalize [("X", 0.5%float)]
       [("X", [("Bob", [("Alice", 100%float)])]);
        ("英镑", [("Bob", [("Alice", 7%float)])])])
    "Bob" "Alice"
  = Some 57%float.
Proof. vm_compute. reflexivity. Qed.

Example scenario_C :
  unified (settle [("X", 0.5%float)] ["Alice"; "Bob"]
             [mkEntry "" "" "Alice" "X" 100%float ["Bob"]])
  = [("Bob", [("Alice", 50%float)])].
Proof. vm_compute. reflexivity. Qed.

(** One pound shared by ten: the shares add up to 0.9999999999999999, the
    float just below 1.0. *)
Example ten_shares_of_a_pound :
  owed_total ten_way_split = 0x1.fffffffffffffp-1%float.
Proof. vm_compute. reflexivity. Qed.


Lemma owed_total_add_times (e : entry float) :
  owed_total e = add_times (length (share e)) (share_amt e) 0%float.
Proof.
  unfold owed_total. generalize (share_amt e). intros s.
  change zero with 0%float. generalize 0%float.
  induction (share e) as [|p l IH]; intros acc; [reflexivity|].
  cbn [map fold_left length add_times]. apply IH.
Qed.

Section Conservation.

Local Open Scope R_scope.

Lemma shares_sum_bound (e : entry float) :
  (1 <= Z.of_nat (length (share e)) <= 1000000)%Z ->
  PrimFloat.leb 0x1p-1000%float (amount e) = true ->
  PrimFloat.leb (amount e) 0x1p+1000%float = true ->
  0 < exact (owed_total e)
  /\ Rabs (exact (owed_total e) - exact (amount e))
     <= (INR (length (share e)) + 1) * / 9007199254740992
        * exact (amount e).
Proof.
  intros Hn Hlo Hhi.
  destruct (amount_range _ Hlo Hhi) as (ma & ea & Ha & Hda & Hea).
  destruct (of_len_exact _ Hn) as (mb & eb & Hb & Hvb).
  rewrite owed_total_add_times. unfold share_amt.
  change (div (amount e) (of_len (length (share e))))
    with (amount e / of_uint63 (of_Z (Z.of_nat (length (share e)))))%float.
  set (n := length (share e)) in *.
  set (A := value ma ea).
  assert (HA : 0 < A) by apply value_pos.
  assert (Hn1 : 1 <= INR n).
  { change 1 with (INR 1). apply le_INR. lia. }
  assert (HnN : INR n <= 1000000).
  { rewrite INR_IZR_INZ. apply IZR_le. lia. }
  (* the share *)
  destruct (div_float (amount e) (of_uint63 (of_Z (Z.of_nat n)))
              ma ea mb eb Ha Hb) as (ms & es & Hs & HS).
  { destruct (value_mag mb eb) as [Blo Bhi]. rewrite Hvb in Blo, Bhi.
    assert (H1 : (Zpos (digits2_pos mb) + eb - 1 < 20)%Z).
    { apply pow2R_lt_inv. rewrite (pow2R_IZR 20) by lia.
      change (2 ^ 20)%Z with 1048576%Z. lra. }
    assert (H2 : (0 < Zpos (digits2_pos mb) + eb)%Z).
    { apply pow2R_lt_inv. rewrite pow2R_0. lra. }
    lia. }
  fold A in HS. rewrite Hvb in HS.
  set (q := A / INR n) in *.
  assert (Hq : 0 < q) by (unfold q; apply Rdiv_lt_0_compat; lra).
  assert (Hnq : INR n * q = A) by (unfold q; field; lra).
  assert (HqA : q <= A).
  { rewrite <- Hnq. replace q with (1 * q) at 1 by lra.
    apply Rmult_le_compat_r; lra. }
  assert (HAmax : A < pow2 1001).
  { destruct (value_mag ma ea) as [_ Ahi]. fold A in Ahi.
    eapply Rlt_le_trans; [exact Ahi|]. apply pow2R_le. lia. }
  rewrite pow2R_m53 in HS.
  (* the sum: the first share is added to 0.0, the others follow *)
  destruct n as [|r] eqn:En; [simpl in Hn; lia|].
  cbn [add_times]. change (@add float float_arith) with PrimFloat.add.
  rewrite (add_zero_float _ _ _ Hs).
  destruct (accumulate _ ms es q (S r) Hs Hq HS) with (r := r) (j := 1%nat)
    (x := (amount e / of_uint63 (of_Z (Z.of_nat (S r))))%float)
    (mx := ms) (ex := es) as (m & e' & Hr & Hb').
  - apply Rlt_trans with (pow2 1003); [|apply pow2R_lt; lia].
    replace (pow2 1003) with (4 * pow2 1001).
    + lra.
    + replace 1003%Z with (1001 + 2)%Z by lia. rewrite pow2R_add.
      rewrite (pow2R_IZR 2) by lia. change (2 ^ 2)%Z with 4%Z. lra.
  - lia.
  - lia.
  - lia.
  - exact Hs.
  - change (INR 1) with 1.
    replace ((1 * 1 + 1 - 1) * / 9007199254740992 * q)
      with (/ 9007199254740992 * q) by lra.
    replace (1 * q) with q by lra. exact HS.
  - replace (1 + r)%nat with (S r) in Hb' by lia.
    rewrite (exact_finite _ _ _ Hr), (exact_finite _ _ _ Ha). fold A.
    apply Rabs_le_between in Hb'. rewrite Hnq in Hb'.
    assert (Hnnq : INR (S r) * INR (S r) * q = INR (S r) * A).
    { rewrite Rmult_assoc, Hnq. reflexivity. }
    split.
    + assert (HnA : INR (S r) * A <= 1000000 * A)
        by (apply Rmult_le_compat_r; lra).
      lra.
    + apply Rabs_le. lra.
Qed.



End Conservation.

(** With twenty sharers at most and an amount up to a hundred thousand, the
    distance stays below 1e-9. *)
Corollary small_bill_shares_within_threshold (e : entry float) :
  (1 <= Z.of_nat (length (share e)) <= 20)%Z ->
  PrimFloat.leb 0x1p-1000%float (amount e) = true ->
  PrimFloat.leb (amount e) 0x1p+1000%float = true ->
  (exact (amount e) <= 100000)%R ->
  (Rabs (exact (owed_total e) - exact (amount e)) < 1 / 10 ^ 9)%R.
Proof.
  intros Hn Hlo Hhi Hsmall.
  destruct (shares_sum_bound e ltac:(lia) Hlo Hhi) as [_ Hb].
  assert (Hn' : (INR (length (share e)) <= 20)%R).
  { rewrite INR_IZR_INZ. apply IZR_le. lia. }
  assert (Hpos : (0 <= INR (length (share e)))%R) by apply pos_INR.
  assert (Ha : (0 < exact (amount e))%R).
  { destruct (amount_range _ Hlo Hhi) as (ma & ea & Ha & _).
    rewrite (exact_finite _ _ _ Ha). apply value_pos. }
  eapply Rle_lt_trans; [exact Hb|].
  apply Rle_lt_trans with (21 * / 9007199254740992 * 100000)%R; [|lra].
  apply Rmult_le_compat; lra.
Qed.

(** C7. No transfer goes from a person to that same person, and no matrix
    of the computation holds a key (debtor, creditor) with debtor = creditor:
    neither the matrices per currency, nor the unified matrix (before the
    netting loop and after it), nor the dense matrix. *)
Theorem no_self_edges (conversion_rates : dict float)
  (participants : list string) (entries : list (entry float)) :
  let r := settle conversion_rates participants entries in
  all_self_edge_free (per_currency r) = true
  /\ self_edge_free (unified r) = true
  /\ self_edge_free (net_transfer (netted r)) = true
  /\ self_edge_free (reduced_matrix (netted r)) = true
  /\ forallb (fun t : transaction float =>
                negb (String.eqb (fst (fst t)) (snd (fst t))))
             (transactions (netted r)) = true.
Proof.
  intros r.
  destruct (aggregate_invariants participants entries) as [_ Hagg].
  assert (Hunified : self_edge_free (unified r) = true)
    by (apply normalize_self_edge_free; exact Hagg).
  destruct (net_rows_self_edge_free (people_list r) (people_list r)
              (mkNet (unified r) [] []) Hunified eq_refl) as [Hnt Hred].
  split; [exact Hagg|]. split; [exact Hunified|].
  split; [exact Hnt|]. split; [exact Hred|].
  apply forallb_forall. intros [[d c] a] Hin. simpl.
  destruct (net_spec (unified r) (people_list r)) as (_ & Htx & _).
  change (transactions (netted r))
    with (transactions (net (unified r) (people_list r))) in Hin.
  rewrite Htx in Hin.
  apply net_transfers_In in Hin as (i & j & _ & _ & Hne & _ & Heq).
  injection Heq as -> -> _.
  apply String.eqb_neq in Hne. now rewrite Hne.
Qed.

(** C8. The settlement is a function of the entries, the participants and
    the rate table alone.  The order in which [sorted] happens to read the
    set of people does not show in the result, and [on_submit] overwrites the
    module-level lists, so what an earlier run left in them does not show
    either: two runs on the same inputs give the same matrices, the same
    transfer list and the same report. *)
Theorem settlement_is_deterministic
  (enumerate1 enumerate2 : list string -> list string)
  (conversion_rates : dict float) (participants : list string)
  (entries : list (entry float)) :
  (forall s, Permutation (enumerate1 s) s) ->
  (forall s, Permutation (enumerate2 s) s) ->
  settle_with enumerate1 conversion_rates participants entries
  = settle_with enumerate2 conversion_rates participants entries
  /\ forall parse_float (g1 g2 : globals float) rows,
       on_submit parse_float conversion_rates g1 participants rows
       = on_submit parse_float conversion_rates g2 participants rows.
Proof.
  intros H1 H2. split; [|reflexivity].
  unfold settle_with.
  now rewrite (sorted_permutation _ _ (H1 _)), (sorted_permutation _ _ (H2 _)).
Qed.

Lemma settlement_is_deterministic_witness :
  settle_with (@rev string) default_rates ["Bob"; "Alice"]
    [alice_pays_120; bob_pays_100]
  = settle_with (fun s => s) default_rates ["Bob"; "Alice"]
      [alice_pays_120; bob_pays_100]
  /\ forall parse_float (g1 g2 : globals float) rows,
       on_submit parse_float default_rates g1 ["Bob"; "Alice"] rows
       = on_submit parse_float default_rates g2 ["Bob"; "Alice"] rows.
Proof.
  apply (settlement_is_deterministic (@rev string) (fun s => s)).
  - intros s. apply Permutation_sym, Permutation_rev.
  - intros s. apply Permutation_refl.
Defined.

(** ** A run without transfers *)

Section QuietFacts.

Context {num : Type} {A : Arith num}.
Implicit Types (st : net_state num) (m : matrix num).

Lemma Forall_setitem {V : Type} (P : string * V -> Prop) (d : dict V) k
  (w : V) :
  Forall P d -> P (k, w) -> Forall P (setitem k w d).
Proof.
  intros Hd Hk. induction Hd as [|[k' w'] d Hx Hd IH]; simpl.
  - now constructor.
  - destruct (String.eqb_spec k' k) as [->|Hne]; now constructor.
Qed.

Lemma all_zero_set_cell m d c :
  all_zero m -> all_zero (set_cell m d c zero).
Proof.
  intros Hm. unfold all_zero, set_cell.
  apply Forall_setitem; [exact Hm|]. simpl.
  apply Forall_setitem; [|reflexivity].
  unfold get_or. destruct (lookup m d) as [row|] eqn:Hrow; [|constructor].
  apply lookup_in in Hrow. unfold all_zero in Hm.
  rewrite Forall_forall in Hm. apply (Hm _ Hrow).
Qed.

Lemma net_step_quiet d st c :
  transactions (net_step d st c) = [] ->
  transactions st = []
  /\ (all_zero (reduced_matrix st) ->
      all_zero (reduced_matrix (net_step d st c))).
Proof.
  unfold net_step. destruct (String.eqb d c); [tauto|].
  destruct (gt_eps _); simpl.
  - intros H. apply app_eq_nil in H as [_ H]. discriminate.
  - intros H. split; [exact H|]. apply all_zero_set_cell.
Qed.

Lemma net_row_quiet d l : forall st,
  transactions (net_row l st d) = [] ->
  transactions st = []
  /\ (all_zero (reduced_matrix st) ->
      all_zero (reduced_matrix (net_row l st d))).
Proof.
  unfold net_row.
  induction l as [|c l IH]; intros st H; simpl in *; [tauto|].
  destruct (IH _ H) as [H1 H2].
  destruct (net_step_quiet d st c H1) as [H3 H4].
  split; [exact H3|]. intros Hz. apply H2, H4, Hz.
Qed.

Lemma net_rows_quiet people l : forall st,
  transactions (fold_left (net_row people) l st) = [] ->
  transactions st = []
  /\ (all_zero (reduced_matrix st) ->
      all_zero (reduced_matrix (fold_left (net_row people) l st))).
Proof.
  induction l as [|d l IH]; intros st H; simpl in *; [tauto|].
  destruct (IH _ H) as [H1 H2].
  destruct (net_row_quiet d people st H1) as [H3 H4].
  split; [exact H3|]. intros Hz. apply H2, H4, Hz.
Qed.

Lemma net_quiet nt people :
  transactions (net nt people) = [] ->
  all_zero (reduced_matrix (net nt people)).
Proof.
  intros H. unfold net in *.
  destruct (net_rows_quiet people people _ H) as [_ Hz].
  apply Hz. constructor.
Qed.

Lemma flat_map_nil {X Y : Type} (f : X -> list Y) (l : list X) :
  (forall x, f x = []) -> flat_map f l = [].
Proof.
  intros H. induction l as [|x l IH]; simpl; [reflexivity|].
  now rewrite H, IH.
Qed.

Lemma aggregate_no_sharers participants (es : list (entry num)) :
  (forall e, In e es -> share e = []) ->
  aggregate participants es = mkAgg [] (set_of participants).
Proof.
  unfold aggregate. generalize (mkAgg (@nil (string * matrix num))
                                  (set_of participants)).
  induction es as [|e es IH]; intros st H; simpl; [reflexivity|].
  rewrite entry_step_empty by (apply H; now left).
  apply IH. intros e' He'. apply H. now right.
Qed.

End QuietFacts.

Lemma sum_of_zeros (row : dict float) :
  Forall (fun c : string * float => snd c = 0%float) row ->
  sum_values row = 0%float.
Proof.
  unfold sum_values, values.
  induction 1 as [|[k v] row Hv _ IH]; [reflexivity|].
  simpl in *. subst v. exact IH.
Qed.

Lemma all_zero_no_positive_row (m : matrix float) :
  all_zero m -> any_positive_row m = false.
Proof.
  unfold all_zero, any_positive_row, values.
  induction 1 as [|[k row] m Hrow _ IH]; [reflexivity|].
  simpl in *. now rewrite (sum_of_zeros row Hrow), IH.
Qed.

(** Without a transfer the report is the "no valid data" message. *)
Lemma no_transfer_no_data (nt : matrix float) (people : list string) :
  transactions (net nt people) = [] ->
  render people (reduced_matrix (net nt people)) (transactions (net nt people))
  = no_data_message.
Proof.
  intros H. unfold render. rewrite H. simpl.
  now rewrite (all_zero_no_positive_row _ (net_quiet nt people H)).
Qed.

Lemma net_transfers_of_nothing (people : list string) :
  net_transfers (@nil (string * dict float)) people = [].
Proof.
  unfold net_transfers. apply flat_map_nil. intros i.
  apply flat_map_nil. intros j. unfold pair_transfers.
  destruct (String.eqb i j); reflexivity.
Qed.

(** The participants of the netting are the registered people and the
    sharers of the entries: there is none exactly when nobody is registered
    and no entry names a sharer. *)
Lemma nobody_to_settle_between (conversion_rates : dict float)
  (participants : list string) (entries : list (entry float)) :
  people_list (settle conversion_rates participants entries) = []
  <-> participants = [] /\ forall e, In e entries -> share e = [].
Proof.
  destruct (netting_people_facts conversion_rates participants entries)
    as (Hmem & _).
  split.
  - intros Hnil. rewrite Hnil in Hmem. split.
    + destruct participants as [|p ps]; [reflexivity|].
      exfalso. apply (proj2 (Hmem p)). left. left. reflexivity.
    + intros e He. destruct (share e) as [|p l] eqn:Es; [reflexivity|].
      exfalso. apply (proj2 (Hmem p)). right. exists e.
      split; [exact He|]. rewrite Es. left. reflexivity.
  - intros [-> Hshare].
    destruct (people_list (settle conversion_rates [] entries)) as [|p l];
      [reflexivity|].
    exfalso. destruct (proj1 (Hmem p) (or_introl eq_refl)) as [[]|(e & He & Hp)].
    rewrite (Hshare e He) in Hp. destruct Hp.
Qed.

(** With nobody registered, the sharers of an entry (loaded from the file,
    say) are the participants of the netting. *)
Example sharers_are_participants :
  people_list (settle default_rates [] [alice_pays_100]) = ["Alice"; "Bob"]
  /\ transactions (netted (settle default_rates [] [alice_pays_100]))
     = [("Bob", "Alice", 50%float)].
Proof. vm_compute. split; reflexivity. Qed.

(** C9.  With no entry at all, or with no participant (nobody registered
    and no sharer in any entry, so that the participant list of the netting
    is empty), the computation returns an empty transfer list and the
    "no valid data" report. *)
Theorem nothing_to_settle (conversion_rates : dict float)
  (participants : list string) (entries : list (entry float)) :
  entries = []
  \/ (participants = [] /\ forall e, In e entries -> share e = []) ->
  transactions (netted (settle conversion_rates participants entries)) = []
  /\ compute_result conversion_rates participants entries = no_data_message.
Proof.
  intros H.
  assert (Htx : transactions
                  (netted (settle conversion_rates participants entries))
                = []).
  { destruct H as [->|[-> Hshare]].
    - destruct (net_spec (@nil (string * dict float))
                  (sorted (set_of participants))) as (_ & Htx & _).
      change (transactions (netted (settle conversion_rates participants [])))
        with (transactions
                (net (@nil (string * dict float))
                   (sorted (set_of participants)))).
      rewrite Htx. apply net_transfers_of_nothing.
    - unfold settle, settle_with.
      rewrite (aggregate_no_sharers [] entries Hshare). reflexivity. }
  split; [exact Htx|].
  unfold compute_result, settle, settle_with in *. cbn [html_result].
  cbn [netted] in Htx.
  now apply no_transfer_no_data.
Qed.

Lemma nothing_to_settle_witness :
  transactions (netted (settle default_rates ["Alice"; "Bob"] [])) = []
  /\ compute_result default_rates ["Alice"; "Bob"] [] = no_data_message.
Proof.
  apply (nothing_to_settle default_rates ["Alice"; "Bob"] []).
  left. reflexivity.
Defined.

(** ** What is recorded for a payer *)

Section PresenceFacts.

Context {num : Type} {A : Arith num}.
Implicit Types (T : dict (matrix num)) (e : entry num).

Lemma share_fold_present e c d q l : forall st,
  cell3_opt (transfer st) c d q <> None
  \/ (c = currency e /\ q = payer e /\ d <> payer e /\ In d l) ->
  cell3_opt (transfer (fold_left (share_step e) l st)) c d q <> None.
Proof.
  induction l as [|p l IH]; intros st H.
  - simpl. destruct H as [H|(_ & _ & _ & [])]. exact H.
  - cbn [fold_left]. apply IH. unfold share_step.
    destruct (String.eqb_spec p (payer e)) as [Hp|Hp]; cbn [transfer].
    + destruct H as [H|(Hc & Hq & Hd & [Hin|Hin])].
      * now left.
      * exfalso. apply Hd. congruence.
      * right. tauto.
    + rewrite cell3_opt_add_transfer.
      destruct (String.eqb (currency e) c
                && (String.eqb p d && String.eqb (payer e) q)) eqn:E.
      * left. discriminate.
      * destruct H as [H|(Hc & Hq & Hd & [Hin|Hin])].
        -- now left.
        -- subst c q p. rewrite !String.eqb_refl in E. discriminate.
        -- right. tauto.
Qed.

Lemma entry_step_present st e c d q :
  cell3_opt (transfer st) c d q <> None
  \/ (c = currency e /\ q = payer e /\ d <> payer e /\ In d (share e)) ->
  cell3_opt (transfer (entry_step st e)) c d q <> None.
Proof.
  intros H. unfold entry_step. destruct (share e) as [|p l] eqn:E.
  - simpl. destruct H as [H|(_ & _ & _ & [])]. exact H.
  - cbn [length Nat.eqb]. rewrite <- E. rewrite <- E in H.
    now apply share_fold_present.
Qed.

Lemma fold_entries_present (es : list (entry num)) c d q : forall st,
  cell3_opt (transfer st) c d q <> None
  \/ (exists e, In e es /\ c = currency e /\ q = payer e /\ d <> payer e
                /\ In d (share e)) ->
  cell3_opt (transfer (fold_left entry_step es st)) c d q <> None.
Proof.
  induction es as [|e es IH]; intros st H.
  - simpl. destruct H as [H|[e [[] _]]]. exact H.
  - cbn [fold_left]. apply IH.
    destruct H as [H|[e' [[<-|Hin] H]]].
    + left. apply entry_step_present. now left.
    + left. apply entry_step_present. now right.
    + right. exists e'. tauto.
Qed.

Lemma owed_somewhere_of_cell T c d q :
  cell3_opt T c d q <> None -> owed_somewhere T d q = true.
Proof.
  unfold cell3_opt, owed_somewhere. intros H.
  destruct (lookup T c) as [m|] eqn:Hm; [|congruence].
  apply lookup_in in Hm. apply existsb_exists.
  exists (c, m). split; [exact Hm|]. simpl.
  now destruct (cell_opt m d q).
Qed.

(** What a sharer owes a payer is in the unified matrix. *)
Lemma sharer_debt_recorded rates participants (es : list (entry num)) e p :
  In e es -> In p (share e) -> p <> payer e ->
  cell_opt (normalize rates (transfer (aggregate participants es)))
    p (payer e) <> None.
Proof.
  intros He Hp Hne.
  destruct (aggregate_invariants participants es) as [Hwf _].
  rewrite (normalize_cell rates _ p (payer e) Hwf).
  rewrite (owed_somewhere_of_cell _ (currency e)); [discriminate|].
  unfold aggregate. apply fold_entries_present.
  right. exists e. tauto.
Qed.

End PresenceFacts.

(** C10. A payer who is neither registered nor named in any share list is
    not in the participant order.  No transfer names that payer, the dense
    matrix has no cell in the payer's row or column, and what the sharers of
    the entry owe the payer, though held by the unified matrix, does not
    reach the output. *)
Theorem outside_payer_is_dropped (conversion_rates : dict float)
  (participants : list string) (entries : list (entry float))
  (e : entry float) :
  In e entries ->
  ~ In (payer e) participants ->
  (forall e', In e' entries -> ~ In (payer e) (share e')) ->
  let r := settle conversion_rates participants entries in
  ~ In (payer e) (people_list r)
  /\ (forall debtor creditor amt,
        In (debtor, creditor, amt) (transactions (netted r)) ->
        debtor <> payer e /\ creditor <> payer e)
  /\ (forall k,
        cell_opt (reduced_matrix (netted r)) (payer e) k = None
        /\ cell_opt (reduced_matrix (netted r)) k (payer e) = None)
  /\ (forall p, In p (share e) -> cell_opt (unified r) p (payer e) <> None).
Proof.
  intros He Hreg Hshare r.
  destruct (netting_people_facts conversion_rates participants entries)
    as (Hpeople & Htx & Hcells).
  fold r in Hpeople, Htx, Hcells.
  assert (Hout : ~ In (payer e) (people_list r)).
  { rewrite Hpeople. intros [H|[e' [H1 H2]]].
    - now apply Hreg.
    - now apply (Hshare e' H1). }
  split; [exact Hout|]. split; [|split].
  - intros debtor creditor amt Hin. rewrite Htx in Hin.
    apply net_transfers_In in Hin as (i & j & Hi & Hj & _ & _ & Heq).
    injection Heq as -> -> _. split; intros ->; contradiction.
  - apply mem_false in Hout. intros k. rewrite !Hcells, Hout.
    split; [reflexivity|]. now rewrite andb_false_r.
  - intros p Hp.
    apply (sharer_debt_recorded conversion_rates participants entries e p He Hp).
    intros ->. now apply (Hshare e He).
Qed.

Lemma outside_payer_is_dropped_witness :
  let r := settle default_rates ["Alice"; "Bob"] [carol_pays_90] in
  ~ In "Carol" (people_list r)
  /\ (forall debtor creditor amt,
        In (debtor, creditor, amt) (transactions (netted r)) ->
        debtor <> "Carol" /\ creditor <> "Carol")
  /\ (forall k,
        cell_opt (reduced_matrix (netted r)) "Carol" k = None
        /\ cell_opt (reduced_matrix (netted r)) k "Carol" = None)
  /\ (forall p, In p ["Alice"; "Bob"] ->
        cell_opt (unified r) p "Carol" <> None).
Proof.
  apply (outside_payer_is_dropped default_rates ["Alice"; "Bob"]
           [carol_pays_90] carol_pays_90).
  - left. reflexivity.
  - simpl. intros [H|[H|[]]]; discriminate H.
  - intros e' [<-|[]]. simpl. intros [H|[H|[]]]; discriminate H.
Defined.

Example outside_payer_report :
  unified (settle default_rates ["Alice"; "Bob"] [carol_pays_90])
  = [("Alice", [("Carol", 45%float)]); ("Bob", [("Carol", 45%float)])]
  /\ compute_result default_rates ["Alice"; "Bob"] [carol_pays_90]
     = no_data_message.
Proof. vm_compute. split; reflexivity. Qed.

(** * Further properties of the program *)

(** ** The rate table of [get_exchange_rates] *)

Lemma fill_rates_form (listed : dict float) :
  fill_rates listed symbol_map [("英镑", 1%float)] =
  match lookup listed "EUR" with
  | Some x =>
      match reciprocal x with
      | Some r =>
          match lookup listed "CNY" with
          | Some y =>
              match reciprocal y with
              | Some r' =>
                  Some [("英镑", 1%float); ("欧元", r); ("人民币", r')]
              | None => None
              end
          | None =>
              match lookup default_rates "人民币" with
              | Some d' =>
                  Some [("英镑", 1%float); ("欧元", r); ("人民币", d')]
              | None => None
              end
          end
      | None => None
      end
  | None =>
      match lookup default_rates "欧元" with
      | Some d =>
          match lookup listed "CNY" with
          | Some y =>
              match reciprocal y with
              | Some r' =>
                  Some [("英镑", 1%float); ("欧元", d); ("人民币", r')]
              | None => None
              end
          | None =>
              match lookup default_rates "人民币" with
              | Some d' =>
                  Some [("英镑", 1%float); ("欧元", d); ("人民币", d')]
              | None => None
              end
          end
      | None => None
      end
  end.
Proof.
  cbn [fill_rates symbol_map].
  change (String.eqb "英镑" "英镑") with true.
  change (String.eqb "欧元" "英镑") with false.
  change (String.eqb "人民币" "英镑") with false.
  cbv iota.
  destruct (lookup listed "EUR") as [x|].
  - destruct (reciprocal x) as [r|]; [|reflexivity].
    destruct (lookup listed "CNY") as [y|].
    + destruct (reciprocal y) as [r'|]; reflexivity.
    + reflexivity.
  - change (lookup default_rates "欧元") with (Some 0x1.b851eb851eb85p-1%float).
    cbv iota.
    destruct (lookup listed "CNY") as [y|].
    + destruct (reciprocal y) as [r'|]; reflexivity.
    + reflexivity.
Qed.

(** X1. Whatever the request brings back, the rate table lists exactly the
    three currencies of the form, pounds at 1.0; so for an entry in one of
    them the conversion never takes the 1:1 rate of an unlisted currency. *)
Theorem rates_cover_the_form (response : option (dict float)) :
  keys (get_exchange_rates response) = ["英镑"; "欧元"; "人民币"]
  /\ lookup (get_exchange_rates response) "英镑" = Some 1%float
  /\ forall curr, In curr ["英镑"; "欧元"; "人民币"] ->
       exists r, lookup (get_exchange_rates response) curr = Some r
                 /\ rate_of (get_exchange_rates response) curr = r.
Proof.
  assert (H : exists r r',
             get_exchange_rates response
             = [("英镑", 1%float); ("欧元", r); ("人民币", r')]).
  { destruct response as [listed|]; [|eexists; eexists; reflexivity].
    unfold get_exchange_rates. rewrite fill_rates_form.
    destruct (lookup listed "EUR") as [x|];
      [destruct (reciprocal x) as [r|]|];
      try (destruct (lookup listed "CNY") as [y|];
           [destruct (reciprocal y) as [r'|]|]);
      eexists; eexists; reflexivity. }
  destruct H as (r & r' & ->).
  split; [reflexivity|]. split; [reflexivity|].
  intros curr [<-|[<-|[<-|[]]]]; eexists; split; reflexivity.
Qed.

(** X2. The request failing, or one zero among the rates of the euro and
    the yuan in the answer, gives the default table as a whole: the other
    rate of the answer is not used either. *)
Theorem zero_rate_discards_the_answer (listed : dict float)
  (symbol : string) (x : float) :
  In symbol ["EUR"; "CNY"] ->
  lookup listed symbol = Some x ->
  PrimFloat.eqb x 0%float = true ->
  get_exchange_rates (Some listed) = default_rates
  /\ get_exchange_rates None = default_rates.
Proof.
  intros Hin Hx Hzero. split; [|reflexivity].
  assert (Hrec : reciprocal x = None) by (unfold reciprocal; now rewrite Hzero).
  unfold get_exchange_rates. rewrite fill_rates_form.
  destruct Hin as [<-|[<-|[]]].
  - now rewrite Hx, Hrec.
  - rewrite Hx, Hrec.
    destruct (lookup listed "EUR") as [y|]; [|reflexivity].
    destruct (reciprocal y); reflexivity.
Qed.

Lemma zero_rate_discards_the_answer_witness :
  get_exchange_rates (Some answer_with_zero) = default_rates
  /\ get_exchange_rates None = default_rates.
Proof.
  apply (zero_rate_discards_the_answer answer_with_zero "CNY" 0%float).
  - right. left. reflexivity.
  - reflexivity.
  - reflexivity.
Defined.

(** X3. When the answer lists no zero for the euro and the yuan, each of
    the two gets the reciprocal of its rate in the answer, or its default
    rate when the answer does not list it. *)
Theorem live_rates_are_reciprocals (listed : dict float) :
  (forall symbol x, In symbol ["EUR"; "CNY"] ->
     lookup listed symbol = Some x -> PrimFloat.eqb x 0%float = false) ->
  get_exchange_rates (Some listed)
  = [("英镑", 1%float);
     ("欧元", match lookup listed "EUR" with
              | Some x => PrimFloat.div 1%float x
              | None => rate_of default_rates "欧元"
              end);
     ("人民币", match lookup listed "CNY" with
                | Some y => PrimFloat.div 1%float y
                | None => rate_of default_rates "人民币"
                end)].
Proof.
  intros H. unfold get_exchange_rates. rewrite fill_rates_form.
  assert (Hrec : forall symbol x, In symbol ["EUR"; "CNY"] ->
            lookup listed symbol = Some x ->
            reciprocal x = Some (PrimFloat.div 1%float x)).
  { intros symbol x Hin Hx. unfold reciprocal. now rewrite (H symbol x Hin Hx). }
  destruct (lookup listed "EUR") as [x|] eqn:Ex.
  - rewrite (Hrec "EUR" x (or_introl eq_refl) Ex).
    destruct (lookup listed "CNY") as [y|] eqn:Ey.
    + now rewrite (Hrec "CNY" y (or_intror (or_introl eq_refl)) Ey).
    + reflexivity.
  - destruct (lookup listed "CNY") as [y|] eqn:Ey.
    + cbv iota. now rewrite (Hrec "CNY" y (or_intror (or_introl eq_refl)) Ey).
    + reflexivity.
Qed.

Lemma live_rates_are_reciprocals_witness :
  get_exchange_rates (Some answer_without_euro)
  = [("英镑", 1%float);
     ("欧元", match lookup answer_without_euro "EUR" with
              | Some x => PrimFloat.div 1%float x
              | None => rate_of default_rates "欧元"
              end);
     ("人民币", match lookup answer_without_euro "CNY" with
                | Some y => PrimFloat.div 1%float y
                | None => rate_of default_rates "人民币"
                end)].
Proof.
  apply (live_rates_are_reciprocals answer_without_euro).
  intros symbol x [<-|[<-|[]]] Hx; vm_compute in Hx.
  - discriminate Hx.
  - injection Hx as <-. reflexivity.
Defined.

(** ** Splitting, joining and stripping texts *)

Section TextFacts.

Lemma split_comma_not_nil s : split_comma s <> [].
Proof.
  destruct s as [|c s]; simpl; [discriminate|].
  destruct (split_comma s); [discriminate|].
  destruct (Ascii.eqb c ","%char); discriminate.
Qed.

Lemma split_comma_comma_free s : comma_free s = true -> split_comma s = [s].
Proof.
  induction s as [|c s IH]; simpl; [reflexivity|].
  intros H. apply andb_true_iff in H as [Hc Hs].
  rewrite (IH Hs). now destruct (Ascii.eqb c ","%char).
Qed.

Lemma split_comma_app x rest :
  comma_free x = true ->
  split_comma (x ++ String ","%char rest) = x :: split_comma rest.
Proof.
  induction x as [|c x IH]; simpl.
  - intros _. destruct (split_comma rest) eqn:E; [|reflexivity].
    now apply split_comma_not_nil in E.
  - intros H. apply andb_true_iff in H as [Hc Hx].
    rewrite (IH Hx). now destruct (Ascii.eqb c ","%char).
Qed.

Lemma join_comma_cons x y l :
  join_comma (x :: y :: l) = (x ++ String ","%char (join_comma (y :: l)))%string.
Proof. reflexivity. Qed.

Lemma split_join l :
  l <> [] -> Forall (fun p => comma_free p = true) l ->
  split_comma (join_comma l) = l.
Proof.
  induction l as [|x l IH]; [congruence|]. intros _ H.
  inversion H as [|? ? Hx Hl]; subst.
  destruct l as [|y l].
  - now apply split_comma_comma_free.
  - rewrite join_comma_cons, (split_comma_app _ _ Hx).
    f_equal. apply IH; [discriminate|exact Hl].
Qed.

(** Bytes and texts. *)
Lemma text_of_bytes_of s : text_of (bytes_of s) = s.
Proof.
  unfold text_of, bytes_of. rewrite map_map.
  rewrite (map_ext _ (fun a => a) ascii_nat_embedding), map_id.
  apply string_of_list_ascii_of_string.
Qed.

Lemma bytes_of_text_of l :
  Forall (fun n => n < 256) l -> bytes_of (text_of l) = l.
Proof.
  intros H. unfold text_of, bytes_of.
  rewrite list_ascii_of_string_of_list_ascii, map_map.
  induction H as [|n l Hn _ IH]; simpl; [reflexivity|].
  now rewrite (nat_ascii_embedding n Hn), IH.
Qed.

Lemma bytes_of_bounded s : Forall (fun n => n < 256) (bytes_of s).
Proof.
  unfold bytes_of. apply Forall_forall. intros n Hn.
  apply in_map_iff in Hn as [a [<- _]]. apply nat_ascii_bounded.
Qed.

Lemma drop_space_shortens : shortens drop_space.
Proof.
  split; [reflexivity|]. intros l l' H.
  destruct l as [|c [|d [|f l]]]; simpl in H; try discriminate.
  - destruct (is_space1 c); [|discriminate]. injection H as <-.
    exists [c]. split; [reflexivity|discriminate].
  - destruct (is_space1 c).
    { injection H as <-. exists [c]. split; [reflexivity|discriminate]. }
    destruct (is_space2 c d); [|discriminate]. injection H as <-.
    exists [c; d]. split; [reflexivity|discriminate].
  - destruct (is_space1 c).
    { injection H as <-. exists [c]. split; [reflexivity|discriminate]. }
    destruct (is_space2 c d).
    { injection H as <-. exists [c; d]. split; [reflexivity|discriminate]. }
    destruct (is_space3 c d f); [|discriminate]. injection H as <-.
    exists [c; d; f]. split; [reflexivity|discriminate].
Qed.

Lemma drop_space_rev_shortens : shortens drop_space_rev.
Proof.
  split; [reflexivity|]. intros l l' H.
  destruct l as [|c [|d [|f l]]]; simpl in H; try discriminate.
  - destruct (is_space1 c); [|discriminate]. injection H as <-.
    exists [c]. split; [reflexivity|discriminate].
  - destruct (is_space1 c).
    { injection H as <-. exists [c]. split; [reflexivity|discriminate]. }
    destruct (is_space2 d c); [|discriminate]. injection H as <-.
    exists [c; d]. split; [reflexivity|discriminate].
  - destruct (is_space1 c).
    { injection H as <-. exists [c]. split; [reflexivity|discriminate]. }
    destruct (is_space2 d c).
    { injection H as <-. exists [c; d]. split; [reflexivity|discriminate]. }
    destruct (is_space3 f d c); [|discriminate]. injection H as <-.
    exists [c; d; f]. split; [reflexivity|discriminate].
Qed.

Lemma drop_while_spec drop : shortens drop ->
  forall fuel l, length l <= fuel ->
    exists p, l = p ++ drop_while drop fuel l
              /\ drop (drop_while drop fuel l) = None.
Proof.
  intros [Hnil Hshort]. induction fuel as [|fuel IH]; intros l Hlen.
  - destruct l; [|simpl in Hlen; lia]. exists []. now split.
  - simpl. destruct (drop l) as [l'|] eqn:E.
    + destruct (Hshort l l' E) as (p & -> & Hp).
      destruct (IH l') as (q & Hq & Hnone).
      { rewrite length_app in Hlen. destruct p; [congruence|].
        simpl in Hlen. lia. }
      exists (p ++ q). split; [|exact Hnone].
      rewrite <- app_assoc. now rewrite <- Hq.
    + exists []. now split.
Qed.

Lemma drop_while_none drop fuel l :
  drop l = None -> drop_while drop fuel l = l.
Proof. intros H. destruct fuel; simpl; [reflexivity|now rewrite H]. Qed.

Lemma drop_space_prefix l t :
  drop_space (l ++ t) = None -> drop_space l = None.
Proof.
  intros H. destruct l as [|c [|d [|f l]]]; simpl in *.
  - reflexivity.
  - destruct (is_space1 c); [discriminate|reflexivity].
  - destruct (is_space1 c); [discriminate|].
    destruct (is_space2 c d); [discriminate|reflexivity].
  - destruct (is_space1 c); [discriminate|].
    destruct (is_space2 c d); [discriminate|].
    destruct (is_space3 c d f); [discriminate|reflexivity].
Qed.

(** What [strip] leaves: a stretch of the bytes of the text with no
    white-space character at either end. *)
Lemma strip_spec s :
  exists pre core post,
    bytes_of s = pre ++ core ++ post
    /\ strip s = text_of core
    /\ drop_space core = None
    /\ drop_space_rev (rev core) = None.
Proof.
  unfold strip.
  destruct (drop_while_spec drop_space drop_space_shortens
              (length (bytes_of s)) (bytes_of s) (le_n _))
    as (pre & Hpre & Hfront).
  set (l1 := drop_while drop_space (length (bytes_of s)) (bytes_of s)) in *.
  destruct (drop_while_spec drop_space_rev drop_space_rev_shortens
              (length l1) (rev l1))
    as (p & Hp & Hback).
  { now rewrite length_rev. }
  set (r := drop_while drop_space_rev (length l1) (rev l1)) in *.
  assert (Hl1 : l1 = rev r ++ rev p).
  { rewrite <- rev_app_distr, <- Hp. now rewrite rev_involutive. }
  exists pre, (rev r), (rev p). repeat split.
  - now rewrite <- Hl1.
  - apply (drop_space_prefix _ (rev p)). now rewrite <- Hl1.
  - now rewrite rev_involutive.
Qed.

Lemma Forall_app_parts {X : Type} (P : X -> Prop) (l1 l2 l3 : list X) :
  Forall P (l1 ++ l2 ++ l3) -> Forall P l2.
Proof.
  intros H. apply Forall_app in H as [_ H]. now apply Forall_app in H as [H _].
Qed.

Lemma strip_idempotent s : strip (strip s) = strip s.
Proof.
  destruct (strip_spec s) as (pre & core & post & Hs & Hstrip & Hf & Hb).
  assert (Hbound : Forall (fun n => n < 256) core).
  { apply (Forall_app_parts _ pre core post). rewrite <- Hs.
    apply bytes_of_bounded. }
  rewrite Hstrip at 1. unfold strip.
  rewrite (bytes_of_text_of core Hbound).
  rewrite (drop_while_none drop_space _ core Hf).
  rewrite (drop_while_none drop_space_rev _ (rev core) Hb).
  now rewrite rev_involutive.
Qed.

Lemma comma_free_bytes s : comma_free s = true <-> ~ In 44 (bytes_of s).
Proof.
  unfold bytes_of. induction s as [|c s IH]; simpl.
  - split; [tauto|reflexivity].
  - rewrite andb_true_iff, IH, negb_true_iff. split.
    + intros [Hc Hs] [H|H]; [|now apply Hs].
      change 44 with (nat_of_ascii ","%char) in H.
      assert (Heq : c = ","%char).
      { rewrite <- (ascii_nat_embedding c), H. apply ascii_nat_embedding. }
      subst c. discriminate Hc.
    + intros H. split.
      * destruct (Ascii.eqb_spec c ","%char) as [->|]; [|reflexivity].
        exfalso. apply H. now left.
      * intros Hs. apply H. now right.
Qed.

Lemma strip_comma_free s : comma_free s = true -> comma_free (strip s) = true.
Proof.
  intros H. apply comma_free_bytes in H. apply comma_free_bytes.
  destruct (strip_spec s) as (pre & core & post & Hs & -> & _ & _).
  assert (Hbound : Forall (fun n => n < 256) core).
  { apply (Forall_app_parts _ pre core post). rewrite <- Hs.
    apply bytes_of_bounded. }
  rewrite (bytes_of_text_of core Hbound). intros Hin. apply H.
  rewrite Hs. apply in_or_app. right. apply in_or_app. now left.
Qed.

Lemma split_comma_pieces s :
  Forall (fun p => comma_free p = true) (split_comma s).
Proof.
  induction s as [|c s IH]; simpl; [repeat constructor|].
  destruct (split_comma s) as [|piece pieces] eqn:Es.
  - now apply split_comma_not_nil in Es.
  - inversion IH as [|? ? Hp Hps]; subst.
    destruct (Ascii.eqb c ","%char) eqn:E.
    + constructor; [reflexivity|now constructor].
    + constructor; [simpl; now rewrite E, Hp|exact Hps].
Qed.

Lemma share_names_In p cells :
  In p (share_names cells) <->
  p <> "" /\ exists c, In c cells /\ strip c = p.
Proof.
  unfold share_names. rewrite filter_In, in_map_iff, negb_true_iff.
  rewrite String.eqb_neq. split.
  - intros [[c [Hc Hin]] Hne]. split; [exact Hne|]. exists c. now split.
  - intros [Hne [c [Hin Hc]]]. split; [|exact Hne]. exists c. now split.
Qed.

Lemma share_names_clean cells : Forall clean (share_names cells).
Proof.
  apply Forall_forall. intros p Hp.
  apply share_names_In in Hp as (Hne & c & _ & <-).
  split; [exact Hne|apply strip_idempotent].
Qed.

Lemma share_names_fixed l : Forall clean l -> share_names l = l.
Proof.
  unfold share_names. induction 1 as [|p l [Hne Hstrip] _ IH]; [reflexivity|].
  simpl. rewrite Hstrip. apply String.eqb_neq in Hne. rewrite Hne. simpl.
  now rewrite IH.
Qed.

Lemma share_names_split_comma_free s :
  Forall (fun p => comma_free p = true) (share_names (split_comma s)).
Proof.
  apply Forall_forall. intros p Hp.
  apply share_names_In in Hp as (_ & c & Hc & <-).
  apply strip_comma_free.
  pose proof (split_comma_pieces s) as H. rewrite Forall_forall in H.
  now apply H.
Qed.

(** The names written as one text come back from it. *)
Lemma share_names_join l :
  Forall clean l -> Forall (fun p => comma_free p = true) l ->
  share_names (split_comma (join_comma l)) = l.
Proof.
  intros Hclean Hcomma. destruct l as [|x l]; [reflexivity|].
  rewrite split_join by (discriminate || assumption).
  now apply share_names_fixed.
Qed.

End TextFacts.

(** ** Reading the rows of the table *)

Section RowFacts.

Context {num : Type} {A : Arith num} {F : Format num}.
Variable parse_float : string -> option num.

Lemma read_rows_app before after : forall acc es,
  read_rows parse_float before acc = (es, true) ->
  read_rows parse_float (before ++ after) acc = read_rows parse_float after es.
Proof.
  induction before as [|r before IH]; intros acc es H; simpl in *.
  - now injection H as ->.
  - destruct (read_row parse_float r); [now apply IH|now apply IH|].
    discriminate.
Qed.

Lemma read_rows_skip before row after : forall acc,
  read_row parse_float row = Skipped ->
  read_rows parse_float (before ++ row :: after) acc
  = read_rows parse_float (before ++ after) acc.
Proof.
  intros acc Hskip. revert acc.
  induction before as [|r before IH]; intros acc; simpl.
  - now rewrite Hskip.
  - destruct (read_row parse_float r); [apply IH|apply IH|reflexivity].
Qed.

(** What an accepted row gives. *)
Lemma read_row_accepted row e :
  read_row parse_float row = Accepted e ->
  6 <= length row
  /\ exists x,
       parse_float (nth 4 row "") = Some x
       /\ e = mkEntry (nth 0 row "") (nth 1 row "") (nth 2 row "")
                (nth 3 row "") x (consumers row).
Proof.
  unfold read_row, consumers.
  destruct (length row <? 5) eqn:E5; [discriminate|].
  apply Nat.ltb_ge in E5.
  destruct (parse_float (nth 4 row "")) as [x|]; [|discriminate].
  destruct (6 <? length row) eqn:E6.
  - apply Nat.ltb_lt in E6. intros [= <-]. split; [lia|].
    exists x. split; [reflexivity|].
    assert (Hne : Nat.eqb (length row) 6 = false) by (apply Nat.eqb_neq; lia).
    now rewrite Hne.
  - apply Nat.ltb_ge in E6.
    destruct (nth_error row 5) as [c|] eqn:E; [|discriminate].
    intros [= <-].
    assert (Hlen : length row = 6).
    { assert (5 < length row) by (apply nth_error_Some; congruence). lia. }
    split; [lia|]. exists x. split; [reflexivity|].
    rewrite Hlen. cbn [Nat.eqb].
    now rewrite (nth_error_nth row 5 "" E).
Qed.

Lemma read_rows_clean rows : forall acc,
  Forall (fun e : entry num => Forall clean (share e)) acc ->
  Forall (fun e : entry num => Forall clean (share e))
    (fst (read_rows parse_float rows acc)).
Proof.
  induction rows as [|r rows IH]; intros acc Hacc; simpl; [exact Hacc|].
  destruct (read_row parse_float r) as [|e|] eqn:E; [now apply IH| |exact Hacc].
  apply IH. apply Forall_app. split; [exact Hacc|].
  constructor; [|constructor].
  destruct (read_row_accepted r e E) as (_ & x & _ & ->). simpl.
  unfold consumers. destruct (Nat.eqb (length r) 6); apply share_names_clean.
Qed.

End RowFacts.

(** X4. A row of exactly five cells whose amount parses makes [on_submit]
    raise: it returns no report, the rows after it are not read, and the
    global list of entries is left with the entries of the rows before
    it. *)
Theorem five_cell_row_raises (parse_float : string -> option float)
  (conversion_rates : dict float) (g : globals float)
  (current_participants : list string)
  (before after : list (list string)) (row : list string)
  (x : float) (es : list (entry float)) :
  length row = 5 ->
  parse_float (nth 4 row "") = Some x ->
  read_rows parse_float before [] = (es, true) ->
  read_row parse_float row = @Raised float
  /\ on_submit parse_float conversion_rates g current_participants
       (before ++ row :: after)
     = (mkGlobals current_participants es, None).
Proof.
  intros Hlen Hparse Hbefore.
  assert (Hraise : read_row parse_float row = @Raised float).
  { unfold read_row. rewrite Hlen, Hparse. cbn [Nat.ltb Nat.leb].
    assert (E : nth_error row 5 = None) by (apply nth_error_None; lia).
    now rewrite E. }
  split; [exact Hraise|].
  unfold on_submit.
  rewrite (read_rows_app parse_float before (row :: after) [] es Hbefore).
  simpl. now rewrite Hraise.
Qed.

Lemma five_cell_row_raises_witness :
  read_row parse_sample ["d"; "r"; "Alice"; "英镑"; "3"] = @Raised float
  /\ on_submit parse_sample default_rates (mkGlobals [] []) ["Alice"; "Bob"]
       ([["d"; "r"; "Alice"; "英镑"; "3"; "Bob"]]
          ++ ["d"; "r"; "Alice"; "英镑"; "3"] :: tl sample_rows)
     = (mkGlobals ["Alice"; "Bob"]
          [mkEntry "d" "r" "Alice" "英镑" 3%float ["Bob"]], None).
Proof.
  apply (five_cell_row_raises parse_sample default_rates (mkGlobals [] [])
           ["Alice"; "Bob"] [["d"; "r"; "Alice"; "英镑"; "3"; "Bob"]]
           (tl sample_rows) ["d"; "r"; "Alice"; "英镑"; "3"] 3%float
           [mkEntry "d" "r" "Alice" "英镑" 3%float ["Bob"]]).
  - reflexivity.
  - reflexivity.
  - vm_compute. reflexivity.
Defined.

(** X5. A row of fewer than five cells is passed over: [on_submit] leaves
    the globals and returns the report of the table without that row. *)
Theorem short_row_is_skipped (parse_float : string -> option float)
  (conversion_rates : dict float) (g : globals float)
  (current_participants : list string)
  (before after : list (list string)) (row : list string) :
  length row < 5 ->
  on_submit parse_float conversion_rates g current_participants
    (before ++ row :: after)
  = on_submit parse_float conversion_rates g current_participants
      (before ++ after).
Proof.
  intros Hlen. unfold on_submit.
  rewrite (read_rows_skip parse_float before row after []); [reflexivity|].
  unfold read_row. apply Nat.ltb_lt in Hlen. now rewrite Hlen.
Qed.

Lemma short_row_is_skipped_witness :
  on_submit parse_sample default_rates (mkGlobals [] []) ["Alice"; "Bob"]
    ([] ++ ["d"; "r"; "Alice"; "英镑"] :: sample_rows)
  = on_submit parse_sample default_rates (mkGlobals [] []) ["Alice"; "Bob"]
      ([] ++ sample_rows).
Proof.
  apply (short_row_is_skipped parse_sample default_rates (mkGlobals [] [])
           ["Alice"; "Bob"] [] sample_rows ["d"; "r"; "Alice"; "英镑"]).
  simpl. lia.
Defined.

(** X6. Every name in the share list of every entry that [on_submit] builds
    is not empty and has no white space at its ends. *)
Theorem share_names_are_clean (parse_float : string -> option float)
  (conversion_rates : dict float) (g : globals float)
  (current_participants : list string)
  (current_entries : list (list string)) :
  Forall (fun e : entry float =>
            Forall (fun p => p <> "" /\ strip p = p) (share e))
    (entries
       (fst (on_submit parse_float conversion_rates g current_participants
               current_entries))).
Proof.
  unfold on_submit.
  pose proof (read_rows_clean parse_float current_entries [] (Forall_nil _))
    as H.
  destruct (read_rows parse_float current_entries []) as [es finished].
  exact H.
Qed.

(** X7. The row that [update_entries] puts at the end of the table is read
    by [on_submit] as the entry that was typed in: same date, reference,
    payer, currency and amount, and the share list that was selected, which
    travels as the one text [",".join(share)]; this when the names are not
    empty, have no white space at their ends and hold no comma. *)
Theorem share_cell_round_trip (parse_float : string -> option float)
  (show : float -> string)
  (bill_date reference currency payer : string) (amount : float)
  (share : list string) (current_df : list (list table_cell)) :
  parse_float (show amount) = Some amount ->
  Forall clean share ->
  Forall (fun p => comma_free p = true) share ->
  read_row parse_float
    (row_texts show
       (last (update_entries bill_date reference currency (Some amount)
                payer share current_df) []))
  = Accepted (mkEntry bill_date reference payer currency amount share).
Proof.
  intros Hparse Hclean Hcomma. unfold update_entries. rewrite last_last.
  unfold read_row. simpl. rewrite Hparse.
  now rewrite (share_names_join share Hclean Hcomma).
Qed.

Lemma share_cell_round_trip_witness :
  read_row parse_sample
    (row_texts (fun _ : float => "3")
       (last (update_entries "d" "r" "英镑" (Some 3%float) "Alice"
                ["Alice"; "Bob"]
                [[Text "d"; Text "r"; Text "Bob"; Text "英镑"; Number 5%float;
                  Text "Alice"]]) []))
  = Accepted (mkEntry "d" "r" "Alice" "英镑" 3%float ["Alice"; "Bob"]).
Proof.
  apply (share_cell_round_trip parse_sample (fun _ : float => "3")
           "d" "r" "英镑" "Alice" 3%float ["Alice"; "Bob"]
           [[Text "d"; Text "r"; Text "Bob"; Text "英镑"; Number 5%float;
             Text "Alice"]]).
  - reflexivity.
  - repeat constructor; (discriminate || reflexivity).
  - repeat constructor.
Defined.

(** ** The CSV file *)

Section FileFacts.

Context {num : Type} {A : Arith num} {F : Format num}.
Variable parse_float : string -> option num.

Lemma firstn_five (row : list string) :
  5 <= length row ->
  firstn 5 row
  = [nth 0 row ""; nth 1 row ""; nth 2 row ""; nth 3 row ""; nth 4 row ""].
Proof.
  intros H. destruct row as [|a [|b [|c [|d [|e row]]]]]; simpl in H; try lia.
  reflexivity.
Qed.

Lemma out_row_written row :
  5 <= length row -> out_row row = Some (written row).
Proof.
  intros H. unfold out_row. apply Nat.ltb_ge in H. now rewrite H.
Qed.

Lemma load_written row names :
  5 <= length row -> names <> [] ->
  load_row (firstn 5 row ++ names) = firstn 5 row ++ [join_comma names].
Proof.
  intros H Hne.
  destruct row as [|a [|b [|c [|d [|e row]]]]]; simpl in H; try lia.
  destruct names as [|n [|n' names]]; [congruence|reflexivity|reflexivity].
Qed.

(** A row written to the file and loaded again is read as the same entry. *)
Lemma reload_row row :
  reloadable parse_float row ->
  read_row parse_float (load_row (written row)) = read_row parse_float row.
Proof.
  intros (e & Hread & Hne & Hcomma).
  destruct (read_row_accepted parse_float row e Hread)
    as (Hlen & x & Hparse & He).
  assert (Hshare : share e = consumers row) by (rewrite He; reflexivity).
  assert (Hclean : Forall clean (consumers row)).
  { unfold consumers. destruct (Nat.eqb (length row) 6);
      apply share_names_clean. }
  assert (Hfree : Forall (fun p => comma_free p = true) (consumers row)).
  { destruct Hcomma as [H6|Hc]; [|now rewrite <- Hshare].
    unfold consumers. rewrite H6. cbn [Nat.eqb].
    apply share_names_split_comma_free. }
  rewrite Hread. unfold written.
  rewrite load_written by (lia || now rewrite <- Hshare).
  rewrite (firstn_five row) by lia.
  unfold read_row. cbn [length app Nat.ltb Nat.leb nth nth_error].
  rewrite Hparse, (share_names_join _ Hclean Hfree), He. reflexivity.
Qed.

Lemma kept_rows_all rows : forall kept,
  Forall (reloadable parse_float) rows ->
  kept_rows parse_float rows kept = (kept ++ rows, true).
Proof.
  induction rows as [|r rows IH]; intros kept H; simpl.
  - now rewrite app_nil_r.
  - inversion H as [|? ? (e & Hread & _) Hrows]; subst.
    rewrite Hread, (IH _ Hrows), <- app_assoc. reflexivity.
Qed.

Lemma write_rows_all rows : forall file,
  Forall (fun row : list string => 5 <= length row) rows ->
  write_rows rows file = (file ++ map written rows, true).
Proof.
  induction rows as [|r rows IH]; intros file H; simpl.
  - now rewrite app_nil_r.
  - inversion H as [|? ? Hr Hrows]; subst.
    rewrite (out_row_written r Hr), (IH _ Hrows), <- app_assoc. reflexivity.
Qed.

Lemma reloadable_length row :
  reloadable parse_float row -> 5 <= length row.
Proof.
  intros (e & Hread & _).
  destruct (read_row_accepted parse_float row e Hread) as (H & _). lia.
Qed.

Lemma read_rows_reloaded rows : forall acc,
  Forall (reloadable parse_float) rows ->
  read_rows parse_float (map load_row (map written rows)) acc
  = read_rows parse_float rows acc.
Proof.
  induction rows as [|r rows IH]; intros acc H; [reflexivity|].
  inversion H as [|? ? Hr Hrows]; subst.
  cbn [map read_rows]. rewrite (reload_row r Hr).
  destruct (read_row parse_float r); [now apply IH|now apply IH|reflexivity].
Qed.

End FileFacts.

(** A table of two rows, each with sharers. *)
Example both_rows_reloadable :
  Forall (reloadable parse_sample) (tl sample_rows).
Proof.
  constructor; [|constructor; [|constructor]].
  - eexists. split; [vm_compute; reflexivity|].
    split; [discriminate|]. left. reflexivity.
  - eexists. split; [vm_compute; reflexivity|].
    split; [discriminate|]. right. repeat constructor.
Defined.

(** X8. When every row of a table, not empty, is accepted by [on_submit]
    with at least one sharer (the names free of commas where they stand in
    cells of their own), [on_submit] writes the file, and the rows that
    [load_csv_to_entries] loads from that file into an empty table give
    [on_submit] the same entries as the table did. *)
Theorem saved_table_reloads (parse_float : string -> option float)
  (csv_file : option (list (list string)))
  (current_entries : list (list string)) :
  current_entries <> [] ->
  Forall (reloadable parse_float) current_entries ->
  exists file,
    on_submit_file parse_float csv_file current_entries = Some file
    /\ read_rows parse_float (load_csv_to_entries (Some file) []) []
       = read_rows parse_float current_entries [].
Proof.
  intros Hne Hall.
  exists (csv_header :: map written current_entries). split.
  - unfold on_submit_file. rewrite (kept_rows_all parse_float _ [] Hall).
    cbn [app]. destruct current_entries as [|r rows]; [congruence|].
    unfold save_to_csv. rewrite write_rows_all; [reflexivity|].
    apply (Forall_impl _ (reloadable_length parse_float) Hall).
  - unfold load_csv_to_entries. cbn [tl app].
    now apply read_rows_reloaded.
Qed.

Lemma saved_table_reloads_witness :
  exists file,
    on_submit_file parse_sample None (tl sample_rows) = Some file
    /\ read_rows parse_sample (load_csv_to_entries (Some file) []) []
       = read_rows parse_sample (tl sample_rows) [].
Proof.
  apply (saved_table_reloads parse_sample None (tl sample_rows)).
  - discriminate.
  - exact both_rows_reloadable.
Defined.

(** X9. An entry without sharers does not survive the file: the row
    [save_to_csv] writes for it has five cells, [load_csv_to_entries] leaves
    a row of five cells as it is, and on that row [on_submit] raises. *)
Theorem entry_without_sharers_breaks_reload
  (parse_float : string -> option float) (row : list string)
  (e : entry float) :
  read_row parse_float row = Accepted e ->
  share e = [] ->
  out_row row = Some (written row)
  /\ length (written row) = 5
  /\ load_row (written row) = written row
  /\ read_row parse_float (written row) = @Raised float.
Proof.
  intros Hread Hshare.
  destruct (read_row_accepted parse_float row e Hread)
    as (Hlen & x & Hparse & He).
  assert (Hcons : consumers row = []) by (rewrite He in Hshare; exact Hshare).
  assert (Hw : written row = firstn 5 row)
    by (unfold written; now rewrite Hcons, app_nil_r).
  assert (H5 : length (written row) = 5)
    by (rewrite Hw, length_firstn; lia).
  split; [apply out_row_written; lia|]. split; [exact H5|]. split.
  - unfold load_row. now rewrite H5.
  - rewrite Hw, (firstn_five row) by lia.
    unfold read_row. cbn [length Nat.ltb Nat.leb nth nth_error].
    now rewrite Hparse.
Qed.

Lemma entry_without_sharers_breaks_reload_witness :
  out_row ["d"; "r"; "Alice"; "英镑"; "3"; " , "]
  = Some (written ["d"; "r"; "Alice"; "英镑"; "3"; " , "])
  /\ length (written ["d"; "r"; "Alice"; "英镑"; "3"; " , "]) = 5
  /\ load_row (written ["d"; "r"; "Alice"; "英镑"; "3"; " , "])
     = written ["d"; "r"; "Alice"; "英镑"; "3"; " , "]
  /\ read_row parse_sample (written ["d"; "r"; "Alice"; "英镑"; "3"; " , "])
     = @Raised float.
Proof.
  apply (entry_without_sharers_breaks_reload parse_sample
           ["d"; "r"; "Alice"; "英镑"; "3"; " , "]
           (mkEntry "d" "r" "Alice" "英镑" 3%float [])).
  - vm_compute. reflexivity.
  - reflexivity.
Defined.

(** X10. Whatever the file holds, no row that [load_csv_to_entries] adds
    to the table has more than six cells, so [on_submit] reads the sharers
    of a loaded row from its sixth cell alone; and the table gains one row
    for each row of the file after the header. *)
Theorem loaded_rows_have_six_cells (parse_float : string -> option float)
  (csv_file : option (list (list string)))
  (current_entries : list (list string)) :
  let loaded := load_csv_to_entries csv_file [] in
  load_csv_to_entries csv_file current_entries = current_entries ++ loaded
  /\ length loaded
     = match csv_file with None => 0 | Some rows => length (tl rows) end
  /\ Forall (fun row : list string => length row <= 6) loaded
  /\ Forall (fun row : list string =>
               forall e, read_row parse_float row = Accepted e ->
                 share e = share_names (split_comma (nth 5 row "")))
       loaded.
Proof.
  intros loaded.
  assert (Hlen : Forall (fun row : list string => length row <= 6) loaded).
  { unfold loaded, load_csv_to_entries. cbn [app].
    destruct csv_file as [rows|]; [|constructor].
    apply Forall_forall. intros row Hin.
    apply in_map_iff in Hin as [r [<- _]]. unfold load_row.
    destruct (6 <? length r) eqn:E.
    - rewrite length_app, length_firstn. cbn [length]. lia.
    - now apply Nat.ltb_ge in E. }
  split; [reflexivity|]. split; [|split; [exact Hlen|]].
  - unfold loaded, load_csv_to_entries. cbn [app].
    destruct csv_file as [rows|]; [apply length_map|reflexivity].
  - apply Forall_forall. intros row Hin e Hread.
    rewrite Forall_forall in Hlen. specialize (Hlen row Hin).
    destruct (read_row_accepted parse_float row e Hread)
      as (H6 & x & _ & ->).
    cbn [share]. unfold consumers.
    assert (E : Nat.eqb (length row) 6 = true) by (apply Nat.eqb_eq; lia).
    now rewrite E.
Qed.

(** ** The tables of the form *)

Section TableFacts.

Lemma first_column_singletons {X : Type} (l : list X) :
  first_column (map (fun p => [p]) l) = Some l.
Proof.
  induction l as [|x l IH]; simpl; [reflexivity|]. now rewrite IH.
Qed.

Lemma delete_at {X : Type} (before after : list X) (row : X) :
  firstn (length before) (before ++ row :: after)
  ++ skipn (S (length before)) (before ++ row :: after)
  = before ++ after.
Proof.
  induction before as [|x before IH]; [reflexivity|].
  simpl. f_equal. exact IH.
Qed.

Lemma delete_row_at {X : Type} (parse_int : string -> option Z)
  (delete_index : string) (before after : list (list X)) (row : list X) :
  parse_int delete_index = Some (Z.of_nat (length before) + 1)%Z ->
  delete_entry parse_int delete_index (before ++ row :: after)
  = before ++ after.
Proof.
  intros Hparse. unfold delete_entry. rewrite Hparse. cbv zeta.
  replace (Z.of_nat (length before) + 1 - 1)%Z
    with (Z.of_nat (length before)) by lia.
  rewrite length_app. cbn [length].
  assert (E1 : (Z.of_nat (length before) <? 0)%Z = false)
    by (apply Z.ltb_ge; lia).
  assert (E2 : (Z.of_nat (length before + S (length after))
                <=? Z.of_nat (length before))%Z = false)
    by (apply Z.leb_gt; lia).
  rewrite E1, E2, Nat2Z.id. cbn [orb]. apply delete_at.
Qed.

End TableFacts.

(** X11. Adding names one by one keeps the table of participants a column
    of distinct names, none of them empty: from such a table
    [update_participants] gives such a table, whose names are the former
    ones and the new name, unless it is empty. *)
Theorem participants_stay_distinct (name : string) (names : list string) :
  NoDup names ->
  ~ In "" names ->
  exists names',
    update_participants name (map (fun p => [p]) names)
    = Some (map (fun p => [p]) names')
    /\ NoDup names'
    /\ ~ In "" names'
    /\ forall p, In p names' <-> In p names \/ (p = name /\ name <> "").
Proof.
  intros Hnd Hne. unfold update_participants.
  rewrite first_column_singletons.
  destruct (String.eqb_spec name "") as [->|Hname]; cbn [negb andb].
  - exists names. repeat split; try assumption; [tauto|].
    intros [H|[_ H]]; [exact H|congruence].
  - destruct (mem name names) eqn:E; cbn [negb].
    + exists names. apply mem_In in E. repeat split; try assumption.
      * tauto.
      * intros [H|[-> _]]; assumption.
    + exists (names ++ [name]). apply mem_false in E. repeat split.
      * apply NoDup_app; [exact Hnd|repeat constructor; simpl; tauto|].
        intros a Ha [<-|[]]. contradiction.
      * intros H. apply in_app_or in H as [H|[H|[]]]; [contradiction|].
        now apply Hname.
      * intros H. apply in_app_or in H as [H|[<-|[]]]; tauto.
      * intros [H|[-> _]]; apply in_or_app; [now left|right; now left].
Qed.

Lemma participants_stay_distinct_witness :
  exists names',
    update_participants "Bob" (map (fun p => [p]) ["Alice"])
    = Some (map (fun p => [p]) names')
    /\ NoDup names'
    /\ ~ In "" names'
    /\ forall p, In p names' <-> In p ["Alice"] \/ (p = "Bob" /\ "Bob" <> "").
Proof.
  apply (participants_stay_distinct "Bob" ["Alice"]).
  - repeat constructor. simpl. tauto.
  - simpl. intros [H|[]]. discriminate H.
Defined.

(** X12. With an index [n] between 1 and the number of rows,
    [delete_entry] removes the n-th row and nothing else: the rows before
    it and the rows after it stay, in their order. *)
Theorem delete_removes_that_row {X : Type} (parse_int : string -> option Z)
  (delete_index : string) (before after : list (list X)) (row : list X) :
  parse_int delete_index = Some (Z.of_nat (length before) + 1)%Z ->
  delete_entry parse_int delete_index (before ++ row :: after)
  = before ++ after.
Proof.
  apply delete_row_at.
Qed.

Lemma delete_removes_that_row_witness :
  delete_entry (fun _ : string => Some (Z.of_nat (length [[1]]) + 1)%Z) "2"
    ([[1]] ++ [2] :: [[3]])
  = [[1]] ++ [[3]].
Proof.
  apply (delete_removes_that_row
           (fun _ : string => Some (Z.of_nat (length [[1]]) + 1)%Z) "2"
           [[1]] [[3]] [2]).
  reflexivity.
Defined.

(** X13. [delete_entry] leaves the table as it is when the index is not a
    number, is below 1 or is above the number of rows. *)
Theorem delete_out_of_range {X : Type} (parse_int : string -> option Z)
  (delete_index : string) (rows : list (list X)) :
  parse_int delete_index = None
  \/ (exists n, parse_int delete_index = Some n
                /\ (n < 1 \/ Z.of_nat (length rows) < n)%Z) ->
  delete_entry parse_int delete_index rows = rows.
Proof.
  intros [H|(n & H & Hn)]; unfold delete_entry; rewrite H; [reflexivity|].
  cbv zeta. destruct Hn as [Hn|Hn].
  - assert (E : (n - 1 <? 0)%Z = true) by (apply Z.ltb_lt; lia).
    now rewrite E.
  - assert (E : (Z.of_nat (length rows) <=? n - 1)%Z = true)
      by (apply Z.leb_le; lia).
    rewrite E. now rewrite orb_true_r.
Qed.

Lemma delete_out_of_range_witness :
  delete_entry (fun _ : string => Some 0%Z) "0" [[1]; [2]] = [[1]; [2]].
Proof.
  apply (delete_out_of_range (fun _ : string => Some 0%Z) "0" [[1]; [2]]).
  right. exists 0%Z. split; [reflexivity|]. left. lia.
Defined.

(** X14. [update_entries] puts the new entry last: the new table is the old
    one followed by the row of the six cells of the entry.  So deleting the
    row of the last index afterwards gives back the table.  With an empty
    amount field [update_entries] adds nothing. *)
Theorem added_entry_can_be_deleted (parse_int : string -> option Z)
  (delete_index bill_date reference currency payer : string)
  (amount : float) (share : list string)
  (current_df : list (list table_cell)) :
  parse_int delete_index = Some (Z.of_nat (length current_df) + 1)%Z ->
  update_entries bill_date reference currency (Some amount) payer share
    current_df
  = current_df
    ++ [[Text bill_date; Text reference; Text payer; Text currency;
         Number amount; Text (String.concat "," share)]]
  /\ delete_entry parse_int delete_index
       (update_entries bill_date reference currency (Some amount) payer share
          current_df)
     = current_df
  /\ update_entries bill_date reference currency None payer share current_df
     = current_df.
Proof.
  intros Hparse. split; [reflexivity|]. split; [|reflexivity].
  unfold update_entries.
  rewrite (delete_row_at parse_int delete_index current_df [] _ Hparse).
  apply app_nil_r.
Qed.

Lemma added_entry_can_be_deleted_witness :
  update_entries "d" "r" "英镑" (Some 3%float) "Alice" ["Alice"; "Bob"]
    [[Text "d"; Text "r"; Text "Bob"; Text "英镑"; Number 5%float;
      Text "Alice"]]
  = [[Text "d"; Text "r"; Text "Bob"; Text "英镑"; Number 5%float;
      Text "Alice"]]
    ++ [[Text "d"; Text "r"; Text "Alice"; Text "英镑"; Number 3%float;
         Text (String.concat "," ["Alice"; "Bob"])]]
  /\ delete_entry (fun _ : string => Some 2%Z) "2"
       (update_entries "d" "r" "英镑" (Some 3%float) "Alice" ["Alice"; "Bob"]
          [[Text "d"; Text "r"; Text "Bob"; Text "英镑"; Number 5%float;
            Text "Alice"]])
     = [[Text "d"; Text "r"; Text "Bob"; Text "英镑"; Number 5%float;
         Text "Alice"]]
  /\ update_entries "d" "r" "英镑" None "Alice" ["Alice"; "Bob"]
       [[Text "d"; Text "r"; Text "Bob"; Text "英镑"; Number 5%float;
         Text "Alice"]]
     = [[Text "d"; Text "r"; Text "Bob"; Text "英镑"; Number 5%float;
         Text "Alice"]].
Proof.
  apply (added_entry_can_be_deleted (fun _ : string => Some 2%Z) "2"
           "d" "r" "英镑" "Alice" 3%float ["Alice"; "Bob"]
           [[Text "d"; Text "r"; Text "Bob"; Text "英镑"; Number 5%float;
             Text "Alice"]]).
  reflexivity.
Defined.

(** The table of the sample above after the entry is added. *)
Example table_after_adding :
  update_entries "d" "r" "英镑" (Some 3%float) "Alice" ["Alice"; "Bob"]
    [[Text "d"; Text "r"; Text "Bob"; Text "英镑"; Number 5%float;
      Text "Alice"]]
  = [[Text "d"; Text "r"; Text "Bob"; Text "英镑"; Number 5%float;
      Text "Alice"];
     [Text "d"; Text "r"; Text "Alice"; Text "英镑"; Number 3%float;
      Text "Alice,Bob"]].
Proof. reflexivity. Qed.

(** ** Differences of floats *)

Section FloatFacts.

Variables (prec emax : Z).

Lemma positive_round_aux s m e l :
  positive (binary_round_aux prec emax s m e l) = true -> s = false.
Proof.
  unfold binary_round_aux.
  destruct (shr_fexp prec emax m e l) as [mrs e'].
  destruct (shr_fexp prec emax _ e' loc_Exact) as [mrs' e''].
  destruct (shr_m mrs') as [|p|p]; [discriminate| |discriminate].
  destruct (Z.leb e'' (emax - prec)); destruct s; simpl; congruence.
Qed.

Lemma positive_round s m e :
  positive (binary_round prec emax s m e) = true -> s = false.
Proof.
  unfold binary_round. destruct (shl_align m e _) as [mz ez].
  apply positive_round_aux.
Qed.

Lemma positive_normalize z e :
  positive (binary_normalize prec emax z e false) = true -> (0 < z)%Z.
Proof.
  destruct z as [|p|p]; simpl; intros H; [discriminate|lia|].
  apply positive_round in H. discriminate.
Qed.

(** When [x - y] is above zero, [y - x] is not. *)
Lemma SFsub_positive x y :
  positive (SFsub prec emax x y) = true ->
  positive (SFsub prec emax y x) = false.
Proof.
  destruct x as [sx|sx| |sx mx ex], y as [sy|sy| |sy my ey]; simpl;
    try (repeat match goal with s : bool |- _ => destruct s end;
         simpl; congruence).
  intros H. apply positive_normalize in H.
  destruct (positive (binary_normalize prec emax _ (Z.min ey ex) false))
    eqn:E; [|reflexivity].
  apply positive_normalize in E. rewrite (Z.min_comm ey ex) in E. lia.
Qed.

Lemma SFltb_positive m e r :
  SFltb (S754_finite false m e) r = true -> positive r = true.
Proof.
  unfold SFltb. destruct r as [s|s| |s m' e']; simpl; try discriminate;
    destruct s; simpl; congruence.
Qed.

Lemma SFltb_not_positive m e r :
  positive r = false -> SFltb (S754_finite false m e) r = false.
Proof.
  unfold SFltb. destruct r as [s|s| |s m' e']; simpl; try reflexivity;
    destruct s; simpl; congruence.
Qed.

End FloatFacts.

(** A difference and the opposite difference are not both above 1e-9. *)
Lemma above_epsilon_one_way (a b : float) :
  PrimFloat.ltb epsilon (PrimFloat.sub a b) = true ->
  PrimFloat.ltb epsilon (PrimFloat.sub b a) = false.
Proof.
  rewrite !FloatAxioms.ltb_spec, !FloatAxioms.sub_spec.
  assert (He : exists m e, Prim2SF epsilon = S754_finite false m e)
    by (eexists; eexists; vm_compute; reflexivity).
  destruct He as (m & e & ->). intros H.
  apply SFltb_not_positive. apply SFsub_positive.
  exact (SFltb_positive m e _ H).
Qed.

(** ** Who takes part, and which debts exist *)

Section SettleFacts.

Context {num : Type} {A : Arith num}.
Implicit Types (T : dict (matrix num)) (e : entry num).

(** The matrices per currency do not depend on the set of people. *)
Lemma share_fold_transfer e l : forall st st' : agg_state num,
  transfer st = transfer st' ->
  transfer (fold_left (share_step e) l st)
  = transfer (fold_left (share_step e) l st').
Proof.
  induction l as [|p l IH]; intros st st' H; simpl; [exact H|].
  apply IH. unfold share_step.
  destruct (String.eqb p (payer e)); simpl; now rewrite H.
Qed.

Lemma fold_entries_transfer (es : list (entry num)) :
  forall st st' : agg_state num,
  transfer st = transfer st' ->
  transfer (fold_left entry_step es st)
  = transfer (fold_left entry_step es st').
Proof.
  induction es as [|e es IH]; intros st st' H; simpl; [exact H|].
  apply IH. unfold entry_step.
  destruct (Nat.eqb (length (share e)) 0); [exact H|].
  now apply share_fold_transfer.
Qed.

Lemma aggregate_transfer participants participants' (es : list (entry num)) :
  transfer (aggregate participants es) = transfer (aggregate participants' es).
Proof. unfold aggregate. now apply fold_entries_transfer. Qed.

Lemma sorted_same_members l l' :
  NoDup l -> NoDup l' -> (forall x, In x l <-> In x l') ->
  sorted l = sorted l'.
Proof.
  intros H H' Hin. apply sorted_permutation.
  now apply NoDup_Permutation.
Qed.

Lemma people_same_members participants participants'
  (es : list (entry num)) :
  (forall x, In x participants <-> In x participants') ->
  sorted (all_people (aggregate participants es))
  = sorted (all_people (aggregate participants' es)).
Proof.
  intros H. apply sorted_same_members; try apply aggregate_NoDup.
  intros x. rewrite !aggregate_people, H. reflexivity.
Qed.

Lemma settle_same_members {F : Format num} rates participants participants'
  (es : list (entry num)) :
  (forall x, In x participants <-> In x participants') ->
  settle rates participants es = settle rates participants' es.
Proof.
  intros H. unfold settle, settle_with.
  rewrite (people_same_members participants participants' es H).
  now rewrite (aggregate_transfer participants participants' es).
Qed.

(** A cell of a matrix per currency comes from an entry. *)
Lemma share_fold_origin e c d q l : forall st : agg_state num,
  cell3_opt (transfer (fold_left (share_step e) l st)) c d q <> None ->
  cell3_opt (transfer st) c d q <> None
  \/ (c = currency e /\ q = payer e /\ d <> payer e /\ In d l).
Proof.
  induction l as [|p l IH]; intros st H; [now left|].
  cbn [fold_left] in H. apply IH in H. clear IH.
  destruct H as [H|(Hc & Hq & Hd & Hin)]; [|right; simpl; tauto].
  unfold share_step in H.
  destruct (String.eqb_spec p (payer e)) as [Hp|Hp]; cbn [transfer] in H;
    [now left|].
  rewrite cell3_opt_add_transfer in H.
  destruct (String.eqb_spec (currency e) c) as [Hc|Hc]; simpl in H;
    [|now left].
  destruct (String.eqb_spec p d) as [Hd|Hd]; simpl in H; [|now left].
  destruct (String.eqb_spec (payer e) q) as [Hq|Hq]; simpl in H; [|now left].
  right. subst. repeat split; try reflexivity; [exact Hp|now left].
Qed.

Lemma fold_entries_origin (es : list (entry num)) c d q :
  forall st : agg_state num,
  cell3_opt (transfer (fold_left entry_step es st)) c d q <> None ->
  cell3_opt (transfer st) c d q <> None
  \/ exists e, In e es /\ c = currency e /\ q = payer e /\ d <> payer e
               /\ In d (share e).
Proof.
  induction es as [|e es IH]; intros st H; [now left|].
  cbn [fold_left] in H. apply IH in H. clear IH.
  destruct H as [H|(e' & Hin & H)].
  - unfold entry_step in H.
    destruct (Nat.eqb (length (share e)) 0); [now left|].
    apply share_fold_origin in H as [H|H]; [now left|].
    right. exists e. split; [now left|exact H].
  - right. exists e'. split; [now right|exact H].
Qed.

Lemma unique_keys_In {V : Type} (d : dict V) k (v : V) :
  unique_keys d = true -> In (k, v) d -> lookup d k = Some v.
Proof.
  induction d as [|[k' v'] d IH]; simpl; [tauto|].
  intros H [Heq|Hin].
  - injection Heq as -> ->. now rewrite String.eqb_refl.
  - apply andb_true_iff in H as [Hk Hd].
    destruct (String.eqb_spec k' k) as [->|_]; [|now apply IH].
    exfalso. apply negb_true_iff, mem_false in Hk. apply Hk.
    unfold keys. now apply (in_map fst) in Hin.
Qed.

Lemma unique_keys_add_transfer T c p q (x : num) :
  unique_keys T = true -> unique_keys (add_transfer T c p q x) = true.
Proof. apply unique_keys_setitem. Qed.

Lemma fold_entries_unique_keys (es : list (entry num)) :
  forall st : agg_state num,
  unique_keys (transfer st) = true ->
  unique_keys (transfer (fold_left entry_step es st)) = true.
Proof.
  induction es as [|e es IH]; intros st Hst; simpl; [exact Hst|].
  apply IH. unfold entry_step.
  destruct (Nat.eqb (length (share e)) 0); [exact Hst|].
  generalize (share e). intros l. revert st Hst.
  induction l as [|p l IHl]; intros st Hst; simpl; [exact Hst|].
  apply IHl. unfold share_step.
  destruct (String.eqb p (payer e)); simpl; [exact Hst|].
  now apply unique_keys_add_transfer.
Qed.

Lemma aggregate_unique_keys participants (es : list (entry num)) :
  unique_keys (transfer (aggregate participants es)) = true.
Proof. unfold aggregate. now apply fold_entries_unique_keys. Qed.

Lemma owed_somewhere_origin T d q :
  unique_keys T = true ->
  owed_somewhere T d q = true -> exists c, cell3_opt T c d q <> None.
Proof.
  intros Hu H. unfold owed_somewhere in H.
  apply existsb_exists in H as ([c m] & Hin & Hcell). simpl in Hcell.
  exists c. unfold cell3_opt. rewrite (unique_keys_In T c m Hu Hin).
  destruct (cell_opt m d q); [discriminate|discriminate].
Qed.

(** The cells of the unified matrix. *)
Lemma unified_cell_origin rates participants (es : list (entry num)) d q :
  cell_opt (normalize rates (transfer (aggregate participants es))) d q
  <> None <->
  exists e, In e es /\ In d (share e) /\ payer e = q /\ d <> q.
Proof.
  split.
  - intros H.
    destruct (aggregate_invariants participants es) as [Hwf _].
    rewrite (normalize_cell rates _ d q Hwf) in H.
    destruct (owed_somewhere _ d q) eqn:E; [|congruence].
    apply owed_somewhere_origin in E as [c Hc];
      [|apply aggregate_unique_keys].
    unfold aggregate in Hc. apply fold_entries_origin in Hc.
    destruct Hc as [Hc|(e & Hin & _ & -> & Hd & Hs)].
    + exfalso. apply Hc. reflexivity.
    + exists e. tauto.
  - intros (e & Hin & Hs & <- & Hd).
    now apply sharer_debt_recorded.
Qed.

Lemma flat_map_insert_sorted {Y : Type} (g : string -> list Y) x l :
  g x = [] -> flat_map g (insert_sorted x l) = flat_map g l.
Proof.
  intros H. induction l as [|y l IH]; simpl; [now rewrite H|].
  destruct (String.leb x y); simpl; [now rewrite H|now rewrite IH].
Qed.

Lemma net_transfers_insert (m : matrix num) p l :
  (forall j, pair_transfers m p j = []) ->
  (forall i, pair_transfers m i p = []) ->
  net_transfers m (insert_sorted p l) = net_transfers m l.
Proof.
  intros Hrow Hcol. unfold net_transfers.
  rewrite flat_map_insert_sorted by (apply flat_map_nil; exact Hrow).
  apply flat_map_ext. intros i. now apply flat_map_insert_sorted.
Qed.

Lemma people_with_newcomer participants (es : list (entry num)) p :
  ~ In p (all_people (aggregate participants es)) ->
  sorted (all_people (aggregate (p :: participants) es))
  = insert_sorted p (sorted (all_people (aggregate participants es))).
Proof.
  intros Hout.
  change (insert_sorted p (sorted (all_people (aggregate participants es))))
    with (sorted (p :: all_people (aggregate participants es))).
  apply sorted_same_members.
  - apply aggregate_NoDup.
  - constructor; [exact Hout|apply aggregate_NoDup].
  - intros x. simpl. rewrite !aggregate_people. simpl. tauto.
Qed.

(** The transfers of a matrix, pair by pair, have distinct pairs. *)
Lemma pair_transfers_fst (m : matrix num) i j t :
  In t (pair_transfers m i j) -> fst t = (i, j).
Proof. intros H. apply pair_transfers_In in H as (_ & _ & ->). reflexivity. Qed.

Lemma row_transfers_NoDup (m : matrix num) i l :
  NoDup l -> NoDup (map fst (flat_map (pair_transfers m i) l)).
Proof.
  induction 1 as [|j l Hj Hl IH]; simpl; [constructor|].
  rewrite map_app. apply NoDup_app; [|exact IH|].
  - unfold pair_transfers. destruct (String.eqb i j); [constructor|].
    destruct (gt_eps _); repeat constructor. simpl. tauto.
  - intros pr H1 H2.
    apply in_map_iff in H1 as (t & <- & Ht).
    apply in_map_iff in H2 as (t' & Heq & Ht').
    apply pair_transfers_fst in Ht.
    apply in_flat_map in Ht' as (j' & Hj' & Ht').
    apply pair_transfers_fst in Ht'.
    rewrite Ht, Ht' in Heq. injection Heq as <-. contradiction.
Qed.

Lemma rows_transfers_NoDup (m : matrix num) cols rows :
  NoDup cols -> NoDup rows ->
  NoDup (map fst (flat_map (fun i => flat_map (pair_transfers m i) cols)
                    rows)).
Proof.
  intros Hcols. induction 1 as [|i l Hi Hl IH]; simpl; [constructor|].
  rewrite map_app. apply NoDup_app; [|exact IH|].
  - now apply row_transfers_NoDup.
  - intros pr H1 H2.
    apply in_map_iff in H1 as (t & <- & Ht).
    apply in_map_iff in H2 as (t' & Heq & Ht').
    apply in_flat_map in Ht as (j & _ & Ht).
    apply pair_transfers_fst in Ht.
    apply in_flat_map in Ht' as (i' & Hi' & Ht').
    apply in_flat_map in Ht' as (j' & _ & Ht').
    apply pair_transfers_fst in Ht'.
    rewrite Ht, Ht' in Heq. injection Heq as <- _. contradiction.
Qed.

Lemma net_transfers_NoDup (m : matrix num) people :
  NoDup people -> NoDup (map fst (net_transfers m people)).
Proof. intros H. now apply rows_transfers_NoDup. Qed.

End SettleFacts.

(** X15. The settlement depends on the registered participants as a set:
    two lists with the same names, in any order and with any repetitions,
    give the same matrices, the same transfers and the same report. *)
Theorem registration_order_is_irrelevant (conversion_rates : dict float)
  (participants participants' : list string) (entries : list (entry float)) :
  (forall x, In x participants <-> In x participants') ->
  settle conversion_rates participants entries
  = settle conversion_rates participants' entries.
Proof. apply settle_same_members. Qed.

Lemma registration_order_is_irrelevant_witness :
  settle default_rates ["Bob"; "Alice"; "Bob"] [alice_pays_120; bob_pays_100]
  = settle default_rates ["Alice"; "Bob"] [alice_pays_120; bob_pays_100].
Proof.
  apply (registration_order_is_irrelevant default_rates
           ["Bob"; "Alice"; "Bob"] ["Alice"; "Bob"]).
  intros x. simpl. tauto.
Defined.

(** X16. The report is the "no valid data" message exactly when the
    transfer list is empty; otherwise it is the table followed by the list
    of the transfers.  The paragraph for the case without transfers,
    "everybody is even", is never returned. *)
Theorem report_is_message_or_list (conversion_rates : dict float)
  (participants : list string) (entries : list (entry float)) :
  let r := settle conversion_rates participants entries in
  (transactions (netted r) = []
   /\ compute_result conversion_rates participants entries = no_data_message)
  \/ (transactions (netted r) <> []
      /\ compute_result conversion_rates participants entries
         = report_with_transfers (people_list r) (reduced_matrix (netted r))
             (transactions (netted r))).
Proof.
  intros r.
  destruct (transactions (netted r)) as [|t txs] eqn:E.
  - left. split; [reflexivity|].
    unfold compute_result, settle, settle_with. cbn [html_result].
    apply no_transfer_no_data. exact E.
  - right. split; [discriminate|].
    unfold compute_result. fold r.
    change (html_result r)
      with (render (people_list r) (reduced_matrix (netted r))
              (transactions (netted r))).
    rewrite E. reflexivity.
Qed.

(** X17. The unified matrix has a cell (debtor, creditor) exactly when some
    entry paid by the creditor names the debtor, another person, in its
    share list. *)
Theorem debts_come_from_entries (conversion_rates : dict float)
  (participants : list string) (entries : list (entry float))
  (debtor creditor : string) :
  cell_opt (unified (settle conversion_rates participants entries))
    debtor creditor <> None
  <-> exists e, In e entries /\ In debtor (share e)
                /\ payer e = creditor /\ debtor <> creditor.
Proof.
  exact (unified_cell_origin conversion_rates participants entries
           debtor creditor).
Qed.

Lemma idle_pair_no_transfer (m : matrix float) (i j : string) :
  cell_opt m i j = None -> cell_opt m j i = None ->
  pair_transfers m i j = [].
Proof.
  intros H1 H2. unfold pair_transfers, net_amount.
  rewrite !cell_of_opt, H1, H2.
  destruct (String.eqb i j); reflexivity.
Qed.

(** X18. Registering a person who paid no entry and stands in no share
    list changes no transfer. *)
Theorem idle_participant_adds_no_transfer (conversion_rates : dict float)
  (participants : list string) (entries : list (entry float))
  (p : string) :
  (forall e, In e entries -> payer e <> p /\ ~ In p (share e)) ->
  transactions (netted (settle conversion_rates (p :: participants) entries))
  = transactions (netted (settle conversion_rates participants entries)).
Proof.
  intros Hidle.
  destruct (mem p participants) eqn:Ereg.
  - apply mem_In in Ereg. f_equal. f_equal.
    apply settle_same_members. intros x. simpl. split; [|tauto].
    intros [<-|H]; assumption.
  - apply mem_false in Ereg.
    assert (Hout : ~ In p (all_people (aggregate participants entries))).
    { rewrite aggregate_people. intros [H|(e & He & Hs)]; [contradiction|].
      now apply (Hidle e He). }
    destruct (netting_people_facts conversion_rates (p :: participants)
                entries) as (_ & Htx' & _).
    destruct (netting_people_facts conversion_rates participants entries)
      as (_ & Htx & _).
    rewrite Htx', Htx.
    unfold settle, settle_with. cbn [unified people_list].
    rewrite (aggregate_transfer (p :: participants) participants entries).
    rewrite (people_with_newcomer participants entries p Hout).
    assert (Hnone : forall i j, i = p \/ j = p ->
              cell_opt (normalize conversion_rates
                          (transfer (aggregate participants entries))) i j
              = None).
    { intros i j Hp.
      destruct (cell_opt _ i j) eqn:E; [|reflexivity]. exfalso.
      assert (Hsome : cell_opt
                        (normalize conversion_rates
                           (transfer (aggregate participants entries))) i j
                      <> None) by congruence.
      apply unified_cell_origin in Hsome as (e & He & Hs & Hpay & _).
      destruct (Hidle e He) as [H1 H2].
      destruct Hp as [->| ->]; [now apply H2|now apply H1]. }
    apply net_transfers_insert.
    + intros j. apply idle_pair_no_transfer; apply Hnone; tauto.
    + intros i. apply idle_pair_no_transfer; apply Hnone; tauto.
Qed.

Lemma idle_participant_adds_no_transfer_witness :
  transactions
    (netted (settle default_rates ("Dana" :: ["Alice"; "Bob"])
               [alice_pays_120; bob_pays_100]))
  = transactions
      (netted (settle default_rates ["Alice"; "Bob"]
                 [alice_pays_120; bob_pays_100])).
Proof.
  apply (idle_participant_adds_no_transfer default_rates ["Alice"; "Bob"]
           [alice_pays_120; bob_pays_100] "Dana").
  intros e [<-|[<-|[]]]; split; simpl;
    try discriminate; intros [H|[H|[]]]; discriminate H.
Defined.

(** X19. Between two people there is at most one transfer: no ordered
    pair (debtor, creditor) stands twice in the transfer list, and when it
    holds a transfer from one person to another it holds none back. *)
Theorem one_transfer_between_two (conversion_rates : dict float)
  (participants : list string) (entries : list (entry float)) :
  let txs :=
    transactions (netted (settle conversion_rates participants entries)) in
  NoDup (map fst txs)
  /\ forall debtor creditor amt back,
       In (debtor, creditor, amt) txs -> ~ In (creditor, debtor, back) txs.
Proof.
  intros txs.
  destruct (netting_people_facts conversion_rates participants entries)
    as (_ & Htx & _).
  fold txs in Htx. split.
  - rewrite Htx. apply net_transfers_NoDup.
    unfold settle, settle_with. cbn [people_list].
    apply (Permutation_NoDup (Permutation_sym (sorted_perm _))).
    apply aggregate_NoDup.
  - intros debtor creditor amt back H1 H2. rewrite Htx in H1, H2.
    apply net_transfers_In in H1 as (i & j & _ & _ & _ & Hgt & Heq).
    injection Heq as <- <- _.
    apply net_transfers_In in H2 as (i' & j' & _ & _ & _ & Hgt' & Heq').
    injection Heq' as <- <- _.
    unfold net_amount in Hgt, Hgt'.
    pose proof (above_epsilon_one_way _ _ Hgt) as Hno.
    change (PrimFloat.ltb epsilon
              (PrimFloat.sub
                 (cell (unified (settle conversion_rates participants entries))
                    creditor debtor)
                 (cell (unified (settle conversion_rates participants entries))
                    debtor creditor)) = true) in Hgt'.
    congruence.
Qed.
